(** * Query collections of Altair: the local store, the tree builder and the
      remote reconciler of [QueryCollectionService]

    A shallow embedding of
    [packages/altair-app/src/app/modules/altair/services/query-collection/query-collection.service.ts].

    - The Dexie table [storage.queryCollections] is a finite map from primary
      keys to records.
    - [uuid()] and [storage.now()] are read from two oracles carried by the
      world; a counter says how many values have been drawn.
    - A rejected promise is a [Throw]; the state reached before the throw is
      kept (only [storage.transaction] rolls the table back).
    - JavaScript values: a number that is an id is an integer ([Z]); a string
      is a [string]; an optional property is an [option] ([None] is
      [undefined]). *)

From Stdlib Require Import Ascii String.
From stdpp Require Import gmap strings list fin_maps sorting pretty.

Local Open Scope string_scope.
Local Open Scope list_scope.
Local Open Scope Z_scope.

(** ** Identifiers *)

(** [type CollectionID = number | string]. *)
Inductive CollectionID :=
| IdNum (n : Z)
| IdStr (s : string).

#[global] Instance CollectionID_eq_dec : EqDecision CollectionID.
Proof. solve_decision. Defined.

#[global] Instance CollectionID_countable : Countable CollectionID.
Proof.
  refine (inj_countable'
    (λ i, match i with IdNum n => inl n | IdStr s => inr s end)
    (λ x, match x with inl n => IdNum n | inr s => IdStr s end) _).
  by intros [].
Defined.

(** The template literal [`${collectionId}`]: a number is written in decimal,
    a string is itself. *)
Definition str_id (i : CollectionID) : string :=
  match i with
  | IdNum n => pretty n
  | IdStr s => s
  end.

(** [`${x}`] of a property that may be missing. *)
Definition template (i : option CollectionID) : string :=
  match i with
  | Some i => str_id i
  | None => "undefined"
  end.

(** Truthiness of an id ([!collectionId] is its negation): [undefined], [0]
    and [''] are falsy. *)
Definition truthy_id (i : option CollectionID) : bool :=
  match i with
  | None => false
  | Some (IdNum n) => negb (n =? 0)
  | Some (IdStr s) => negb (String.eqb s "")
  end.

Definition truthy_str (s : option string) : bool :=
  match s with
  | None => false
  | Some s => negb (String.eqb s "")
  end.

(** ** [Number(string)]

    The string is trimmed of white space; the empty string is [0]; an
    optional sign followed by decimal digits is that integer; anything else
    met among ids is [NaN], which is [None] here.  (Fractions, exponents,
    hexadecimal literals and [Infinity] are numbers too in JavaScript; no id
    of this application has such a form and they are read as [NaN] here.) *)

Fixpoint drop_spaces (s : string) : string :=
  match s with
  | String a s' => if Ascii.is_space a then drop_spaces s' else s
  | EmptyString => EmptyString
  end.

Definition trim (s : string) : string :=
  String.rev (drop_spaces (String.rev (drop_spaces s))).

Definition digit_of (a : ascii) : option Z :=
  let n := Z.of_N (N_of_ascii a) in
  if (48 <=? n) && (n <=? 57) then Some (n - 48) else None.

Fixpoint digits_value (acc : Z) (s : string) : option Z :=
  match s with
  | EmptyString => Some acc
  | String a s' =>
      match digit_of a with
      | Some d => digits_value (10 * acc + d) s'
      | None => None
      end
  end.

Definition unsigned_decimal (s : string) : option Z :=
  match s with
  | EmptyString => None
  | _ => digits_value 0 s
  end.

Definition Number (s : string) : option Z :=
  match trim s with
  | EmptyString => Some 0
  | String "+" s' => unsigned_decimal s'
  | String "-" s' => Z.opp <$> unsigned_decimal s'
  | t => unsigned_decimal t
  end.

(** [getAlternateCollectionID]: the other representation of an id; a string
    that is not a number has the alternate [''], never [NaN]. *)
Definition getAlternateCollectionID (collectionId : CollectionID) : CollectionID :=
  match collectionId with
  | IdNum n => IdStr (pretty n)
  | IdStr s =>
      match Number s with
      | Some n => IdNum n
      | None => IdStr ""
      end
  end.

(** ** Records *)

(** Modelled from the spec: the interface [IQuery] (declared in
    [altair-graphql-core], not among the sources), with the fields of the
    spec's data model, [{ id, serverId?, windowName?, created_at, updated_at,
    ...content }].  [q_content] stands for the window state the query carries
    besides the fields the service reads; like the other properties it is
    [None] on an object that lacks it. *)
Record IQuery := mkQuery {
  q_id : option string;
  q_serverId : option string;
  q_windowName : option string;
  q_content : option string;
  q_created_at : option Z;
  q_updated_at : option Z;
}.

(** Modelled from the spec: the interface [IQueryCollection] (declared in
    [altair-graphql-core], not among the sources), with the fields of the
    spec's data model, [{ id, title, parentPath, serverId?, queries,
    created_at, updated_at }]. *)
Record IQueryCollection := mkCollection {
  c_id : option CollectionID;
  c_title : string;
  c_queries : list IQuery;
  c_parentPath : option string;
  c_serverId : option string;
  c_created_at : option Z;
  c_updated_at : option Z;
}.

#[global] Instance IQuery_eq_dec : EqDecision IQuery.
Proof. solve_decision. Defined.

#[global] Instance IQueryCollection_eq_dec : EqDecision IQueryCollection.
Proof. solve_decision. Defined.

Definition set_id (i : option CollectionID) (c : IQueryCollection) :=
  mkCollection i (c_title c) (c_queries c) (c_parentPath c) (c_serverId c)
    (c_created_at c) (c_updated_at c).

Definition set_title (t : string) (c : IQueryCollection) :=
  mkCollection (c_id c) t (c_queries c) (c_parentPath c) (c_serverId c)
    (c_created_at c) (c_updated_at c).

Definition set_queries (qs : list IQuery) (c : IQueryCollection) :=
  mkCollection (c_id c) (c_title c) qs (c_parentPath c) (c_serverId c)
    (c_created_at c) (c_updated_at c).

Definition set_parentPath (p : option string) (c : IQueryCollection) :=
  mkCollection (c_id c) (c_title c) (c_queries c) p (c_serverId c)
    (c_created_at c) (c_updated_at c).

Definition set_serverId (s : option string) (c : IQueryCollection) :=
  mkCollection (c_id c) (c_title c) (c_queries c) (c_parentPath c) s
    (c_created_at c) (c_updated_at c).

Definition set_created_at (t : option Z) (c : IQueryCollection) :=
  mkCollection (c_id c) (c_title c) (c_queries c) (c_parentPath c) (c_serverId c)
    t (c_updated_at c).

Definition set_updated_at (t : option Z) (c : IQueryCollection) :=
  mkCollection (c_id c) (c_title c) (c_queries c) (c_parentPath c) (c_serverId c)
    (c_created_at c) t.

(** ** The world: the table, the oracles and the remote side *)

Inductive Res (A : Type) :=
| Ok (a : A)
| Throw (msg : string).
Arguments Ok {A} a.
Arguments Throw {A} msg.

(** Modelled from the spec: what [ApiService.getCollections] answers
    ([ApiService] is not among the sources),
    [[{id, collectionName, updatedAt, queries: [{id, updatedAt, content}]}]].
    [rq_content] is the query the server holds; the timestamps are the epoch
    milliseconds their [Date] stands for ([None] is an invalid date). *)
Record ServerQuery := mkServerQuery {
  rq_id : string;
  rq_updatedAt : option Z;
  rq_content : IQuery;
}.

Record ServerCollection := mkServerCollection {
  rc_id : string;
  rc_collectionName : string;
  rc_updatedAt : option Z;
  rc_queries : list ServerQuery;
}.

(** Modelled from the spec: the remote side as the service sees it, the
    answers of [AccountService.getUser] (is there a user) and of the calls of
    [ApiService] (neither is among the sources); an answer that is a [Throw]
    is a rejected call. *)
Record Api := mkApi {
  api_getUser : bool;
  api_createQueries : string → list IQuery → Res (list string);
  api_updateQuery : string → IQuery → Res unit;
  api_deleteQuery : string → Res unit;
  api_deleteCollection : string → Res unit;
  api_getCollections : Res (list ServerCollection);
}.

Record World := mkWorld {
  queryCollections : gmap CollectionID IQueryCollection;
  uuid_src : nat → string;
  uuid_drawn : nat;
  now_src : nat → Z;
  now_drawn : nat;
  api : Api;
}.

Definition set_table (t : gmap CollectionID IQueryCollection) (w : World) : World :=
  mkWorld t (uuid_src w) (uuid_drawn w) (now_src w) (now_drawn w) (api w).

(** An asynchronous computation: it reads and writes the world and either
    resolves or rejects. *)
Definition M (A : Type) : Type := World → Res A * World.

Definition ret {A} (a : A) : M A := λ w, (Ok a, w).

Definition bind {A B} (m : M A) (k : A → M B) : M B :=
  λ w, match m w with
       | (Ok a, w') => k a w'
       | (Throw e, w') => (Throw e, w')
       end.

Definition throw {A} (msg : string) : M A := λ w, (Throw msg, w).

#[global] Instance M_ret : MRet M := @ret.
#[global] Instance M_bind : MBind M := λ A B k m, bind m k.

Definition get_world : M World := λ w, (Ok w, w).

Definition lift_res {A} (r : Res A) : M A := λ w, (r, w).

(** [uuid()] of the [uuid] package: the next value of the oracle. *)
Definition uuid : M string :=
  λ w, (Ok (uuid_src w (uuid_drawn w)),
        mkWorld (queryCollections w) (uuid_src w) (S (uuid_drawn w))
                (now_src w) (now_drawn w) (api w)).

(** Modelled from the spec: [storage.now()] of [StorageService] (not among
    the sources), the timestamp of the storage engine: the next value of the
    oracle. *)
Definition storage_now : M Z :=
  λ w, (Ok (now_src w (now_drawn w)),
        mkWorld (queryCollections w) (uuid_src w) (uuid_drawn w)
                (now_src w) (S (now_drawn w)) (api w)).

(** *** The table [storage.queryCollections] *)

(** Modelled from the spec: [table.get(key)] of the storage engine
    ([StorageService] and the Dexie table it declares are not among the
    sources): the record stored under the key, if any. *)
Definition table_get (key : CollectionID) : M (option IQueryCollection) :=
  λ w, (Ok (queryCollections w !! key), w).

(** Modelled from the spec: [table.delete(key)] of the storage engine: the
    record under the key is removed, if any. *)
Definition table_delete (key : CollectionID) : M unit :=
  λ w, (Ok tt, set_table (delete key (queryCollections w)) w).

(** Modelled from the spec: [table.add(record)] of the storage engine: the
    record is stored under its [id]; adding under a key that is taken, or
    without a key, is rejected. *)
Definition table_add (c : IQueryCollection) : M CollectionID :=
  λ w, match c_id c with
       | Some k =>
           match queryCollections w !! k with
           | None => (Ok k, set_table (<[k := c]> (queryCollections w)) w)
           | Some _ => (Throw "ConstraintError", w)
           end
       | None => (Throw "DataError", w)
       end.

(** Modelled from the spec: [collection.modify(changeCb)] of the storage
    engine over the rows a where-clause selects (the mutator is applied to
    each matching record and the result is persisted): each selected row is
    replaced by what the callback leaves in it; the rows keep their keys. *)
Definition table_modify (selected : CollectionID → IQueryCollection → bool)
    (changeCb : IQueryCollection → IQueryCollection) : M unit :=
  λ w, (Ok tt,
        set_table (map_imap (λ k c, Some (if selected k c then changeCb c else c))
                            (queryCollections w)) w).

(** Modelled from the spec: the where-clause
    [where('id').equals(a).or('id').equals(b)] of the storage engine. *)
Definition where_id (a b : CollectionID) (k : CollectionID) (c : IQueryCollection) : bool :=
  bool_decide (k = a) || bool_decide (k = b).

(** Modelled from the spec: [storage.transaction('rw', table, fn)] of the
    storage engine: a rejection aborts the transaction and the table is as
    before. *)
Definition transaction {A} (fn : M A) : M A :=
  λ w, match fn w with
       | (Ok a, w') => (Ok a, w')
       | (Throw e, w') => (Throw e, set_table (queryCollections w) w')
       end.

(** ** Lookups *)

Definition canApplyRemote : M bool := λ w, (Ok (api_getUser (api w)), w).

Definition getCollectionByID (collectionId : CollectionID) : M (option IQueryCollection) :=
  localCollection ← table_get collectionId;
  let collectionId :=
    match localCollection with
    | None => getAlternateCollectionID collectionId
    | Some _ => collectionId
    end in
  table_get collectionId.

(** Modelled from the spec: the write that ends a [modify] of the storage
    engine: the row is put back under its key. *)
Definition table_put (key : CollectionID) (c : IQueryCollection) : M unit :=
  λ w, (Ok tt, set_table (<[key := c]> (queryCollections w)) w).

(** One row of a [modify]: the callback is run on the row stored under [key],
    if there is one, and what it leaves is written back under the same key.
    The callback may draw from the oracles ([uuid()] inside it). *)
Definition modify_row (key : CollectionID)
    (changeCb : IQueryCollection → M IQueryCollection) : M unit :=
  row ← table_get key;
  match row with
  | Some c =>
      c' ← changeCb c;
      table_put key c'
  | None => mret tt
  end.

(** [updateCollectionByID]:
    [where('id').equals(collectionId).or('id').equals(alternate).modify(changeCb)];
    the row of the first clause is visited first, and a row is visited
    once. *)
Definition updateCollectionByID (collectionId : CollectionID)
    (changeCb : IQueryCollection → M IQueryCollection) : M unit :=
  let alternateCollectionId := getAlternateCollectionID collectionId in
  modify_row collectionId changeCb;;
  if decide (alternateCollectionId = collectionId) then mret tt
  else modify_row alternateCollectionId changeCb.

Definition mustGetLocalCollection (collectionId : CollectionID) : M IQueryCollection :=
  localCollection ← getCollectionByID collectionId;
  match localCollection with
  | None => throw "Could not retrieve local collection data"
  | Some c => mret c
  end.

Definition getLocalQuery (collectionId : CollectionID) (queryId : option string)
    : M (option IQuery) :=
  localCollection ← getCollectionByID collectionId;
  match localCollection with
  | Some c => mret (List.find (λ query, bool_decide (q_id query = queryId)) (c_queries c))
  | None => mret None
  end.

(** ** Deleting a collection *)

Definition deleteLocalCollection (collectionId : CollectionID) : M unit :=
  table_delete collectionId;;
  table_delete (getAlternateCollectionID collectionId).

Definition deleteCollection (collectionId : CollectionID) : M unit :=
  localCollection ← mustGetLocalCollection collectionId;
  deleteLocalCollection collectionId;;
  loggedIn ← canApplyRemote;
  if negb loggedIn then mret tt
  else
    match c_serverId localCollection with
    | None => mret tt
    | Some sid =>
        if String.eqb sid "" then mret tt
        else w ← get_world; lift_res (api_deleteCollection (api w) sid)
    end.

(** ** Paths *)

Definition COLLECTION_PATH_SEPARATOR : string := "/".

(** Modelled from the spec: the where-clause
    [where('parentPath').startsWith(prefix)] of the storage engine on one
    row (prefix match); a row without a [parentPath] is not in the index. *)
Definition startsWith (prefix : string) (field : option string) : bool :=
  match field with
  | Some s => String.prefix prefix s
  | None => false
  end.

(** [getSubcollectionParentPath]: the [parentPath] of the children of a
    collection. *)
Definition getSubcollectionParentPath (parentCollectionId : CollectionID) : M string :=
  parentCollection ← getCollectionByID parentCollectionId;
  let parentCollectionParentPath := default "" (parentCollection ≫= c_parentPath) in
  mret (parentCollectionParentPath +:+ COLLECTION_PATH_SEPARATOR +:+ str_id parentCollectionId).

(** ** Queries of a collection *)

Definition set_q_id (i : option string) (q : IQuery) :=
  mkQuery i (q_serverId q) (q_windowName q) (q_content q) (q_created_at q) (q_updated_at q).

Definition set_q_serverId (s : option string) (q : IQuery) :=
  mkQuery (q_id q) s (q_windowName q) (q_content q) (q_created_at q) (q_updated_at q).

Definition set_q_created_at (t : option Z) (q : IQuery) :=
  mkQuery (q_id q) (q_serverId q) (q_windowName q) (q_content q) t (q_updated_at q).

Definition set_q_updated_at (t : option Z) (q : IQuery) :=
  mkQuery (q_id q) (q_serverId q) (q_windowName q) (q_content q) (q_created_at q) t.

(** [a ?? b] on a property: the one of [over] when it has it. *)
Definition or_else {A} (over base : option A) : option A :=
  match over with
  | Some x => Some x
  | None => base
  end.

(** The object spread [{ ...base, ...over }]. *)
Definition spread_query (base over : IQuery) : IQuery :=
  mkQuery (or_else (q_id over) (q_id base))
          (or_else (q_serverId over) (q_serverId base))
          (or_else (q_windowName over) (q_windowName base))
          (or_else (q_content over) (q_content base))
          (or_else (q_created_at over) (q_created_at base))
          (or_else (q_updated_at over) (q_updated_at base)).

(** The object [{}]: what spreading [undefined] gives. *)
Definition empty_query : IQuery := mkQuery None None None None None None.

Definition addLocalQuery (collectionId : CollectionID) (query : IQuery) : M unit :=
  now ← storage_now;
  updateCollectionByID collectionId (λ collection,
    i ← uuid;
    let uQuery :=
      set_q_updated_at (Some now) (set_q_created_at (Some now) (set_q_id (Some i) query)) in
    mret (set_queries (c_queries collection ++ [uQuery]) collection)).

Definition updateLocalQuery (collectionId : CollectionID) (queryId : string)
    (query : IQuery) : M unit :=
  now ← storage_now;
  updateCollectionByID collectionId (λ collection,
    let uQuery := set_q_updated_at (Some now) (set_q_id (Some queryId) query) in
    mret (set_queries
            (map (λ collectionQuery,
                    if decide (q_id collectionQuery = Some queryId)
                    then spread_query collectionQuery uQuery
                    else collectionQuery)
                 (c_queries collection))
            collection)).

Definition deleteLocalQuery (collectionId : CollectionID) (query : IQuery) : M unit :=
  updateCollectionByID collectionId (λ collection,
    mret (set_queries
            (List.filter (λ collectionQuery,
                 if truthy_str (q_id query)
                 then (if decide (q_id query = q_id collectionQuery) then false else true)
                 else (if decide (q_windowName query = q_windowName collectionQuery)
                       then false else true))
               (c_queries collection))
            collection)).

(** The loop [for (const [idx, queryServerId] of queryServerIds.entries())]
    of [addRemoteQuery], from index [idx] on. *)
Fixpoint addRemoteQuery_loop (collectionId : CollectionID) (queries : list IQuery)
    (idx : nat) (queryServerIds : list string) : M unit :=
  match queryServerIds with
  | [] => mret tt
  | queryServerId :: rest =>
      updateLocalQuery collectionId queryServerId
        (set_q_serverId (Some queryServerId) (default empty_query (queries !! idx)));;
      addRemoteQuery_loop collectionId queries (S idx) rest
  end.

Definition addRemoteQuery (collectionId : CollectionID) (queries : list IQuery) : M unit :=
  localCollection ← mustGetLocalCollection collectionId;
  if negb (truthy_str (c_serverId localCollection)) then mret tt
  else
    w ← get_world;
    queryServerIds ← lift_res
      (api_createQueries (api w) (default "" (c_serverId localCollection)) queries);
    match queryServerIds with
    | [] => throw "Could not add query in collection to remote"
    | _ => addRemoteQuery_loop collectionId queries 0 queryServerIds
    end.

Definition addQuery (collectionId : CollectionID) (query : IQuery) : M unit :=
  addLocalQuery collectionId query;;
  localCollection ← mustGetLocalCollection collectionId;
  loggedIn ← canApplyRemote;
  if negb loggedIn then mret tt
  else if truthy_str (c_serverId localCollection)
       then addRemoteQuery collectionId [query]
       else mret tt.

Definition updateQuery (collectionId : CollectionID) (queryId : string)
    (query : IQuery) : M unit :=
  res ← updateLocalQuery collectionId queryId query;
  loggedIn ← canApplyRemote;
  if negb loggedIn then mret tt
  else
    localCollection ← mustGetLocalCollection collectionId;
    if negb (truthy_str (c_serverId localCollection)) then mret tt
    else
      localQuery ← getLocalQuery collectionId (Some queryId);
      match localQuery ≫= q_serverId with
      | Some sid =>
          if String.eqb sid "" then addRemoteQuery collectionId [query]
          else
            w ← get_world;
            lift_res (api_updateQuery (api w) sid query);;
            mret res
      | None => addRemoteQuery collectionId [query]
      end.

Definition deleteQuery (collectionId : CollectionID) (query : IQuery) : M unit :=
  localCollection ← mustGetLocalCollection collectionId;
  localQuery ← getLocalQuery collectionId (q_id query);
  deleteLocalQuery collectionId query;;
  loggedIn ← canApplyRemote;
  if negb loggedIn then mret tt
  else if negb (truthy_str (c_serverId localCollection)) then mret tt
  else if negb (truthy_str (q_id query)) then mret tt
  else
    match localQuery ≫= q_serverId with
    | Some sid =>
        if String.eqb sid "" then mret tt
        else w ← get_world; lift_res (api_deleteQuery (api w) sid)
    | None => mret tt
    end.

(** ** Moving a collection *)

Fixpoint skip (n : nat) (s : string) : string :=
  match n, s with
  | S n', String _ s' => skip n' s'
  | _, _ => s
  end.

(** The first occurrence of [pattern] in [s]: what is before it and what is
    after it. *)
Fixpoint find_first (pattern s : string) : option (string * string) :=
  if String.prefix pattern s then Some ("", skip (String.length pattern) s)
  else match s with
       | String a s' =>
           match find_first pattern s' with
           | Some (before, after) => Some (String a before, after)
           | None => None
           end
       | EmptyString => None
       end.

(** [GetSubstitution] for a string pattern (no capture groups): in the
    replacement, [$$] is a dollar, [$&] the match, [$`] what precedes it and
    [$'] what follows it. *)
Fixpoint getSubstitution (matched before after template : string) : string :=
  match template with
  | String "$" (String "$" t) => String "$" (getSubstitution matched before after t)
  | String "$" (String "&" t) => matched +:+ getSubstitution matched before after t
  | String "$" (String "`" t) => before +:+ getSubstitution matched before after t
  | String "$" (String "'" t) => after +:+ getSubstitution matched before after t
  | String a t => String a (getSubstitution matched before after t)
  | EmptyString => EmptyString
  end.

(** [s.replace(pattern, replacement)] with a string pattern: the first
    occurrence only. *)
Definition replace (pattern replacement s : string) : string :=
  match find_first pattern s with
  | Some (before, after) =>
      before +:+ getSubstitution pattern before after replacement +:+ after
  | None => s
  end.

Definition moveLocalCollection (collectionId newParentCollectionId : CollectionID) : M unit :=
  transaction (
    collection ← getCollectionByID collectionId;
    match collection with
    | None => throw "Could not retrieve collection"
    | Some collection =>
        newParentCollection ← getCollectionByID newParentCollectionId;
        match newParentCollection with
        | None => throw "Could not retrieve parent collection"
        | Some newParentCollection =>
            let newParentCollectionParentPath :=
              default "" (c_parentPath newParentCollection) in
            let newParentSubcollectionParentPath :=
              newParentCollectionParentPath +:+ COLLECTION_PATH_SEPARATOR
                +:+ str_id newParentCollectionId in
            let collectionParentPath := default "" (c_parentPath collection) in
            let parentPath :=
              collectionParentPath +:+ COLLECTION_PATH_SEPARATOR +:+ str_id collectionId in
            table_modify
              (λ k c, where_id collectionId (getAlternateCollectionID collectionId) k c
                      || startsWith parentPath (c_parentPath c))
              (λ c, set_parentPath
                      (replace collectionParentPath newParentSubcollectionParentPath
                         <$> c_parentPath c) c)
        end
    end).

Definition moveCollection (collectionId newParentCollectionId : CollectionID) : M unit :=
  moveLocalCollection collectionId newParentCollectionId.

(** ** Creating a collection *)

(** [array.map] with a callback that draws from the oracles is [mapM]: the
    callback runs on the elements in array order. *)

Definition createLocalCollection (collection : IQueryCollection)
    (parentCollectionId : option CollectionID) : M CollectionID :=
  now ← storage_now;
  parentPath ←
    (match parentCollectionId with
     | Some pid =>
         if truthy_id parentCollectionId then getSubcollectionParentPath pid else mret ""
     | None => mret ""
     end);
  queries ← mapM (λ query,
      i ← uuid;
      mret (set_q_updated_at (Some now) (set_q_created_at (Some now)
              (set_q_id (Some i) query))))
    (c_queries collection);
  i ← uuid;
  table_add (set_updated_at (Some now) (set_created_at (Some now)
    (set_parentPath (Some parentPath) (set_id (Some (IdStr i))
      (set_queries queries collection))))).

Definition create (collection : IQueryCollection)
    (parentCollectionId : option CollectionID) : M CollectionID :=
  createLocalCollection collection parentCollectionId.

(** ** Replacing a collection *)

(** Modelled from the spec: the write that ends one row of a [modify] whose
    callback replaces the value ([ctx.value = ...]).  The [id] of a record is
    the key it is stored under ([table_add]).  A value that has the key of
    the row (its [id] is that key, or the [id] the row had: one and the same
    in a table whose rows are stored under their [id]) is written in place.
    A value with another [id] leaves the old key: it is added under its own
    [id] and the row under the old key is deleted; when the add is rejected
    (the [id] is taken, or missing) the row stays where it is and the
    [modify] is rejected. *)
Definition table_replace (key : CollectionID) (row value : IQueryCollection) : M unit :=
  if decide (c_id value = Some key ∨ c_id value = c_id row) then table_put key value
  else table_add value;; table_delete key.

(** One row of [updateLocalCollection]'s [modify]: the callback does
    [ctx.value = modifiedCollection; ctx.value.updated_at = storage.now()],
    which stamps the object passed in and stores it in the place of [row],
    the row the [modify] found under [key].  The result is that object as
    the callback leaves it. *)
Definition replace_row (key : CollectionID) (row : option IQueryCollection)
    (modifiedCollection : IQueryCollection) : M IQueryCollection :=
  match row with
  | Some row =>
      now ← storage_now;
      let stamped := set_updated_at (Some now) modifiedCollection in
      table_replace key row stamped;;
      mret stamped
  | None => mret modifiedCollection
  end.

(** [updateLocalCollection]: the rows under the id and under its alternate,
    as the table holds them when the [modify] starts, are replaced by
    [modifiedCollection], the row of the first clause first; the result is
    the object [modifiedCollection] as the call leaves it. *)
Definition updateLocalCollection (collectionId : CollectionID)
    (modifiedCollection : IQueryCollection) : M IQueryCollection :=
  let alternateCollectionId := getAlternateCollectionID collectionId in
  row ← table_get collectionId;
  alternateRow ← (if decide (alternateCollectionId = collectionId) then mret None
                  else table_get alternateCollectionId);
  stamped ← replace_row collectionId row modifiedCollection;
  replace_row alternateCollectionId alternateRow stamped.

(** ** Pulling the remote collections *)

(** Modelled from the spec: the order of primary keys in the table of the
    storage engine: numbers before strings, numbers by value, strings by code
    units. *)
Definition key_le (a b : CollectionID * IQueryCollection) : Prop :=
  match a.1, b.1 with
  | IdNum x, IdNum y => x ≤ y
  | IdNum _, IdStr _ => True
  | IdStr _, IdNum _ => False
  | IdStr x, IdStr y => String.le x y
  end.

#[global] Instance key_le_dec : RelDecision key_le.
Proof.
  intros [[x|x] ?] [[y|y] ?]; unfold key_le; simpl; apply _.
Defined.

(** Modelled from the spec: [table.toArray()] of the storage engine: the
    rows in the order of their keys. *)
Definition toArray : M (list IQueryCollection) :=
  λ w, (Ok ((merge_sort key_le (map_to_list (queryCollections w))).*2), w).

Definition getAll : M (list IQueryCollection) := toArray.

Definition timestampDiffOffset : Z := 2 * 60 * 1000.

(** [new Date(x).getTime()]: [NaN] ([None]) for a missing or invalid date
    and outside the range of time values. *)
Definition getTime (x : option Z) : option Z :=
  match x with
  | Some t => if (Z.abs t <=? 8640000000000000) then Some t else None
  | None => None
  end.

(** [serverDate.getTime() > localDate.getTime() + timestampDiffOffset]; a
    comparison with [NaN] is false. *)
Definition server_is_newer (serverUpdatedAt localUpdatedAt : option Z) : bool :=
  match getTime serverUpdatedAt, getTime localUpdatedAt with
  | Some s, Some l => bool_decide (l + timestampDiffOffset < s)
  | _, _ => false
  end.

(** The body of [serverCollection.queries.forEach]: the queries of the
    matched collection are mapped against one server query, and the title is
    set. *)
Definition apply_server_query (serverCollection : ServerCollection)
    (matchedCollection : IQueryCollection) (serverQuery : ServerQuery) : IQueryCollection :=
  set_title (rc_collectionName serverCollection)
    (set_queries
       (map (λ query,
               if decide (q_serverId query = Some (rq_id serverQuery))
               then if server_is_newer (rq_updatedAt serverQuery) (q_updated_at query)
                    then set_q_serverId (Some (rq_id serverQuery)) (rq_content serverQuery)
                    else query
               else query)
            (c_queries matchedCollection))
       matchedCollection).

(** [serverCollection.queries.forEach(...)] on the matched collection. *)
Definition apply_server_queries (serverCollection : ServerCollection)
    (matchedCollection : IQueryCollection) : IQueryCollection :=
  fold_left (apply_server_query serverCollection) (rc_queries serverCollection)
    matchedCollection.

(** [localCollections.find(...)], with the position of the object found:
    the array holds objects that the loop changes in place. *)
Fixpoint find_matched (serverCollectionId : string) (localCollections : list IQueryCollection)
    : option (nat * IQueryCollection) :=
  match localCollections with
  | [] => None
  | collection :: rest =>
      if decide (c_serverId collection = Some serverCollectionId) then Some (0%nat, collection)
      else match find_matched serverCollectionId rest with
           | Some (i, c) => Some (S i, c)
           | None => None
           end
  end.

(** One turn of [for (const serverCollection of serverCollections)]; the
    result is the array [localCollections] with its objects as the turn
    leaves them. *)
Definition sync_server_collection (localCollections : list IQueryCollection)
    (serverCollection : ServerCollection) : M (list IQueryCollection) :=
  match find_matched (rc_id serverCollection) localCollections with
  | Some (i, matchedCollection) =>
      if server_is_newer (rc_updatedAt serverCollection) (c_updated_at matchedCollection)
      then
        let matchedCollection := apply_server_queries serverCollection matchedCollection in
        match c_id matchedCollection with
        | Some matchedId =>
            if truthy_id (Some matchedId)
            then
              stamped ← updateLocalCollection matchedId matchedCollection;
              mret (<[i := stamped]> localCollections)
            else mret (<[i := matchedCollection]> localCollections)
        | None => mret (<[i := matchedCollection]> localCollections)
        end
      else mret localCollections
  | None =>
      let queries :=
        map (λ serverQuery, set_q_serverId (Some (rq_id serverQuery)) (rq_content serverQuery))
            (rc_queries serverCollection) in
      let localCollection :=
        mkCollection None (rc_collectionName serverCollection) queries None
                     (Some (rc_id serverCollection)) None None in
      createLocalCollection localCollection None;;
      mret localCollections
  end.

Fixpoint sync_loop (localCollections : list IQueryCollection)
    (serverCollections : list ServerCollection) : M unit :=
  match serverCollections with
  | [] => mret tt
  | serverCollection :: rest =>
      localCollections ← sync_server_collection localCollections serverCollection;
      sync_loop localCollections rest
  end.

Definition syncRemoteToLocal : M unit :=
  loggedIn ← canApplyRemote;
  if negb loggedIn then mret tt
  else
    w ← get_world;
    serverCollections ← lift_res (api_getCollections (api w));
    match serverCollections with
    | [] => mret tt
    | _ =>
        localCollections ← getAll;
        sync_loop localCollections serverCollections
    end.

(** ** Trees *)

(** [s.split(separator)] for a separator of one character. *)
Fixpoint split (separator : ascii) (s : string) : list string :=
  match s with
  | EmptyString => [EmptyString]
  | String a s' =>
      if Ascii.eqb a separator then EmptyString :: split separator s'
      else match split separator s' with
           | segment :: rest => String a segment :: rest
           | [] => [String a EmptyString]
           end
  end.

(** [getParentCollectionId]: the last segment of [parentPath], [undefined]
    when there is no path or the segment is empty. *)
Definition getParentCollectionId (collection : IQueryCollection) : option string :=
  match c_parentPath collection with
  | Some parentPath =>
      match last (split "/" parentPath) with
      | Some i => if String.eqb i "" then None else Some i
      | None => None
      end
  | None => None
  end.

(** [IQueryCollectionTree]: a collection and its [collections]; a missing
    [collections] is the empty list. *)
#[local] Unset Elimination Schemes.
Inductive IQueryCollectionTree :=
| Tree (rootCollection : IQueryCollection) (collections : list IQueryCollectionTree).
#[local] Set Elimination Schemes.

(** The tree nodes [getCollectionTrees] builds are objects held in
    [collectionMap] and pushed, by reference, into [roots] and into the
    [collections] of their parent: a node is named by its key in the map and
    [node_collections] lists the keys of the nodes pushed into it. *)
Record TreeNode := mkNode {
  node_fields : IQueryCollection;
  node_collections : list string;
}.

Record Forest := mkForest {
  roots : list string;
  collectionMap : gmap string TreeNode;
}.

(** The first [collections.forEach]: one node per collection. *)
Fixpoint set_nodes (collections : list IQueryCollection)
    (collectionMap : gmap string TreeNode) : Res (gmap string TreeNode) :=
  match collections with
  | [] => Ok collectionMap
  | collection :: rest =>
      let collectionId := c_id collection in
      if negb (truthy_id collectionId)
      then Throw "All collections must have an ID to get a tree!"
      else set_nodes rest
             (<[template collectionId :=
                  mkNode (set_id (Some (IdStr (template collectionId))) collection) []]>
                collectionMap)
  end.

Definition push_collection (key : string) (node : TreeNode) : TreeNode :=
  mkNode (node_fields node) (node_collections node ++ [key]).

(** One turn of the second [collections.forEach]. *)
Definition place_node (forest : Forest) (collection : IQueryCollection) : Forest :=
  let key := template (c_id collection) in
  match collectionMap forest !! key with
  | None => forest
  | Some _ =>
      if negb (truthy_str (c_parentPath collection))
      then mkForest (roots forest ++ [key]) (collectionMap forest)
      else match getParentCollectionId collection with
           | None => mkForest (roots forest ++ [key]) (collectionMap forest)
           | Some parentCollectionId =>
               mkForest (roots forest)
                 (alter (push_collection key) parentCollectionId (collectionMap forest))
           end
  end.

Definition getCollectionTrees (collections : list IQueryCollection) : Res Forest :=
  match set_nodes collections ∅ with
  | Ok collectionMap => Ok (fold_left place_node collections (mkForest [] collectionMap))
  | Throw e => Throw e
  end.

(** The tree a node stands for, read off the map; [None] when the nodes
    reachable from it do not form a tree within [fuel] levels. *)
Fixpoint tree_at (fuel : nat) (collectionMap : gmap string TreeNode) (key : string)
    : option IQueryCollectionTree :=
  match fuel with
  | O => None
  | S fuel' =>
      node ← collectionMap !! key;
      collections ← mapM (tree_at fuel' collectionMap) (node_collections node);
      Some (Tree (node_fields node) collections)
  end.

(** The trees of a forest; a forest of [n] nodes that has no cycle is no
    deeper than [n]. *)
Definition forest_trees (forest : Forest) : option (list IQueryCollectionTree) :=
  mapM (tree_at (S (size (collectionMap forest))) (collectionMap forest)) (roots forest).

Fixpoint getCollectionListFromTree (tree : IQueryCollectionTree) (parentPath : string)
    : list IQueryCollection :=
  match tree with
  | Tree rootCollection collections =>
      let subcollections :=
        map (λ ct, getCollectionListFromTree ct
                     (parentPath +:+ COLLECTION_PATH_SEPARATOR
                        +:+ template (c_id rootCollection)))
            collections in
      set_parentPath (Some parentPath) rootCollection :: concat subcollections
  end.

Fixpoint remapCollectionIDsToCollectionList (tree : IQueryCollectionTree)
    (parentPath : string) : M (list IQueryCollection) :=
  match tree with
  | Tree rootCollection collections =>
      i ← uuid;
      let rootCollection := set_id (Some (IdStr i)) rootCollection in
      subcollections ←
        mapM (λ ct, remapCollectionIDsToCollectionList ct
                      (parentPath +:+ COLLECTION_PATH_SEPARATOR
                         +:+ template (c_id rootCollection)))
             collections;
      mret (set_parentPath (Some parentPath) rootCollection :: concat subcollections)
  end.

(** ** Parents *)

(** [getParentCollection]: the collection the last path segment names, looked
    up like any id; [undefined] when there is no segment. *)
Definition getParentCollection (collection : IQueryCollection)
    : M (option IQueryCollection) :=
  match getParentCollectionId collection with
  | Some parentCollectionId => getCollectionByID (IdStr parentCollectionId)
  | None => mret None
  end.

(** [getAllParentCollections]: the loop [for (;;)] that climbs from parent to
    parent, run for at most [fuel] turns; [None] when it is still climbing
    after that many turns.  [collections] is the array filled so far. *)
Fixpoint getAllParentCollections_loop (fuel : nat) (collections : list IQueryCollection)
    (curCollection : IQueryCollection) : M (option (list IQueryCollection)) :=
  match fuel with
  | O => mret None
  | S fuel' =>
      parentCollection ← getParentCollection curCollection;
      match parentCollection with
      | None => mret (Some collections)
      | Some parentCollection =>
          getAllParentCollections_loop fuel' (collections ++ [parentCollection])
            parentCollection
      end
  end.

Definition getAllParentCollections (fuel : nat) (collection : IQueryCollection)
    : M (option (list IQueryCollection)) :=
  getAllParentCollections_loop fuel [] collection.

(** ** Subcollections *)

(** Modelled from the spec: the order in which the storage engine returns the
    rows of a where-clause on [parentPath]: the order of that index, ties in
    the order of the keys. *)
Definition index_le (a b : CollectionID * IQueryCollection) : Prop :=
  let pa := default "" (c_parentPath a.2) in
  let pb := default "" (c_parentPath b.2) in
  if decide (pa = pb) then key_le a b else String.le pa pb.

#[global] Instance index_le_dec : RelDecision index_le.
Proof. intros a b. unfold index_le. case_decide; apply _. Defined.




(** ** Updating a collection *)

(** [updateRemoteCollection].  [remote_updateCollection] is the answer of
    [api.updateCollection] for a server id, the local collection and its
    parent (from which the call takes the parent's server id). *)
Definition updateRemoteCollection
    (remote_updateCollection : string → IQueryCollection → option IQueryCollection → Res unit)
    (collectionId : CollectionID) : M unit :=
  loggedIn ← canApplyRemote;
  if negb loggedIn then mret tt
  else
    localCollection ← mustGetLocalCollection collectionId;
    parentCollection ← getParentCollection localCollection;
    lift_res (remote_updateCollection (default "undefined" (c_serverId localCollection))
                localCollection parentCollection).

Definition updateCollection
    (remote_updateCollection : string → IQueryCollection → option IQueryCollection → Res unit)
    (collectionId : CollectionID) (modifiedCollection : IQueryCollection) : M unit :=
  updateLocalCollection collectionId modifiedCollection;;
  localCollection ← mustGetLocalCollection collectionId;
  if negb (truthy_str (c_serverId localCollection)) then mret tt
  else updateRemoteCollection remote_updateCollection collectionId.

(** [query.serverId = res.queryIds[idx]] over the queries. *)
Fixpoint stamp_server_ids (idx : nat) (queryIds : list string) (queries : list IQuery)
    : list IQuery :=
  match queries with
  | [] => []
  | query :: rest =>
      set_q_serverId (queryIds !! idx) query :: stamp_server_ids (S idx) queryIds rest
  end.

(** [createRemoteCollection].  [remote_createQueryCollection] is the answer
    of [api.createQueryCollection] for the collection and the server id of
    its parent: nothing, or the server ids of the collection and of its
    queries. *)
Definition createRemoteCollection
    (remote_createQueryCollection :
       IQueryCollection → option string → Res (option (string * list string)))
    (localCollectionId : CollectionID) (collection : IQueryCollection) : M unit :=
  loggedIn ← canApplyRemote;
  if negb loggedIn then mret tt
  else
    parentCollection ← getParentCollection collection;
    let parentCollectionServerId :=
      match parentCollection ≫= c_serverId with
      | Some sid => if String.eqb sid "" then None else Some sid
      | None => None
      end in
    res ← lift_res (remote_createQueryCollection collection parentCollectionServerId);
    match res with
    | None => throw "could not create the collection"
    | Some (collectionServerId, queryIds) =>
        localCollection ← mustGetLocalCollection localCollectionId;
        let localCollection := set_serverId (Some collectionServerId) localCollection in
        let localCollection :=
          set_queries (stamp_server_ids 0 queryIds (c_queries localCollection))
            localCollection in
        updateLocalCollection localCollectionId localCollection;;
        mret tt
    end.

(** ** Importing *)

(** Modelled from the spec: [ExportCollectionState] (declared in
    [altair-graphql-core], not among the sources), the versioned wrapper
    [{ version, type: 'collection', ...CollectionTree }]; [version] and
    [type] may be missing from a document. *)
Record ExportCollectionState := mkExport {
  ex_version : option Z;
  ex_type : option string;
  ex_tree : IQueryCollectionTree;
}.

(** The loop [for (let i = 0; i < collections.length; i++)] of
    [importCollectionData]. *)
Fixpoint import_loop (collections : list IQueryCollection) : M unit :=
  match collections with
  | [] => mret tt
  | collection :: rest => create collection None;; import_loop rest
  end.

(** [importCollectionData]; [None] is a missing document.  The [catch]
    logs and throws the error again. *)
Definition importCollectionData (data : option ExportCollectionState) : M unit :=
  match data with
  | None => throw "Object is empty."
  | Some data =>
      let no_version :=
        match ex_version data with Some v => v =? 0 | None => true end in
      if no_version || negb (truthy_str (ex_type data))
         || negb (bool_decide (ex_type data = Some "collection"))
      then throw "File is not a valid Altair collection file."
      else
        collections ← remapCollectionIDsToCollectionList (ex_tree data) "";
        import_loop collections
  end.

(** * Specification vocabulary *)

(** A collection with its queries left out: everything a query-level
    operation has to leave alone. *)
Definition without_queries (c : IQueryCollection) : IQueryCollection :=
  set_queries [] c.

(** The table seen through [without_queries]. *)
Definition collection_fields (w : World) : gmap CollectionID IQueryCollection :=
  without_queries <$> queryCollections w.

(** A computation that changes no collection-level field of any row, adds no
    row and removes none, whether it resolves or rejects. *)
Definition keeps_collection_fields {A} (m : M A) : Prop :=
  ∀ w, collection_fields (m w).2 = collection_fields w.

(** [d] is a descendant of the collection whose children have the
    [parentPath] [childrenPath]: it is a child ([parentPath] is
    [childrenPath]) or lies deeper ([parentPath] continues [childrenPath]
    with a further segment). *)
Definition descendant_of (childrenPath : string) (d : IQueryCollection) : bool :=
  match c_parentPath d with
  | Some p => String.eqb p childrenPath
              || String.prefix (childrenPath +:+ COLLECTION_PATH_SEPARATOR) p
  | None => false
  end.

(** The collections a forest returns: those of its trees, flattened from the
    roots with the empty path ([None] when the forest has a cycle). *)
Definition forest_collections (forest : Forest) : option (list IQueryCollection) :=
  trees ← forest_trees forest;
  Some (concat (map (λ tree, getCollectionListFromTree tree "") trees)).

(** ** Vocabulary for imports *)

Fixpoint tree_size (tree : IQueryCollectionTree) : nat :=
  match tree with
  | Tree _ collections => S (list_sum (map tree_size collections))
  end.

Definition forest_size (trees : list IQueryCollectionTree) : nat :=
  list_sum (map tree_size trees).

(** The tree with its nodes given the ids [ids n], [ids (n+1)], ... in
    pre-order, nothing else changed. *)
Fixpoint relabel (ids : nat → string) (tree : IQueryCollectionTree) (n : nat)
    : IQueryCollectionTree :=
  match tree with
  | Tree rootCollection collections =>
      Tree (set_id (Some (IdStr (ids n))) rootCollection)
           ((fix go (cs : list IQueryCollectionTree) (n : nat) :=
               match cs with
               | [] => []
               | c :: cs' => relabel ids c n :: go cs' (n + tree_size c)%nat
               end) collections (S n))
  end.

Fixpoint relabel_all (ids : nat → string) (trees : list IQueryCollectionTree) (n : nat)
    : list IQueryCollectionTree :=
  match trees with
  | [] => []
  | c :: cs' => relabel ids c n :: relabel_all ids cs' (n + tree_size c)%nat
  end.

(** The world after [k] more calls of [uuid()]. *)
Definition after_uuids (k : nat) (w : World) : World :=
  mkWorld (queryCollections w) (uuid_src w) (uuid_drawn w + k) (now_src w)
          (now_drawn w) (api w).

(** For each node of a tree, in pre-order, the position of its parent in the
    flattened list ([here] is the position of the root, [parent] that of its
    parent). *)
Fixpoint parent_positions (here : nat) (parent : option nat) (tree : IQueryCollectionTree)
    : list (option nat) :=
  match tree with
  | Tree _ collections =>
      parent ::
      (fix go (cs : list IQueryCollectionTree) (pos : nat) :=
         match cs with
         | [] => []
         | c :: cs' => (parent_positions pos (Some here) c ++ go cs' (pos + tree_size c)%nat)%list
         end) collections (S here)
  end.

Fixpoint parent_positions_all (here : nat) (trees : list IQueryCollectionTree) (pos : nat)
    : list (option nat) :=
  match trees with
  | [] => []
  | c :: cs' =>
      (parent_positions pos (Some here) c
         ++ parent_positions_all here cs' (pos + tree_size c)%nat)%list
  end.

(** [childPath(parentPath, parentId)] for a parent as it stands in a list. *)
Definition children_path (parent : IQueryCollection) : string :=
  default "" (c_parentPath parent) +:+ COLLECTION_PATH_SEPARATOR +:+ template (c_id parent).

(** A flat list is linked along [positions]: the element at a position
    without parent has the path [top]; any other has the path of the
    children of the element at its parent's position, built from that
    element's own id in the list. *)
Definition linked (top : string) (positions : list (option nat))
    (l : list IQueryCollection) : Prop :=
  length l = length positions ∧
  ∀ i c q, l !! i = Some c → positions !! i = Some q →
    match q with
    | Some j => ∃ parent, l !! j = Some parent ∧ (j < i)%nat ∧
                          c_parentPath c = Some (children_path parent)
    | None => c_parentPath c = Some top
    end.

(** A collection without what an import assigns: its [id] and its
    [parentPath]. *)
Definition without_identity (c : IQueryCollection) : IQueryCollection :=
  set_parentPath None (set_id None c).

(** The document with the ids of all its nodes removed. *)
Fixpoint forget_ids (tree : IQueryCollectionTree) : IQueryCollectionTree :=
  match tree with
  | Tree rootCollection collections =>
      Tree (set_id None rootCollection) (map forget_ids collections)
  end.

(** The collections of a document in pre-order, as they stand in it. *)
Fixpoint preorder (tree : IQueryCollectionTree) : list IQueryCollection :=
  match tree with
  | Tree rootCollection collections => rootCollection :: concat (map preorder collections)
  end.

(** ** Vocabulary for the round trip through trees *)

(** The key of a collection's node: [`${collection.id}`]. *)
Definition key_of (c : IQueryCollection) : string := template (c_id c).

(** A string that can be a path segment: not empty and without ["/"]. *)
Fixpoint has_separator (s : string) : bool :=
  match s with
  | EmptyString => false
  | String a s' => Ascii.eqb a "/" || has_separator s'
  end.

Definition is_segment (s : string) : Prop :=
  s ≠ "" ∧ has_separator s = false.

(** The second pass makes a root of a collection without [parentPath] or
    whose path has an empty last segment... *)
Definition is_root (c : IQueryCollection) : bool :=
  negb (truthy_str (c_parentPath c)) || bool_decide (getParentCollectionId c = None).

(** ...and pushes any other into the node named by its last segment. *)
Definition is_child_of (key : string) (c : IQueryCollection) : bool :=
  truthy_str (c_parentPath c) && bool_decide (getParentCollectionId c = Some key).

(** The paths of a list fit together: a collection is at the top (no path,
    or the empty one) or its path is that of the children of a collection
    of the list. *)
Definition paths_consistent (l : list IQueryCollection) : Prop :=
  ∀ c, c ∈ l →
    truthy_str (c_parentPath c) = false ∨
    ∃ p, p ∈ l ∧ c_parentPath c = Some (children_path p).

(** A node after the second pass over [l]: the keys of the collections of
    [l] pushed into the node named [k] follow those it held. *)
Definition with_children (l : list IQueryCollection) (k : string) (n : TreeNode) : TreeNode :=
  mkNode (node_fields n)
         (node_collections n ++ map key_of (List.filter (is_child_of k) l)).

(** What the round trip makes of a collection: its id in string form and a
    [parentPath] that is a string. *)
Definition exported (c : IQueryCollection) : IQueryCollection :=
  set_parentPath (Some (default "" (c_parentPath c)))
    (set_id (Some (IdStr (key_of c))) c).

(** [getCollectionListFromTree] over the trees [getCollectionTrees] returns:
    [Ok None] stands for a forest with a cycle, which has no finite
    flattening. *)
Definition round_trip (l : list IQueryCollection) : Res (option (list IQueryCollection)) :=
  match getCollectionTrees l with
  | Ok forest => Ok (forest_collections forest)
  | Throw e => Throw e
  end.

(** [p] is the parent of [d] among the collections of [l]: the second pass
    pushes the node of [d] into the node of [p]. *)
Definition child_in (l : list IQueryCollection) (p d : IQueryCollection) : Prop :=
  p ∈ l ∧ d ∈ l ∧ is_child_of (key_of p) d = true.

(** The length of the path of a collection, and the number of collections
    of [l] with a shorter path: a child ranks above its parent. *)
Definition path_length (c : IQueryCollection) : nat :=
  String.length (default "" (c_parentPath c)).

Definition rank (l : list IQueryCollection) (c : IQueryCollection) : nat :=
  length (filter (λ d, path_length d < path_length c)%nat l).

(** A replacement string without [$] is substituted as it is. *)
Fixpoint has_dollar (s : string) : bool :=
  match s with
  | EmptyString => false
  | String a s' => Ascii.eqb a "$" || has_dollar s'
  end.

(** The rows [moveLocalCollection] selects for [collectionId] when the
    children of the moved collection have the path [parentPath]. *)
Definition move_selects (collectionId : CollectionID) (parentPath : string)
    (k : CollectionID) (c : IQueryCollection) : bool :=
  where_id collectionId (getAlternateCollectionID collectionId) k c
  || startsWith parentPath (c_parentPath c).

(** ** Vocabulary for the further properties *)

(** Every character of a string passes a test. *)
Fixpoint string_forall (P : ascii → bool) (s : string) : bool :=
  match s with
  | EmptyString => true
  | String a s' => P a && string_forall P s'
  end.

Definition is_digit (a : ascii) : bool :=
  match digit_of a with Some _ => true | None => false end.

(** The queries of a new collection: the [i]-th gets the [i]-th id drawn
    from [start] on, and the time of creation. *)
Fixpoint created_queries (ids : nat → string) (start : nat) (now : Z)
    (queries : list IQuery) : list IQuery :=
  match queries with
  | [] => []
  | query :: rest =>
      set_q_updated_at (Some now) (set_q_created_at (Some now)
        (set_q_id (Some (ids start)) query))
      :: created_queries ids (S start) now rest
  end.

(** The row [createLocalCollection] adds for [collection] under the path
    [parentPath]: the queries take the first ids drawn, the collection the
    next one. *)
Definition created_row (w : World) (collection : IQueryCollection) (parentPath : string)
    : IQueryCollection :=
  let now := now_src w (now_drawn w) in
  mkCollection
    (Some (IdStr (uuid_src w (uuid_drawn w + length (c_queries collection)))))
    (c_title collection)
    (created_queries (uuid_src w) (uuid_drawn w) now (c_queries collection))
    (Some parentPath)
    (c_serverId collection)
    (Some now) (Some now).

(** The record [getCollectionByID] resolves to: the one under the id, else
    the one under its alternate. *)
Definition found (w : World) (i : CollectionID) : option IQueryCollection :=
  match queryCollections w !! i with
  | Some c => Some c
  | None => queryCollections w !! getAlternateCollectionID i
  end.

(** The path [createLocalCollection] gives to a collection created under
    [parentCollectionId]: the empty path without a parent id (or with a falsy
    one), else the path of the children of that id, from the [parentPath] of
    the parent if it is found. *)
Definition created_path (w : World) (parentCollectionId : option CollectionID) : string :=
  match parentCollectionId with
  | Some pid =>
      if truthy_id (Some pid)
      then default "" (found w pid ≫= c_parentPath) +:+ "/" +:+ str_id pid
      else ""
  | None => ""
  end.

(** A collection with its [parentPath] left out: everything a move has to
    leave alone. *)
Definition without_parentPath (c : IQueryCollection) : IQueryCollection :=
  set_parentPath None c.

(** [l] is the chain of the parents of [c] in the table, nearest first, up
    to a collection without parent. *)
Fixpoint is_parent_chain (w : World) (c : IQueryCollection) (l : list IQueryCollection)
    : Prop :=
  match l with
  | [] => (getParentCollection c w).1 = Ok None
  | p :: l' => (getParentCollection c w).1 = Ok (Some p) ∧ is_parent_chain w p l'
  end.

(** The ids still to be drawn are fresh: [uuid()] never repeats itself and
    no row is stored under an id it has yet to return. *)
Definition uuids_fresh (w : World) : Prop :=
  (∀ i j, uuid_src w i = uuid_src w j → i = j) ∧
  ∀ j, (uuid_drawn w ≤ j)%nat → queryCollections w !! IdStr (uuid_src w j) = None.

(** A document [importCollectionData] accepts: it has a [version] and its
    [type] is ['collection']. *)
Definition valid_document (data : ExportCollectionState) : bool :=
  match ex_version data with Some v => negb (v =? 0) | None => false end
  && bool_decide (ex_type data = Some "collection").

(** The local collection [syncRemoteToLocal] makes of a remote collection
    that matches no local one, before it is created. *)
Definition pulled_collection (serverCollection : ServerCollection) : IQueryCollection :=
  mkCollection None (rc_collectionName serverCollection)
    (map (λ serverQuery, set_q_serverId (Some (rq_id serverQuery)) (rq_content serverQuery))
         (rc_queries serverCollection))
    None (Some (rc_id serverCollection)) None None.

(** Every row is stored under its own [id]: the state of a table whose key
    is the [id] of the record. *)
Definition stored_under_ids (w : World) : Prop :=
  ∀ k r, queryCollections w !! k = Some r → c_id r = Some k.

(** From [w] to [w'] no row is removed: every key that holds a record still
    holds one, and the rows are still stored under their ids. *)
Definition rows_kept (w w' : World) : Prop :=
  stored_under_ids w' ∧
  ∀ k, is_Some (queryCollections w !! k) → is_Some (queryCollections w' !! k).

(** A computation that removes no row of such a table, whether it resolves
    or rejects. *)
Definition keeps_rows {A} (m : M A) : Prop :=
  ∀ w, stored_under_ids w → rows_kept w (m w).2.

(** The objects of the array the loop of [syncRemoteToLocal] searches are
    those of stored rows. *)
Definition all_stored (localCollections : list IQueryCollection) (w : World) : Prop :=
  ∀ m k, m ∈ localCollections → c_id m = Some k → is_Some (queryCollections w !! k).

(** The query [addLocalQuery] pushes for [query] in a world: [query] with the
    next uuid as its [id] and the next timestamp as [created_at] and
    [updated_at]. *)
Definition added_query (w : World) (query : IQuery) : IQuery :=
  set_q_updated_at (Some (now_src w (now_drawn w)))
    (set_q_created_at (Some (now_src w (now_drawn w)))
       (set_q_id (Some (uuid_src w (uuid_drawn w))) query)).

(** The server id of the parent that [createRemoteCollection] passes to the
    remote side: that of the row found under the last segment of the
    collection's [parentPath], if it has one that is not empty. *)
Definition parent_server_id (w : World) (collection : IQueryCollection) : option string :=
  match getParentCollectionId collection with
  | Some parentCollectionId =>
      match found w (IdStr parentCollectionId) ≫= c_serverId with
      | Some sid => if String.eqb sid "" then None else Some sid
      | None => None
      end
  | None => None
  end.

(** The ids of the queries of a collection, in order. *)
Definition query_ids (c : IQueryCollection) : list (option string) :=
  map q_id (c_queries c).

(** A computation that keeps, in every row, the queries' ids as they are:
    no query is added, removed, moved or given another id, whether the
    computation resolves or rejects. *)
Definition keeps_query_ids {A} (m : M A) : Prop :=
  ∀ w k c, queryCollections w !! k = Some c →
    ∃ c', queryCollections (m w).2 !! k = Some c' ∧ query_ids c' = query_ids c.

(** ** What a remote win writes *)

(** One server query met by one local query: the callback of the [map]
    inside [serverCollection.queries.forEach]. *)
Definition apply_to_query (query : IQuery) (serverQuery : ServerQuery) : IQuery :=
  if decide (q_serverId query = Some (rq_id serverQuery))
  then if server_is_newer (rq_updatedAt serverQuery) (q_updated_at query)
       then set_q_serverId (Some (rq_id serverQuery)) (rq_content serverQuery)
       else query
  else query.

(** What a remote win makes of a local query: the content the server holds
    under the query's [serverId], with that [serverId], when the server has
    such a query and it was updated more than 2 minutes after the local one;
    the local query otherwise. *)
Definition merged_query (serverQueries : list ServerQuery) (query : IQuery) : IQuery :=
  match List.find (λ serverQuery, bool_decide (q_serverId query = Some (rq_id serverQuery)))
                  serverQueries with
  | Some serverQuery =>
      match getTime (rq_updatedAt serverQuery), getTime (q_updated_at query) with
      | Some ts, Some tl =>
          if bool_decide (tl + 120000 < ts)
          then set_q_serverId (Some (rq_id serverQuery)) (rq_content serverQuery)
          else query
      | _, _ => query
      end
  | None => query
  end.

(** What a remote win makes of the matched collection when the remote
    collection holds at least one query: the remote name as title and the
    local queries merged one by one; no query is added or removed and the
    other fields are the local ones. *)
Definition merged_collection (serverCollection : ServerCollection)
    (matchedCollection : IQueryCollection) : IQueryCollection :=
  mkCollection (c_id matchedCollection) (rc_collectionName serverCollection)
    (map (merged_query (rc_queries serverCollection)) (c_queries matchedCollection))
    (c_parentPath matchedCollection) (c_serverId matchedCollection)
    (c_created_at matchedCollection) (c_updated_at matchedCollection).

(** The key under which [getCollectionByID] finds a collection: the id
    itself when a row is stored under it, its alternate otherwise. *)
Definition found_key (w : World) (i : CollectionID) : CollectionID :=
  match queryCollections w !! i with
  | Some _ => i
  | None => getAlternateCollectionID i
  end.

(** The update [addRemoteQuery] passes to [updateLocalQuery] for [query] and
    the server id returned for it, as the second [storage.now()] of the call
    stamps it. *)
Definition server_id_update (w : World) (query : IQuery) (queryServerId : string) : IQuery :=
  set_q_updated_at (Some (now_src w (S (now_drawn w))))
    (set_q_id (Some queryServerId) (set_q_serverId (Some queryServerId) query)).

(** ** Sample data *)

Definition sample_api : Api :=
  mkApi false (λ _ _, Ok []) (λ _ _, Ok tt) (λ _, Ok tt) (λ _, Ok tt) (Ok []).

(** The [n]-th value of a [uuid()] that never repeats itself. *)
Fixpoint tally (n : nat) : string :=
  match n with
  | O => "-"
  | S n' => String "i" (tally n')
  end.

Definition sample_uuid (n : nat) : string := tally n.

Definition sample_world (t : gmap CollectionID IQueryCollection) : World :=
  mkWorld t sample_uuid 0 (λ n, 1000 + Z.of_nat n) 0 sample_api.

Definition root_collection (i : CollectionID) (t : string) : IQueryCollection :=
  mkCollection (Some i) t [] (Some "") None (Some 0) (Some 0).

Definition child_collection (i : CollectionID) (t path : string) : IQueryCollection :=
  mkCollection (Some i) t [] (Some path) None (Some 0) (Some 0).

Definition legacy_query (name : string) : IQuery :=
  mkQuery None None (Some name) (Some "{ hello }") None None.

Definition collection_with_queries (i : CollectionID) (qs : list IQuery) : IQueryCollection :=
  mkCollection (Some i) "Saved" qs (Some "") None (Some 0) (Some 0).

(** A table with legacy numeric ids: the roots 1, 5 and 12, and a child of
    12. *)
Definition legacy_table : gmap CollectionID IQueryCollection :=
  {[ IdNum 1 := root_collection (IdNum 1) "One";
     IdNum 5 := root_collection (IdNum 5) "Five";
     IdNum 12 := root_collection (IdNum 12) "Twelve";
     IdStr "k" := child_collection (IdStr "k") "Child of twelve" "/12" ]}.

(** A synced local collection and what the server holds for it. *)
Definition synced_collection (i sid t : string) (stamp : Z) : IQueryCollection :=
  mkCollection (Some (IdStr i)) t [] (Some "") (Some sid) (Some stamp) (Some stamp).

Definition server_collection (sid name : string) (stamp : Z) (qs : list ServerQuery)
    : ServerCollection :=
  mkServerCollection sid name (Some stamp) qs.

Definition logged_in_api (remote : list ServerCollection) : Api :=
  mkApi true (λ _ _, Ok []) (λ _ _, Ok tt) (λ _, Ok tt) (λ _, Ok tt) (Ok remote).

Definition logged_in_world (t : gmap CollectionID IQueryCollection)
    (remote : list ServerCollection) : World :=
  mkWorld t sample_uuid 0 (λ n, 1000000 + Z.of_nat n) 0 (logged_in_api remote).

Definition server_query (sid name : string) (stamp : Z) : ServerQuery :=
  mkServerQuery sid (Some stamp)
    (mkQuery (Some "q") None (Some name) (Some "{ remote }") (Some stamp) (Some stamp)).

Definition synced_query (sid name : string) (stamp : Z) : IQuery :=
  mkQuery (Some "q") (Some sid) (Some name) (Some "{ local }") (Some stamp) (Some stamp).

(** A local collection last updated at minute 10, with one synced query. *)
Definition local_at_10 : IQueryCollection :=
  mkCollection (Some (IdStr "a")) "Local title" [synced_query "rq1" "Window" 600000]
    (Some "") (Some "rc1") (Some 600000) (Some 600000).

(** The same collection on the server, updated at the given time. *)
Definition remote_at (stamp : Z) : ServerCollection :=
  server_collection "rc1" "Remote title" stamp [server_query "rq1" "Window" stamp].

(** The server collection renamed, holding no query, updated at the given
    time. *)
Definition remote_without_queries (stamp : Z) : ServerCollection :=
  server_collection "rc1" "Remote title" stamp [].

(** An exported document: a collection with two children, one of which has
    a child of its own. *)
Definition sample_document : IQueryCollectionTree :=
  Tree (root_collection (IdStr "r") "Root")
    [ Tree (child_collection (IdStr "x") "X" "/r")
        [ Tree (child_collection (IdStr "y") "Y" "/r/x") [] ];
      Tree (child_collection (IdStr "z") "Z" "/r") [] ].

(** A row of the time of numeric ids, before [parentPath] existed. *)
Definition legacy_collection (n : Z) (t : string) : IQueryCollection :=
  mkCollection (Some (IdNum n)) t [] None None None None.

(** A flat list, not in tree order: two roots, a child and a grandchild. *)
Definition sample_list : list IQueryCollection :=
  [ child_collection (IdStr "c") "C" "/a/b";
    root_collection (IdStr "a") "A";
    root_collection (IdStr "d") "D";
    child_collection (IdStr "b") "B" "/a" ].

(** A collection to create, with two queries. *)
Definition new_collection : IQueryCollection :=
  mkCollection None "New" [legacy_query "Q1"; legacy_query "Q2"] None None None None.

(** A table of uuid-like ids: [a] with child [b] and grandchild [c], and a
    root [z]. *)
Definition nested_table : gmap CollectionID IQueryCollection :=
  {[ IdStr "a" := root_collection (IdStr "a") "A";
     IdStr "b" := child_collection (IdStr "b") "B" "/a";
     IdStr "c" := child_collection (IdStr "c") "C" "/a/b";
     IdStr "z" := root_collection (IdStr "z") "Z" ]}.

Definition sample_export : ExportCollectionState :=
  mkExport (Some 1) (Some "collection") sample_document.

(** A remote side with a logged-in user that answers [createQueries] with
    the given server ids. *)
Definition creating_api (queryServerIds : list string) : Api :=
  mkApi true (λ _ _, Ok queryServerIds) (λ _ _, Ok tt) (λ _, Ok tt) (λ _, Ok tt) (Ok []).

Definition creating_world (t : gmap CollectionID IQueryCollection)
    (queryServerIds : list string) : World :=
  mkWorld t sample_uuid 0 (λ n, 1000 + Z.of_nat n) 0 (creating_api queryServerIds).

(** A local collection last updated at minute 10 whose synced query was
    edited later, at 11 min 40 s. *)
Definition local_with_recent_query : IQueryCollection :=
  mkCollection (Some (IdStr "a")) "Local title" [synced_query "rq1" "Window" 700000]
    (Some "") (Some "rc1") (Some 600000) (Some 600000).

(** Collection 5 of [legacy_table] renamed and synced, under its own id. *)
Definition renamed_five : IQueryCollection :=
  mkCollection (Some (IdNum 5)) "Renamed" [] (Some "") (Some "remote-5") (Some 0) (Some 7).

(** A synced collection one of whose queries has the id ["remote-q"]. *)
Definition collection_with_remote_id : IQueryCollection :=
  mkCollection (Some (IdStr "s")) "Synced"
    [mkQuery (Some "remote-q") None (Some "kept name") (Some "{ stored }") (Some 1) (Some 1)]
    (Some "") (Some "remote-s") (Some 0) (Some 0).

(** * Properties *)

(** ** Alternate ids *)

Example alternate_of_42 : getAlternateCollectionID (IdNum 42) = IdStr "42".
Proof. vm_compute. reflexivity. Qed.

Example alternate_of_str_42 : getAlternateCollectionID (IdStr "42") = IdNum 42.
Proof. vm_compute. reflexivity. Qed.

Example alternate_of_42x : getAlternateCollectionID (IdStr "42x") = IdStr "".
Proof. vm_compute. reflexivity. Qed.

Example alternate_of_uuid :
  getAlternateCollectionID (IdStr "110ec58a-a0f2-4ac4-8393-c866d813b8d1") = IdStr "".
Proof. vm_compute. reflexivity. Qed.


(** ** Running a computation *)

Lemma bind_Ok {A B} (m : M A) (k : A → M B) (w w' : World) (a : A) :
  m w = (Ok a, w') → (m ≫= k) w = k a w'.
Proof. intros H. unfold mbind, M_bind, bind. by rewrite H. Qed.

Lemma bind_Throw {A B} (m : M A) (k : A → M B) (w w' : World) (e : string) :
  m w = (Throw e, w') → (m ≫= k) w = (Throw e, w').
Proof. intros H. unfold mbind, M_bind, bind. by rewrite H. Qed.

Lemma getCollectionByID_run (collectionId : CollectionID) (w : World) :
  getCollectionByID collectionId w =
    (Ok (match queryCollections w !! collectionId with
         | Some c => Some c
         | None => queryCollections w !! getAlternateCollectionID collectionId
         end), w).
Proof.
  unfold getCollectionByID, mbind, M_bind, bind, table_get.
  destruct (queryCollections w !! collectionId) as [c|] eqn:E; simpl.
  - by rewrite E.
  - done.
Qed.

Lemma getCollectionByID_not_a_number (s : string) (w : World) :
  Number s = None →
  queryCollections w !! IdStr s = None →
  queryCollections w !! IdStr "" = None →
  getCollectionByID (IdStr s) w = (Ok None, w).
Proof.
  intros Hn Hs He. rewrite getCollectionByID_run, Hs. simpl. by rewrite Hn, He.
Qed.

(** C7. A collection stored under the number 42 is returned by
    [getCollectionByID(42)] and, the string ["42"] holding no record of its
    own, by [getCollectionByID("42")]; for ["42x"], which is not a number and
    has no record, the alternate key is [''] (not [NaN]) and, no record having
    an empty id, the lookup resolves to nothing without rejecting. *)
Theorem getCollectionByID_alternate (w : World) (r : IQueryCollection)
    (Hnum : queryCollections w !! IdNum 42 = Some r)
    (Hstr : queryCollections w !! IdStr "42" = None)
    (Hx : queryCollections w !! IdStr "42x" = None)
    (Hempty : queryCollections w !! IdStr "" = None) :
  getCollectionByID (IdNum 42) w = (Ok (Some r), w) ∧
  getCollectionByID (IdStr "42") w = (Ok (Some r), w) ∧
  getCollectionByID (IdStr "42x") w = (Ok None, w) ∧
  getAlternateCollectionID (IdStr "42x") = IdStr "".
Proof.
  repeat split.
  - by rewrite getCollectionByID_run, Hnum.
  - rewrite getCollectionByID_run, Hstr.
    change (getAlternateCollectionID (IdStr "42")) with (IdNum 42).
    by rewrite Hnum.
  - by apply getCollectionByID_not_a_number.
Qed.

Lemma getCollectionByID_alternate_witness :
  let r := root_collection (IdNum 42) "A" in
  let w := sample_world {[ IdNum 42 := r ]} in
  getCollectionByID (IdNum 42) w = (Ok (Some r), w) ∧
  getCollectionByID (IdStr "42") w = (Ok (Some r), w) ∧
  getCollectionByID (IdStr "42x") w = (Ok None, w) ∧
  getAlternateCollectionID (IdStr "42x") = IdStr "".
Proof.
  apply getCollectionByID_alternate; vm_compute; reflexivity.
Defined.

(** ** Strings *)

Lemma prefix_length (p s : string) :
  String.prefix p s = true → (String.length p ≤ String.length s)%nat.
Proof.
  revert s. induction p as [|a p IH]; intros [|b s]; simpl; try lia; try done.
  destruct (Ascii.ascii_dec a b); [|done]. intros H%IH. lia.
Qed.

Lemma string_length_app (a b : string) :
  String.length (a +:+ b) = (String.length a + String.length b)%nat.
Proof. induction a; simpl; [done|]. by rewrite IHa. Qed.

Lemma not_prefix_longer (p t : string) :
  String.prefix (p +:+ "/" +:+ t) p = false.
Proof.
  destruct (String.prefix _ _) eqn:E; [|done].
  apply prefix_length in E. rewrite !string_length_app in E. simpl in E. lia.
Qed.

(** ** Deleting a collection *)

Lemma deleteCollection_table (collectionId : CollectionID) (w : World) (c : IQueryCollection) :
  (getCollectionByID collectionId w).1 = Ok (Some c) →
  queryCollections (deleteCollection collectionId w).2 =
    delete (getAlternateCollectionID collectionId)
           (delete collectionId (queryCollections w)).
Proof.
  rewrite getCollectionByID_run. simpl. intros [= Hc].
  unfold deleteCollection, mustGetLocalCollection, mbind, M_bind, bind.
  rewrite getCollectionByID_run, Hc. simpl.
  destruct (api_getUser (api w)); simpl; [|done].
  destruct (c_serverId c) as [sid|]; simpl; [|done].
  destruct (String.eqb sid ""); simpl; [done|].
  by destruct (api_deleteCollection (api w) sid).
Qed.

(** C8. [deleteCollection(id)] of a stored collection removes the rows under
    [id] and under its alternate id and no other: every other key holds what
    it held, and so does every descendant (a row whose [parentPath] starts
    with the path of the deleted collection's children) that is not itself
    stored under the alternate id. *)
Theorem deleteCollection_keeps_descendants (collectionId : CollectionID) (w : World)
    (c : IQueryCollection)
    (Hc : (getCollectionByID collectionId w).1 = Ok (Some c)) :
  let w' := (deleteCollection collectionId w).2 in
  let alternate := getAlternateCollectionID collectionId in
  queryCollections w' !! collectionId = None ∧
  queryCollections w' !! alternate = None ∧
  (∀ k, k ≠ collectionId → k ≠ alternate →
        queryCollections w' !! k = queryCollections w !! k) ∧
  (∀ k d, queryCollections w !! k = Some d →
          startsWith (default "" (c_parentPath c) +:+ COLLECTION_PATH_SEPARATOR
                        +:+ str_id collectionId) (c_parentPath d) = true →
          k ≠ alternate →
          queryCollections w' !! k = Some d).
Proof.
  intros w' alternate. subst w'.
  rewrite (deleteCollection_table _ _ _ Hc). fold alternate.
  split_and!.
  - destruct (decide (alternate = collectionId)) as [->|Hne].
    + by rewrite lookup_delete_eq.
    + by rewrite lookup_delete_ne, lookup_delete_eq.
  - by rewrite lookup_delete_eq.
  - intros k Hk Hka. by rewrite !lookup_delete_ne.
  - intros k d Hd Hdesc Hka.
    assert (k ≠ collectionId) as Hk.
    { intros ->. rewrite getCollectionByID_run, Hd in Hc. simpl in Hc.
      injection Hc as ->. unfold startsWith in Hdesc.
      destruct (c_parentPath c) as [p|]; [|done]. simpl in Hdesc.
      by rewrite not_prefix_longer in Hdesc. }
    by rewrite !lookup_delete_ne.
Qed.

Lemma deleteCollection_keeps_descendants_witness :
  let parent := root_collection (IdStr "p") "Parent" in
  let child := child_collection (IdStr "k") "Child" "/p" in
  let w := sample_world {[ IdStr "p" := parent; IdStr "k" := child ]} in
  queryCollections (deleteCollection (IdStr "p") w).2 !! IdStr "p" = None ∧
  queryCollections (deleteCollection (IdStr "p") w).2 !! IdStr "k" = Some child.
Proof.
  intros parent child w.
  destruct (deleteCollection_keeps_descendants (IdStr "p") w parent)
    as (Hgone & _ & _ & Hdesc).
  - vm_compute. reflexivity.
  - split; [exact Hgone|].
    apply Hdesc; [vm_compute; reflexivity | vm_compute; reflexivity | discriminate].
Defined.

(** ** Query-level operations leave the collection-level fields alone *)

Section keeps.
Context {A B : Type}.

Lemma keeps_ret (a : A) : keeps_collection_fields (mret a : M A).
Proof. by intros w. Qed.

Lemma keeps_throw (msg : string) : keeps_collection_fields (throw msg : M A).
Proof. by intros w. Qed.

Lemma keeps_lift_res (r : Res A) : keeps_collection_fields (lift_res r).
Proof. by intros w. Qed.

Lemma keeps_bind (m : M A) (k : A → M B) :
  keeps_collection_fields m → (∀ a, keeps_collection_fields (k a)) →
  keeps_collection_fields (m ≫= k).
Proof.
  intros Hm Hk w. unfold mbind, M_bind, bind.
  specialize (Hm w). destruct (m w) as [[a|e] w1]; simpl in *.
  - by rewrite Hk.
  - done.
Qed.
End keeps.

Lemma keeps_table_get k : keeps_collection_fields (table_get k).
Proof. by intros w. Qed.

Lemma keeps_get_world : keeps_collection_fields get_world.
Proof. by intros w. Qed.

Lemma keeps_uuid : keeps_collection_fields uuid.
Proof. by intros w. Qed.

Lemma keeps_storage_now : keeps_collection_fields storage_now.
Proof. by intros w. Qed.

Lemma keeps_canApplyRemote : keeps_collection_fields canApplyRemote.
Proof. by intros w. Qed.

Lemma keeps_getCollectionByID i : keeps_collection_fields (getCollectionByID i).
Proof. intros w. by rewrite getCollectionByID_run. Qed.

Create HintDb keeps.

#[local] Hint Resolve keeps_ret keeps_throw keeps_lift_res keeps_table_get
  keeps_get_world keeps_uuid keeps_storage_now keeps_canApplyRemote
  keeps_getCollectionByID : keeps.

Ltac keeps_step :=
  first [ solve [eauto with keeps]
        | apply keeps_bind; [|intros ?]
        | match goal with
          | |- keeps_collection_fields (if ?b then _ else _) => destruct b
          | |- keeps_collection_fields (match ?x with _ => _ end) => destruct x
          end ].

Lemma keeps_mustGetLocalCollection i : keeps_collection_fields (mustGetLocalCollection i).
Proof. unfold mustGetLocalCollection. repeat keeps_step. Qed.

Lemma keeps_getLocalQuery i q : keeps_collection_fields (getLocalQuery i q).
Proof. unfold getLocalQuery. repeat keeps_step. Qed.

#[local] Hint Resolve keeps_mustGetLocalCollection keeps_getLocalQuery : keeps.

(** A callback that only rewrites [queries] makes [modify_row] keep the
    collection-level fields. *)
Lemma keeps_modify_row key (changeCb : IQueryCollection → M IQueryCollection) :
  (∀ c, keeps_collection_fields (changeCb c)) →
  (∀ c w c', (changeCb c w).1 = Ok c' → without_queries c' = without_queries c) →
  keeps_collection_fields (modify_row key changeCb).
Proof.
  intros Hk Hv w. unfold modify_row, mbind, M_bind, bind, table_get.
  destruct (queryCollections w !! key) as [c|] eqn:E; [|done].
  specialize (Hk c w). specialize (Hv c w).
  destruct (changeCb c w) as [[c'|e] w1]; simpl in *; [|done].
  rewrite <- Hk. unfold collection_fields. simpl.
  rewrite fmap_insert, (Hv c' eq_refl).
  apply insert_id.
  change (collection_fields w1 !! key = Some (without_queries c)).
  by rewrite Hk; unfold collection_fields; rewrite lookup_fmap, E.
Qed.

Lemma keeps_updateCollectionByID i (changeCb : IQueryCollection → M IQueryCollection) :
  (∀ c, keeps_collection_fields (changeCb c)) →
  (∀ c w c', (changeCb c w).1 = Ok c' → without_queries c' = without_queries c) →
  keeps_collection_fields (updateCollectionByID i changeCb).
Proof.
  intros Hk Hv. unfold updateCollectionByID.
  apply keeps_bind; [by apply keeps_modify_row|]. intros _.
  case_decide; [apply keeps_ret | by apply keeps_modify_row].
Qed.

Lemma keeps_addLocalQuery i q : keeps_collection_fields (addLocalQuery i q).
Proof.
  unfold addLocalQuery. apply keeps_bind; [eauto with keeps|]. intros now.
  apply keeps_updateCollectionByID.
  - intros c. repeat keeps_step.
  - intros c w c'. unfold mbind, M_bind, bind, uuid. simpl. by intros [= <-].
Qed.

Lemma keeps_updateLocalQuery i qid q : keeps_collection_fields (updateLocalQuery i qid q).
Proof.
  unfold updateLocalQuery. apply keeps_bind; [eauto with keeps|]. intros now.
  apply keeps_updateCollectionByID.
  - intros c. repeat keeps_step.
  - intros c w c'. simpl. by intros [= <-].
Qed.

Lemma keeps_deleteLocalQuery i q : keeps_collection_fields (deleteLocalQuery i q).
Proof.
  unfold deleteLocalQuery. apply keeps_updateCollectionByID.
  - intros c. repeat keeps_step.
  - intros c w c'. simpl. by intros [= <-].
Qed.

#[local] Hint Resolve keeps_addLocalQuery keeps_updateLocalQuery
  keeps_deleteLocalQuery : keeps.

Lemma keeps_addRemoteQuery_loop i qs idx sids :
  keeps_collection_fields (addRemoteQuery_loop i qs idx sids).
Proof.
  revert idx. induction sids as [|sid sids IH]; intros idx; simpl.
  - apply keeps_ret.
  - apply keeps_bind; [eauto with keeps|]. intros _. apply IH.
Qed.

Lemma keeps_addRemoteQuery i qs : keeps_collection_fields (addRemoteQuery i qs).
Proof.
  unfold addRemoteQuery.
  repeat first [ apply keeps_addRemoteQuery_loop | keeps_step ].
Qed.

#[local] Hint Resolve keeps_addRemoteQuery : keeps.

Lemma keeps_addQuery i q : keeps_collection_fields (addQuery i q).
Proof. unfold addQuery. repeat keeps_step. Qed.

Lemma keeps_updateQuery i qid q : keeps_collection_fields (updateQuery i qid q).
Proof. unfold updateQuery. repeat keeps_step. Qed.

Lemma keeps_deleteQuery i q : keeps_collection_fields (deleteQuery i q).
Proof. unfold deleteQuery. repeat keeps_step. Qed.

Lemma collection_fields_updated_at (w w' : World) (k : CollectionID) :
  collection_fields w' = collection_fields w →
  c_updated_at <$> (queryCollections w' !! k) = c_updated_at <$> (queryCollections w !! k).
Proof.
  intros H. apply (f_equal (λ m, c_updated_at <$> (m !! k))) in H.
  unfold collection_fields in H. rewrite !lookup_fmap in H.
  by destruct (queryCollections w' !! k), (queryCollections w !! k).
Qed.

(** C10. [addQuery], [updateQuery] and [deleteQuery], whatever the remote
    side answers and whether they resolve or reject, leave every row of the
    table with the [updated_at] it had (and with every other collection-level
    field: only [queries] is rewritten); no row is added or removed. *)
Theorem query_operations_keep_updated_at (collectionId : CollectionID)
    (queryId : string) (query : IQuery) (w : World) (k : CollectionID) :
  c_updated_at <$> (queryCollections (addQuery collectionId query w).2 !! k)
    = c_updated_at <$> (queryCollections w !! k) ∧
  c_updated_at <$> (queryCollections (updateQuery collectionId queryId query w).2 !! k)
    = c_updated_at <$> (queryCollections w !! k) ∧
  c_updated_at <$> (queryCollections (deleteQuery collectionId query w).2 !! k)
    = c_updated_at <$> (queryCollections w !! k) ∧
  collection_fields (addQuery collectionId query w).2 = collection_fields w ∧
  collection_fields (updateQuery collectionId queryId query w).2 = collection_fields w ∧
  collection_fields (deleteQuery collectionId query w).2 = collection_fields w.
Proof.
  pose proof (keeps_addQuery collectionId query w) as Ha.
  pose proof (keeps_updateQuery collectionId queryId query w) as Hu.
  pose proof (keeps_deleteQuery collectionId query w) as Hd.
  split_and!; auto using collection_fields_updated_at.
Qed.

(** ** Deleting a query *)

Lemma set_table_same (w : World) : set_table (queryCollections w) w = w.
Proof. by destruct w. Qed.

Lemma set_table_twice t1 t2 (w : World) : set_table t2 (set_table t1 w) = set_table t2 w.
Proof. done. Qed.

(** With a callback that draws nothing, [modify_row] is [alter]. *)
Lemma modify_row_pure key (f : IQueryCollection → IQueryCollection) (w : World) :
  modify_row key (λ c, mret (f c)) w
    = (Ok tt, set_table (alter f key (queryCollections w)) w).
Proof.
  unfold modify_row, mbind, M_bind, bind, table_get, table_put. simpl.
  destruct (queryCollections w !! key) as [c|] eqn:E; simpl.
  - do 2 f_equal. apply map_eq. intros k. rewrite lookup_alter, lookup_insert.
    case_decide; subst; by rewrite ?E.
  - unfold mret, M_ret, ret. do 2 f_equal.
    rewrite <- (set_table_same w) at 1. f_equal.
    apply map_eq. intros k. rewrite lookup_alter.
    case_decide; subst; by rewrite ?E.
Qed.

Lemma updateCollectionByID_pure i (f : IQueryCollection → IQueryCollection) (w : World) :
  updateCollectionByID i (λ c, mret (f c)) w
    = (Ok tt,
       set_table (if decide (getAlternateCollectionID i = i)
                  then alter f i (queryCollections w)
                  else alter f (getAlternateCollectionID i)
                         (alter f i (queryCollections w))) w).
Proof.
  unfold updateCollectionByID, mbind, M_bind, bind.
  rewrite modify_row_pure. case_decide; [done|].
  by rewrite modify_row_pure.
Qed.

Lemma filter_keeps_all {X} (p : X → bool) (l : list X) :
  Forall (λ x, p x = true) l → List.filter p l = l.
Proof. induction 1 as [|x l Hx _ IH]; simpl; [done|]. by rewrite Hx, IH. Qed.

Lemma set_queries_same (c : IQueryCollection) : set_queries (c_queries c) c = c.
Proof. by destruct c. Qed.

(** C9. [deleteQuery] on an existing collection, with a query that has no
    [id] (or an empty one) and whose [windowName] is that of none of the
    collection's queries, resolves, and the collection, all its queries
    included, is afterwards what it was. *)
Theorem deleteQuery_unmatched_legacy_query (collectionId : CollectionID)
    (query : IQuery) (w : World) (c : IQueryCollection)
    (Hc : (getCollectionByID collectionId w).1 = Ok (Some c))
    (Hid : truthy_str (q_id query) = false)
    (Hname : Forall (λ cq, q_windowName query ≠ q_windowName cq) (c_queries c)) :
  (deleteQuery collectionId query w).1 = Ok tt ∧
  (getCollectionByID collectionId (deleteQuery collectionId query w).2).1 = Ok (Some c).
Proof.
  rewrite getCollectionByID_run in Hc. simpl in Hc. injection Hc as Hc.
  set (f := λ collection : IQueryCollection,
         set_queries
           (List.filter (λ collectionQuery,
                if truthy_str (q_id query)
                then (if decide (q_id query = q_id collectionQuery) then false else true)
                else (if decide (q_windowName query = q_windowName collectionQuery)
                      then false else true))
              (c_queries collection))
           collection).
  assert (f c = c) as Hf.
  { unfold f. rewrite filter_keeps_all; [apply set_queries_same|].
    eapply Forall_impl; [exact Hname|]. intros cq Hcq. simpl in Hcq.
    rewrite Hid. by case_decide. }
  assert (deleteLocalQuery collectionId query w
          = updateCollectionByID collectionId (λ c, mret (f c)) w) as Hdel by done.
  assert (mustGetLocalCollection collectionId w = (Ok c, w)) as Hmust.
  { unfold mustGetLocalCollection.
    erewrite bind_Ok by (rewrite getCollectionByID_run, Hc; reflexivity). done. }
  assert (∃ lq, getLocalQuery collectionId (q_id query) w = (Ok lq, w)) as [lq Hlq].
  { eexists. unfold getLocalQuery.
    erewrite bind_Ok by (rewrite getCollectionByID_run, Hc; reflexivity). done. }
  set (t' := if decide (getAlternateCollectionID collectionId = collectionId)
             then alter f collectionId (queryCollections w)
             else alter f (getAlternateCollectionID collectionId)
                    (alter f collectionId (queryCollections w))).
  assert (match t' !! collectionId with
          | Some c0 => Some c0
          | None => t' !! getAlternateCollectionID collectionId
          end = Some c) as Hget.
  { subst t'. destruct (queryCollections w !! collectionId) as [c0|] eqn:E.
    - injection Hc as ->.
      case_decide.
      + by rewrite lookup_alter_eq, E; simpl; rewrite Hf.
      + rewrite lookup_alter_ne, lookup_alter_eq, E by done. simpl. by rewrite Hf.
    - case_decide as Halt.
      + rewrite Halt in Hc. congruence.
      + rewrite lookup_alter_ne, lookup_alter_eq, E by done. simpl.
        rewrite lookup_alter_eq, lookup_alter_ne, Hc by done. simpl. by rewrite Hf. }
  assert (deleteQuery collectionId query w = (Ok tt, set_table t' w)) as ->.
  { unfold deleteQuery.
    erewrite bind_Ok by exact Hmust.
    erewrite bind_Ok by exact Hlq.
    erewrite bind_Ok by (rewrite Hdel; apply updateCollectionByID_pure).
    erewrite bind_Ok by reflexivity.
    simpl. destruct (api_getUser (api w)); simpl; [|done].
    destruct (truthy_str (c_serverId c)); simpl; [|done].
    by rewrite Hid. }
  split; [done|].
  rewrite getCollectionByID_run. simpl. by rewrite Hget.
Qed.

Lemma deleteQuery_unmatched_legacy_query_witness :
  let c := collection_with_queries (IdStr "c1") [legacy_query "Window 1"; legacy_query "Window 2"] in
  let w := sample_world {[ IdStr "c1" := c ]} in
  (deleteQuery (IdStr "c1") (legacy_query "Window 3") w).1 = Ok tt ∧
  (getCollectionByID (IdStr "c1")
     (deleteQuery (IdStr "c1") (legacy_query "Window 3") w).2).1 = Ok (Some c).
Proof.
  intros c w. apply deleteQuery_unmatched_legacy_query.
  - vm_compute. reflexivity.
  - reflexivity.
  - repeat constructor; discriminate.
Defined.

(** ** Moving a collection *)

Example replace_prefix : replace "/a" "/z/456" "/a/123" = "/z/456/123".
Proof. reflexivity. Qed.

Example replace_at_root : replace "" "/z/456" "/123" = "/z/456/123".
Proof. reflexivity. Qed.

Example replace_first_only : replace "/a" "/b" "/a/a" = "/b/a".
Proof. reflexivity. Qed.

Lemma prefix_app (p rest : string) : String.prefix p (p +:+ rest) = true.
Proof.
  induction p as [|a p IH]; simpl; [by destruct rest|].
  destruct (Ascii.ascii_dec a a); done.
Qed.

Lemma skip_app (p rest : string) : skip (String.length p) (p +:+ rest) = rest.
Proof. induction p as [|a p IH]; simpl; [by destruct rest|done]. Qed.

Lemma find_first_unfold (pattern s : string) :
  find_first pattern s =
    if String.prefix pattern s then Some ("", skip (String.length pattern) s)
    else match s with
         | String a s' =>
             match find_first pattern s' with
             | Some (before, after) => Some (String a before, after)
             | None => None
             end
         | EmptyString => None
         end.
Proof. by destruct s. Qed.

Lemma getSubstitution_plain (matched before after template : string) :
  has_dollar template = false →
  getSubstitution matched before after template = template.
Proof.
  induction template as [|a t IH]; [done|].
  cbn [has_dollar]. intros [Ha Ht]%orb_false_iff.
  specialize (IH Ht).
  destruct a as [[] [] [] [] [] [] [] []]; try discriminate Ha;
    cbn [getSubstitution]; by rewrite IH.
Qed.

(** Where the path starts with the old parent path, [replace] substitutes
    that prefix and keeps the rest. *)
Lemma replace_prefix_substitution (old new rest : string) :
  has_dollar new = false → replace old new (old +:+ rest) = new +:+ rest.
Proof.
  intros Hnew. unfold replace.
  assert (find_first old (old +:+ rest) = Some ("", rest)) as ->.
  { rewrite find_first_unfold, prefix_app. by rewrite skip_app. }
  by rewrite getSubstitution_plain.
Qed.

(** What a move that finds both collections does to the table: the selected
    rows have the first occurrence of the old parent path replaced in their
    [parentPath]; the other rows are as they were. *)
Lemma moveCollection_table (collectionId newParentCollectionId : CollectionID)
    (w : World) (c np : IQueryCollection) (k : CollectionID) :
  (getCollectionByID collectionId w).1 = Ok (Some c) →
  (getCollectionByID newParentCollectionId w).1 = Ok (Some np) →
  let old := default "" (c_parentPath c) in
  let new := default "" (c_parentPath np) +:+ "/" +:+ str_id newParentCollectionId in
  (moveCollection collectionId newParentCollectionId w).1 = Ok tt ∧
  queryCollections (moveCollection collectionId newParentCollectionId w).2 !! k
    = (λ d, if move_selects collectionId (old +:+ "/" +:+ str_id collectionId) k d
            then set_parentPath (replace old new <$> c_parentPath d) d
            else d) <$> queryCollections w !! k.
Proof.
  intros Hc Hnp old new.
  rewrite getCollectionByID_run in Hc, Hnp. simpl in Hc, Hnp.
  injection Hc as Hc. injection Hnp as Hnp.
  unfold moveCollection, moveLocalCollection, transaction.
  erewrite bind_Ok by (rewrite getCollectionByID_run, Hc; reflexivity).
  cbv beta iota.
  erewrite bind_Ok by (rewrite getCollectionByID_run, Hnp; reflexivity).
  unfold table_modify. simpl. split; [done|].
  rewrite map_lookup_imap. by destruct (queryCollections w !! k).
Qed.

(** A second way to lose a row: a root without [parentPath] (a legacy row)
    keeps its missing [parentPath] when moved, since
    [c.parentPath?.replace(...)] is [undefined]. *)
Example moveCollection_without_parentPath :
  let w := sample_world {[ IdNum 7 := legacy_collection 7 "Seven";
                           IdNum 5 := root_collection (IdNum 5) "Five" ]} in
  (moveCollection (IdNum 7) (IdNum 5) w).1 = Ok tt ∧
  queryCollections (moveCollection (IdNum 7) (IdNum 5) w).2 !! IdNum 7
    = Some (legacy_collection 7 "Seven").
Proof. vm_compute. done. Qed.

(** C1. In a table with the roots 1, 5 and 12 and a child of 12, collection
    1 has no descendant; [moveCollection(1, 5)] resolves, gives collection 1
    the [parentPath] ["/5"], and also rewrites the [parentPath] of the child
    of 12 from ["/12"] to ["/5/12"], because ["/12"] starts with ["/1"]: two
    rows change where the moved collection has no descendant. *)
Theorem moveCollection_rewrites_a_non_descendant :
  let w := sample_world legacy_table in
  let w' := (moveCollection (IdNum 1) (IdNum 5) w).2 in
  (moveCollection (IdNum 1) (IdNum 5) w).1 = Ok tt ∧
  descendant_of "/1" (child_collection (IdStr "k") "Child of twelve" "/12") = false ∧
  queryCollections w' !! IdNum 1 = Some (child_collection (IdNum 1) "One" "/5") ∧
  queryCollections w' !! IdStr "k"
    = Some (child_collection (IdStr "k") "Child of twelve" "/5/12") ∧
  queryCollections w' !! IdNum 12 = queryCollections w !! IdNum 12 ∧
  queryCollections w' !! IdNum 5 = queryCollections w !! IdNum 5.
Proof. vm_compute. repeat split. Qed.

(** ** Pulling the remote collections *)

Lemma replace_row_in_place key (row obj : IQueryCollection) (w : World) :
  c_id obj = Some key ∨ c_id obj = c_id row →
  replace_row key (Some row) obj w
    = (Ok (set_updated_at (Some (now_src w (now_drawn w))) obj),
       mkWorld (<[key := set_updated_at (Some (now_src w (now_drawn w))) obj]>
                  (queryCollections w))
               (uuid_src w) (uuid_drawn w) (now_src w) (S (now_drawn w)) (api w)).
Proof.
  intros Hid. unfold replace_row, table_replace, mbind, M_bind, bind, storage_now.
  simpl. by rewrite decide_True.
Qed.

Lemma replace_row_moves key (row obj : IQueryCollection) (w : World) (newKey : CollectionID) :
  c_id obj = Some newKey → newKey ≠ key → c_id row ≠ Some newKey →
  queryCollections w !! newKey = None →
  replace_row key (Some row) obj w
    = (Ok (set_updated_at (Some (now_src w (now_drawn w))) obj),
       mkWorld (delete key
                  (<[newKey := set_updated_at (Some (now_src w (now_drawn w))) obj]>
                     (queryCollections w)))
               (uuid_src w) (uuid_drawn w) (now_src w) (S (now_drawn w)) (api w)).
Proof.
  intros Hid Hne Hrow Hfree.
  unfold replace_row, table_replace, mbind, M_bind, bind, storage_now. simpl.
  rewrite decide_False by (rewrite Hid; intros [[=]|]; congruence).
  unfold table_add. simpl. by rewrite Hid, Hfree.
Qed.

Lemma replace_row_taken key (row obj : IQueryCollection) (w : World) (newKey : CollectionID) :
  c_id obj = Some newKey → newKey ≠ key → c_id row ≠ Some newKey →
  is_Some (queryCollections w !! newKey) →
  ∃ e, replace_row key (Some row) obj w
       = (Throw e,
          mkWorld (queryCollections w) (uuid_src w) (uuid_drawn w) (now_src w)
                  (S (now_drawn w)) (api w)).
Proof.
  intros Hid Hne Hrow [taken Htaken].
  unfold replace_row, table_replace, mbind, M_bind, bind, storage_now. simpl.
  rewrite decide_False by (rewrite Hid; intros [[=]|]; congruence).
  unfold table_add. simpl. rewrite Hid, Htaken. by eexists.
Qed.

Lemma updateLocalCollection_unfold k (obj : IQueryCollection) (w : World) :
  updateLocalCollection k obj w
    = (stamped ← replace_row k (queryCollections w !! k) obj;
       replace_row (getAlternateCollectionID k)
         (if decide (getAlternateCollectionID k = k) then None
          else queryCollections w !! getAlternateCollectionID k) stamped) w.
Proof.
  unfold updateLocalCollection. erewrite bind_Ok by reflexivity.
  case_decide; by erewrite bind_Ok by reflexivity.
Qed.

(** A collection that has the key it is stored under, with no row under the
    alternate key: the row is replaced in place, once. *)
Lemma updateLocalCollection_single k (obj old : IQueryCollection) (w : World) :
  queryCollections w !! k = Some old →
  queryCollections w !! getAlternateCollectionID k = None →
  c_id obj = Some k ∨ c_id obj = c_id old →
  updateLocalCollection k obj w
    = (Ok (set_updated_at (Some (now_src w (now_drawn w))) obj),
       mkWorld (<[k := set_updated_at (Some (now_src w (now_drawn w))) obj]>
                  (queryCollections w))
               (uuid_src w) (uuid_drawn w) (now_src w) (S (now_drawn w)) (api w)).
Proof.
  intros Hrow Halt Hid. rewrite updateLocalCollection_unfold, Hrow, Halt.
  erewrite bind_Ok by (by apply replace_row_in_place).
  by case_decide.
Qed.

(** A collection that has the key [k], in any table with a row under [k]:
    that row is replaced in place, whatever else the call does, and the rows
    under keys other than [k] and its alternate are left alone. *)
Lemma updateLocalCollection_at_key k (obj : IQueryCollection) (w : World) :
  is_Some (queryCollections w !! k) → c_id obj = Some k →
  queryCollections (updateLocalCollection k obj w).2 !! k
    = Some (set_updated_at (Some (now_src w (now_drawn w))) obj) ∧
  ∀ j, j ≠ k → j ≠ getAlternateCollectionID k →
       queryCollections (updateLocalCollection k obj w).2 !! j = queryCollections w !! j.
Proof.
  intros [old Hrow] Hid. rewrite updateLocalCollection_unfold, Hrow.
  erewrite bind_Ok by (apply replace_row_in_place; by left).
  set (stamped := set_updated_at _ obj). set (w1 := mkWorld _ _ _ _ _ _).
  case_decide as Ha; [simpl; split; [apply lookup_insert_eq|]|].
  { intros j Hj _. by apply lookup_insert_ne. }
  destruct (queryCollections w !! getAlternateCollectionID k) as [other|] eqn:Hother.
  2:{ simpl. split; [apply lookup_insert_eq|]. intros j Hj _. by apply lookup_insert_ne. }
  destruct (decide (c_id other = Some k)) as [Hsame|Hdiff].
  - rewrite replace_row_in_place by (right; simpl; congruence). simpl. split.
    + by rewrite lookup_insert_ne, lookup_insert_eq.
    + intros j Hj Hja. by rewrite !lookup_insert_ne.
  - destruct (replace_row_taken (getAlternateCollectionID k) other stamped w1 k)
      as [e ->]; [done|done|done| |].
    { subst w1. simpl. rewrite lookup_insert_eq. by eexists. }
    simpl. split; [apply lookup_insert_eq|]. intros j Hj _. by apply lookup_insert_ne.
Qed.

(** The row under [k] replaced in place stays as the first write leaves it,
    whatever becomes of the row under the alternate key. *)
Lemma updateLocalCollection_row k (obj old : IQueryCollection) (w : World) :
  queryCollections w !! k = Some old →
  c_id obj = Some k ∨ c_id obj = c_id old →
  queryCollections (updateLocalCollection k obj w).2 !! k
    = Some (set_updated_at (Some (now_src w (now_drawn w))) obj).
Proof.
  intros Hrow Hid. rewrite updateLocalCollection_unfold, Hrow.
  erewrite bind_Ok by (by apply replace_row_in_place).
  set (stamped := set_updated_at _ obj). set (w1 := mkWorld _ _ _ _ _ _).
  assert (queryCollections w1 !! k = Some stamped) as Hk by apply lookup_insert_eq.
  case_decide as Ha; [done|].
  destruct (queryCollections w !! getAlternateCollectionID k) as [other|]; [|done].
  unfold replace_row, table_replace, mbind, M_bind, bind, storage_now. simpl.
  case_decide as Hplace; simpl.
  - by rewrite lookup_insert_ne, lookup_insert_eq.
  - unfold table_add. simpl.
    destruct (c_id obj) as [j|]; simpl; [|apply lookup_insert_eq].
    destruct (decide (j = k)) as [->|Hj].
    + rewrite lookup_insert_eq. simpl. apply lookup_insert_eq.
    + rewrite lookup_insert_ne by done.
      destruct (queryCollections w !! j); simpl; [apply lookup_insert_eq|].
      by rewrite lookup_delete_ne, lookup_insert_ne, lookup_insert_eq.
Qed.

(** The state a computation leaves does not depend on a pure last step. *)
Lemma bind_ret_state {A B} (m : M A) (g : A → B) (w : World) :
  ((a ← m; mret (g a)) w).2 = (m w).2.
Proof. unfold mbind, M_bind, bind. by destruct (m w) as [[a|e] w']. Qed.

Lemma apply_server_query_id sc m sq : c_id (apply_server_query sc m sq) = c_id m.
Proof. done. Qed.

Lemma apply_server_queries_id sc m : c_id (apply_server_queries sc m) = c_id m.
Proof.
  unfold apply_server_queries. revert m.
  induction (rc_queries sc) as [|sq sqs IH]; intros m; simpl; [done|].
  by rewrite IH.
Qed.

(** With at least one server query the title is the remote name. *)
Lemma apply_server_queries_title sc m :
  rc_queries sc ≠ [] → c_title (apply_server_queries sc m) = rc_collectionName sc.
Proof.
  unfold apply_server_queries.
  destruct (rc_queries sc) as [|sq sqs] using rev_ind; [done|]. intros _.
  by rewrite fold_left_app.
Qed.

(** Without server queries nothing is applied, the title included. *)
Lemma apply_server_queries_none sc m :
  rc_queries sc = [] → apply_server_queries sc m = m.
Proof. unfold apply_server_queries. by intros ->. Qed.

Lemma server_is_newer_spec (s l : option Z) :
  server_is_newer s l = true ↔
  ∃ ts tl, getTime s = Some ts ∧ getTime l = Some tl ∧ tl + 120000 < ts.
Proof.
  unfold server_is_newer.
  destruct (getTime s) as [ts|], (getTime l) as [tl|]; split;
    try (intros (? & ? & ? & ? & ?); done); try done.
  - intros H%bool_decide_eq_true. eauto.
  - intros (? & ? & [= <-] & [= <-] & H). by apply bool_decide_eq_true.
Qed.

(** Whatever the dates are (invalid ones included), a comparison that the
    server does not win writes nothing. *)
Lemma sync_not_newer_writes_nothing (localCollections : list IQueryCollection)
    (serverCollection : ServerCollection) (w : World) (i : nat) (m : IQueryCollection) :
  find_matched (rc_id serverCollection) localCollections = Some (i, m) →
  server_is_newer (rc_updatedAt serverCollection) (c_updated_at m) = false →
  sync_server_collection localCollections serverCollection w = (Ok localCollections, w).
Proof. intros Hfind Hnewer. unfold sync_server_collection. by rewrite Hfind, Hnewer. Qed.

(** *** What the server queries make of the matched collection *)

Lemma fold_apply_server_query sc (serverQueries : list ServerQuery) :
  ∀ m, fold_left (apply_server_query sc) serverQueries m
       = mkCollection (c_id m)
           (match serverQueries with [] => c_title m | _ => rc_collectionName sc end)
           (map (λ query, fold_left apply_to_query serverQueries query) (c_queries m))
           (c_parentPath m) (c_serverId m) (c_created_at m) (c_updated_at m).
Proof.
  induction serverQueries as [|sq sqs IH]; intros m.
  - simpl. rewrite map_id. by destruct m.
  - cbn [fold_left]. rewrite IH. simpl. rewrite map_map. f_equal. by destruct sqs.
Qed.

Lemma fold_apply_to_query_other (serverQueries : list ServerQuery) (query : IQuery)
    (sid : string) :
  q_serverId query = Some sid → sid ∉ map rq_id serverQueries →
  fold_left apply_to_query serverQueries query = query.
Proof.
  intros Hsid. induction serverQueries as [|sq sqs IH]; intros Hnot; [done|].
  cbn [fold_left]. unfold apply_to_query at 2.
  rewrite decide_False.
  - apply IH. intros Hin. apply Hnot. by apply list_elem_of_further.
  - rewrite Hsid. intros [= ->]. apply Hnot. apply list_elem_of_here.
Qed.

Lemma fold_apply_to_query_merged (serverQueries : list ServerQuery) :
  NoDup (map rq_id serverQueries) →
  ∀ query, fold_left apply_to_query serverQueries query = merged_query serverQueries query.
Proof.
  induction serverQueries as [|sq sqs IH]; intros Hids query; [done|].
  apply NoDup_cons in Hids as [Hsq Hids].
  cbn [fold_left]. unfold merged_query. cbn [List.find].
  unfold apply_to_query at 2. case_decide as Hmatch.
  - rewrite bool_decide_eq_true_2 by done.
    unfold server_is_newer, timestampDiffOffset.
    change (2 * 60 * 1000) with 120000.
    destruct (getTime (rq_updatedAt sq)) as [ts|], (getTime (q_updated_at query)) as [tl|];
      try (by apply (fold_apply_to_query_other _ _ (rq_id sq))).
    case_bool_decide; by apply (fold_apply_to_query_other _ _ (rq_id sq)).
  - rewrite bool_decide_eq_false_2 by done. by apply IH.
Qed.

Lemma apply_server_queries_merged sc (m : IQueryCollection) :
  rc_queries sc ≠ [] → NoDup (map rq_id (rc_queries sc)) →
  apply_server_queries sc m = merged_collection sc m.
Proof.
  intros Hsome Hids. unfold apply_server_queries, merged_collection.
  rewrite fold_apply_server_query.
  destruct (rc_queries sc) as [|sq sqs] eqn:Hqs; [done|]. f_equal.
  apply map_ext. intros query. by apply fold_apply_to_query_merged.
Qed.

(** C2. One turn of the loop of [syncRemoteToLocal], for a remote collection
    whose id is the [serverId] of the local collection [m] (dates valid, a
    row stored under the id [k] of [m]):
    - when the remote [updatedAt] is not more than 2 minutes (120000 ms)
      after [m.updated_at], nothing at all is written: the table and the
      local array are as before;
    - when it is, and the remote collection holds queries (with ids of
      their own), the row under [k] becomes [m] merged with the remote
      collection and stamped with [storage.now()]: it takes the remote name
      as title; a local query takes the remote content only if the server
      holds a query under its [serverId] that was itself updated more than
      2 minutes after it; every other local query is kept and no query is
      added or removed.  Rows under other ids are left alone, and with no
      row under the alternate of [k] the turn resolves and the local array
      holds the written object;
    in particular the row is rewritten in this way at 3 minutes and
    untouched at 1 minute. *)
Theorem sync_replaces_only_beyond_tolerance (localCollections : list IQueryCollection)
    (serverCollection : ServerCollection) (w : World) (i : nat)
    (m : IQueryCollection) (k : CollectionID) (tl ts : Z)
    (Hfind : find_matched (rc_id serverCollection) localCollections = Some (i, m))
    (Hk : c_id m = Some k)
    (Htruthy : truthy_id (Some k) = true)
    (Hrow : is_Some (queryCollections w !! k))
    (Hl : getTime (c_updated_at m) = Some tl)
    (Hs : getTime (rc_updatedAt serverCollection) = Some ts) :
  let run := sync_server_collection localCollections serverCollection w in
  let written := set_updated_at (Some (now_src w (now_drawn w)))
                   (merged_collection serverCollection m) in
  let rewritten :=
    queryCollections run.2 !! k = Some written ∧
    (∀ j, j ≠ k → j ≠ getAlternateCollectionID k →
          queryCollections run.2 !! j = queryCollections w !! j) ∧
    (queryCollections w !! getAlternateCollectionID k = None →
       run.1 = Ok (<[i := written]> localCollections)) in
  (ts ≤ tl + 120000 → run = (Ok localCollections, w)) ∧
  (tl + 120000 < ts →
     rc_queries serverCollection ≠ [] → NoDup (map rq_id (rc_queries serverCollection)) →
     rewritten) ∧
  (ts = tl + 180000 →
     rc_queries serverCollection ≠ [] → NoDup (map rq_id (rc_queries serverCollection)) →
     rewritten) ∧
  (ts = tl + 60000 → run = (Ok localCollections, w)).
Proof.
  intros run written rewritten.
  assert (ts ≤ tl + 120000 → run = (Ok localCollections, w)) as Hkeep.
  { intros Hle. subst run. unfold sync_server_collection. rewrite Hfind.
    unfold server_is_newer. rewrite Hs, Hl. unfold timestampDiffOffset.
    rewrite bool_decide_eq_false_2 by lia. done. }
  assert (tl + 120000 < ts →
     rc_queries serverCollection ≠ [] → NoDup (map rq_id (rc_queries serverCollection)) →
     rewritten) as Hrep.
  { intros Hlt Hsome Hids. subst rewritten run written.
    unfold sync_server_collection. rewrite Hfind.
    unfold server_is_newer. rewrite Hs, Hl. unfold timestampDiffOffset.
    rewrite bool_decide_eq_true_2 by lia.
    rewrite apply_server_queries_id, Hk, Htruthy.
    rewrite (apply_server_queries_merged _ _ Hsome Hids).
    assert (c_id (merged_collection serverCollection m) = Some k) as Hid by done.
    rewrite bind_ret_state.
    destruct (updateLocalCollection_at_key k (merged_collection serverCollection m) w
                Hrow Hid) as [Hat Hother].
    split_and!; [done|done|].
    intros Halt. destruct Hrow as [old Hrow].
    erewrite bind_Ok by (apply (updateLocalCollection_single _ _ old); auto).
    done. }
  split_and!; [done|done| |].
  - intros ->. apply Hrep. lia.
  - intros ->. apply Hkeep. lia.
Qed.

Lemma sync_replaces_only_beyond_tolerance_witness :
  let w := logged_in_world {[ IdStr "a" := local_at_10 ]} [remote_at 780000] in
  let written :=
    mkCollection (Some (IdStr "a")) "Remote title"
      [mkQuery (Some "q") (Some "rq1") (Some "Window") (Some "{ remote }")
         (Some 780000) (Some 780000)]
      (Some "") (Some "rc1") (Some 600000) (Some 1000000) in
  queryCollections (sync_server_collection [local_at_10] (remote_at 780000) w).2 !! IdStr "a"
    = Some written ∧
  (sync_server_collection [local_at_10] (remote_at 780000) w).1 = Ok [written] ∧
  sync_server_collection [local_at_10] (remote_at 660000) w = (Ok [local_at_10], w).
Proof.
  intros w written.
  destruct (sync_replaces_only_beyond_tolerance [local_at_10] (remote_at 780000) w
              0 local_at_10 (IdStr "a") 600000 780000)
    as (_ & _ & H3 & _); try reflexivity.
  { exists local_at_10. reflexivity. }
  destruct (sync_replaces_only_beyond_tolerance [local_at_10] (remote_at 660000) w
              0 local_at_10 (IdStr "a") 600000 660000)
    as (_ & _ & _ & H1); try reflexivity.
  { exists local_at_10. reflexivity. }
  destruct H3 as (Hrow & _ & Hres).
  - reflexivity.
  - simpl. discriminate.
  - simpl. apply NoDup_singleton.
  - split_and!; [exact Hrow|apply Hres; reflexivity|apply H1; reflexivity].
Defined.

(** A remote collection updated 3 minutes after the matched local
    collection, holding one query that the local collection holds too, edited
    locally 80 seconds before the server's version: the remote side wins the
    comparison of the collections and the row is rewritten with the remote
    title, but the query keeps its local content: the local collection is
    not replaced with the remote queries. *)
Theorem sync_newer_remote_keeps_recent_local_query :
  let remote := remote_at 780000 in
  let w := logged_in_world {[ IdStr "a" := local_with_recent_query ]} [remote] in
  server_is_newer (rc_updatedAt remote) (c_updated_at local_with_recent_query) = true ∧
  (syncRemoteToLocal w).1 = Ok tt ∧
  queryCollections (syncRemoteToLocal w).2 !! IdStr "a"
    = Some (mkCollection (Some (IdStr "a")) "Remote title"
              [synced_query "rq1" "Window" 700000]
              (Some "") (Some "rc1") (Some 600000) (Some 1000000)) ∧
  q_content (synced_query "rq1" "Window" 700000) = Some "{ local }" ∧
  map (q_content ∘ rq_content) (rc_queries remote) = [Some "{ remote }"].
Proof. vm_compute. done. Qed.

(** The scenario end to end: the remote collection updated 3 minutes after
    the local one replaces its title and its query; updated 1 minute after,
    it leaves the table as it is. *)
Example syncRemoteToLocal_three_minutes :
  let w := logged_in_world {[ IdStr "a" := local_at_10 ]} [remote_at 780000] in
  (syncRemoteToLocal w).1 = Ok tt ∧
  queryCollections (syncRemoteToLocal w).2 !! IdStr "a"
    = Some (mkCollection (Some (IdStr "a")) "Remote title"
              [mkQuery (Some "q") (Some "rq1") (Some "Window") (Some "{ remote }")
                 (Some 780000) (Some 780000)]
              (Some "") (Some "rc1") (Some 600000) (Some 1000000)).
Proof. vm_compute. done. Qed.

Example syncRemoteToLocal_one_minute :
  let w := logged_in_world {[ IdStr "a" := local_at_10 ]} [remote_at 660000] in
  (syncRemoteToLocal w).1 = Ok tt ∧
  queryCollections (syncRemoteToLocal w).2 !! IdStr "a" = Some local_at_10 ∧
  now_drawn (syncRemoteToLocal w).2 = now_drawn w.
Proof. vm_compute. done. Qed.

(** C3. A remote collection that holds no query, updated 3 minutes after the
    matched local collection: the remote side wins the comparison and the
    local row is replaced (its [updated_at] is stamped), but its title is
    still the local one, not the remote name: the title is assigned inside
    the loop over the server queries, which does not run. *)
Theorem sync_keeps_title_without_server_queries :
  let remote := remote_without_queries 780000 in
  let w := logged_in_world {[ IdStr "a" := local_at_10 ]} [remote] in
  server_is_newer (rc_updatedAt remote) (c_updated_at local_at_10) = true ∧
  (syncRemoteToLocal w).1 = Ok tt ∧
  queryCollections (syncRemoteToLocal w).2 !! IdStr "a"
    = Some (set_updated_at (Some 1000000) local_at_10) ∧
  c_title (set_updated_at (Some 1000000) local_at_10) = "Local title" ∧
  rc_collectionName remote = "Remote title".
Proof. vm_compute. done. Qed.

(** What holds of the title: with at least one server query, a remote win
    stores the remote name as the title of the matched row. *)
Lemma sync_adopts_title_with_server_queries (localCollections : list IQueryCollection)
    (serverCollection : ServerCollection) (w : World) (i : nat)
    (m : IQueryCollection) (k : CollectionID) :
  find_matched (rc_id serverCollection) localCollections = Some (i, m) →
  c_id m = Some k → truthy_id (Some k) = true →
  is_Some (queryCollections w !! k) →
  server_is_newer (rc_updatedAt serverCollection) (c_updated_at m) = true →
  rc_queries serverCollection ≠ [] →
  c_title <$> queryCollections (sync_server_collection localCollections serverCollection w).2 !! k
    = Some (rc_collectionName serverCollection).
Proof.
  intros Hfind Hk Htruthy Hrow Hnewer Hqs.
  unfold sync_server_collection. rewrite Hfind, Hnewer.
  rewrite apply_server_queries_id, Hk, Htruthy.
  rewrite bind_ret_state.
  destruct (updateLocalCollection_at_key k (apply_server_queries serverCollection m) w Hrow)
    as [Hat _]; [by rewrite apply_server_queries_id|].
  rewrite Hat. simpl. by rewrite apply_server_queries_title.
Qed.

(** ** Building trees *)

Example split_path : split "/" "/a/b" = [""; "a"; "b"].
Proof. reflexivity. Qed.

Example split_empty : split "/" "" = [""].
Proof. reflexivity. Qed.

Example getParentCollectionId_last :
  getParentCollectionId (child_collection (IdStr "c") "C" "/a/b") = Some "b".
Proof. reflexivity. Qed.

(** C4. A single collection whose [parentPath] is ["/a"], with no collection
    ["a"] in the list: [getCollectionTrees] resolves, a node is made for it,
    but it is pushed nowhere: the forest has no root and no tree, and the
    collection is absent from what the forest flattens to. *)
Theorem getCollectionTrees_drops_orphan :
  let orphan := child_collection (IdStr "b") "B" "/a" in
  getParentCollectionId orphan = Some "a" ∧
  getCollectionTrees [orphan]
    = Ok (mkForest [] {[ "b" := mkNode orphan [] ]}) ∧
  (∀ forest, getCollectionTrees [orphan] = Ok forest →
     roots forest = [] ∧ forest_trees forest = Some [] ∧
     forest_collections forest = Some []).
Proof.
  intros orphan. split; [done|]. split; [by vm_compute|].
  intros forest. vm_compute. by intros [= <-].
Qed.

(** ** Importing a document *)

Lemma tree_ind (P : IQueryCollectionTree → Prop) :
  (∀ rootCollection collections,
     Forall P collections → P (Tree rootCollection collections)) →
  ∀ tree, P tree.
Proof.
  intros H. fix IH 1. intros [r cs]. apply H.
  induction cs as [|c cs IHcs]; constructor; [apply IH | apply IHcs].
Qed.

Lemma relabel_unfold ids r cs n :
  relabel ids (Tree r cs) n
    = Tree (set_id (Some (IdStr (ids n))) r) (relabel_all ids cs (S n)).
Proof.
  simpl. f_equal. generalize (S n). induction cs as [|c cs IH]; intros m; simpl; [done|].
  by rewrite IH.
Qed.

Lemma parent_positions_unfold here parent r cs :
  parent_positions here parent (Tree r cs)
    = parent :: parent_positions_all here cs (S here).
Proof.
  simpl. f_equal. generalize (S here). induction cs as [|c cs IH]; intros m; simpl; [done|].
  by rewrite IH.
Qed.

Lemma after_uuids_0 w : after_uuids 0 w = w.
Proof. destruct w. unfold after_uuids. simpl. by rewrite Nat.add_0_r. Qed.

Lemma after_uuids_add a b w : after_uuids b (after_uuids a w) = after_uuids (a + b) w.
Proof. unfold after_uuids. simpl. by rewrite Nat.add_assoc. Qed.

Lemma uuid_run w : uuid w = (Ok (uuid_src w (uuid_drawn w)), after_uuids 1 w).
Proof. unfold uuid, after_uuids. by rewrite Nat.add_1_r. Qed.

(** The import is the export of the relabelled document: the list
    [remapCollectionIDsToCollectionList] resolves to is what
    [getCollectionListFromTree] gives for the document with the drawn ids in
    place of its own, and one id is drawn per node. *)
Lemma remapCollectionIDsToCollectionList_run tree :
  ∀ parentPath w,
    remapCollectionIDsToCollectionList tree parentPath w
      = (Ok (getCollectionListFromTree (relabel (uuid_src w) tree (uuid_drawn w)) parentPath),
         after_uuids (tree_size tree) w).
Proof.
  induction tree as [r cs IH] using tree_ind. intros p w.
  rewrite relabel_unfold.
  cbn [remapCollectionIDsToCollectionList getCollectionListFromTree tree_size].
  erewrite bind_Ok by apply uuid_run.
  set (p' := p +:+ COLLECTION_PATH_SEPARATOR
               +:+ template (c_id (set_id (Some (IdStr (uuid_src w (uuid_drawn w)))) r))).
  assert (∀ w0, uuid_src w0 = uuid_src w →
            mapM (λ ct, remapCollectionIDsToCollectionList ct p') cs w0
            = (Ok (map (λ ct, getCollectionListFromTree ct p')
                       (relabel_all (uuid_src w) cs (uuid_drawn w0))),
               after_uuids (forest_size cs) w0)) as Hcs.
  { clear -IH. induction IH as [|c cs Hc _ IHcs]; intros w0 Hsrc.
    - simpl. by rewrite after_uuids_0.
    - cbn [mapM relabel_all map forest_size list_sum].
      erewrite bind_Ok by apply Hc.
      erewrite bind_Ok by (apply IHcs; exact Hsrc).
      simpl. rewrite Hsrc. unfold after_uuids. simpl.
      replace (uuid_drawn w0 + forest_size (c :: cs))%nat
        with (uuid_drawn w0 + tree_size c + forest_size cs)%nat
        by (unfold forest_size; simpl; lia).
      done. }
  erewrite bind_Ok by (apply Hcs; reflexivity).
  simpl. unfold after_uuids. simpl.
  replace (uuid_drawn w + 1 + forest_size cs)%nat
    with (uuid_drawn w + S (list_sum (map tree_size cs)))%nat
    by (unfold forest_size; lia).
  by rewrite Nat.add_1_r.
Qed.

Lemma length_getCollectionListFromTree tree :
  ∀ p, length (getCollectionListFromTree tree p) = tree_size tree.
Proof.
  induction tree as [r cs IH] using tree_ind. intros p. simpl. f_equal.
  generalize (p +:+ COLLECTION_PATH_SEPARATOR +:+ template (c_id r)). intros p'.
  induction IH as [|c cs Hc _ IHcs]; simpl; [done|].
  by rewrite length_app, Hc, IHcs.
Qed.

Lemma tree_size_relabel ids tree : ∀ n, tree_size (relabel ids tree n) = tree_size tree.
Proof.
  induction tree as [r cs IH] using tree_ind. intros n. rewrite relabel_unfold.
  simpl. f_equal. generalize (S n).
  induction IH as [|c cs Hc _ IHcs]; intros m; simpl; [done|].
  by rewrite Hc, IHcs.
Qed.

Lemma length_parent_positions tree :
  ∀ here parent, length (parent_positions here parent tree) = tree_size tree.
Proof.
  induction tree as [r cs IH] using tree_ind. intros here parent.
  rewrite parent_positions_unfold. simpl. f_equal. generalize (S here).
  induction IH as [|c cs Hc _ IHcs]; intros m; simpl; [done|].
  by rewrite length_app, Hc, IHcs.
Qed.

(** The ids of an import are the ids drawn, in pre-order. *)
Lemma import_ids ids tree :
  ∀ n p,
    map c_id (getCollectionListFromTree (relabel ids tree n) p)
      = map (λ j, Some (IdStr (ids j))) (seq n (tree_size tree)).
Proof.
  induction tree as [r cs IH] using tree_ind. intros n p. rewrite relabel_unfold.
  cbn [getCollectionListFromTree tree_size map seq]. f_equal.
  generalize (p +:+ COLLECTION_PATH_SEPARATOR
                +:+ template (c_id (set_id (Some (IdStr (ids n))) r))). intros p'.
  generalize (S n).
  induction IH as [|c cs Hc _ IHcs]; intros m; simpl; [done|].
  rewrite map_app, Hc, IHcs, seq_app, map_app. done.
Qed.

(** Apart from [id] and [parentPath] an import holds the collections of the
    document, in pre-order. *)
Lemma import_fields ids tree :
  ∀ n p,
    map without_identity (getCollectionListFromTree (relabel ids tree n) p)
      = map without_identity (preorder tree).
Proof.
  induction tree as [r cs IH] using tree_ind. intros n p. rewrite relabel_unfold.
  cbn [getCollectionListFromTree preorder map]. f_equal.
  generalize (p +:+ COLLECTION_PATH_SEPARATOR
                +:+ template (c_id (set_id (Some (IdStr (ids n))) r))). intros p'.
  generalize (S n).
  induction IH as [|c cs Hc _ IHcs]; intros m; simpl; [done|].
  rewrite !map_app. by rewrite Hc, IHcs.
Qed.

(** The ids a document carries play no part in its import. *)
Lemma relabel_forget_ids ids tree :
  ∀ n, relabel ids (forget_ids tree) n = relabel ids tree n.
Proof.
  induction tree as [r cs IH] using tree_ind. intros n.
  cbn [forget_ids]. rewrite !relabel_unfold. f_equal. generalize (S n).
  induction IH as [|c cs Hc _ IHcs]; intros m; simpl; [done|].
  rewrite Hc, IHcs. do 3 f_equal.
  clear. revert c. fix IHt 1. intros [r cs]. simpl. f_equal.
  induction cs as [|c cs IHcs]; simpl; [done|]. by rewrite IHt, IHcs.
Qed.

(** Every element of an import has the path of the children of the element
    at its parent's position: the generalisation to a subtree that starts
    at position [here] of a list, after [before]. *)
Lemma import_linked_subtree ids tree :
  ∀ n p here parent before,
    length before = here →
    match parent with
    | Some j => ∃ pc, before !! j = Some pc ∧ p = children_path pc
    | None => True
    end →
    ∀ i c q,
      getCollectionListFromTree (relabel ids tree n) p !! i = Some c →
      parent_positions here parent tree !! i = Some q →
      match q with
      | Some j =>
          ∃ pc, (before ++ getCollectionListFromTree (relabel ids tree n) p) !! j = Some pc ∧
                (j < here + i)%nat ∧ c_parentPath c = Some (children_path pc)
      | None => parent = None ∧ c_parentPath c = Some p
      end.
Proof.
  induction tree as [r cs IH] using tree_ind.
  intros n p here parent before Hlen Hparent i c q.
  rewrite relabel_unfold, parent_positions_unfold.
  cbn [getCollectionListFromTree].
  set (root' := set_parentPath (Some p) (set_id (Some (IdStr (ids n))) r)).
  set (p' := p +:+ COLLECTION_PATH_SEPARATOR
               +:+ template (c_id (set_id (Some (IdStr (ids n))) r))).
  assert (p' = children_path root') as Hp' by done.
  destruct i as [|i]; simpl.
  - intros [= <-] [= <-]. destruct parent as [j|]; [|done].
    destruct Hparent as (pc & Hpc & ->). exists pc. split_and!.
    + by apply lookup_app_l_Some.
    + apply lookup_lt_Some in Hpc. lia.
    + done.
  - intros Hc Hq.
    assert (∀ m pos before',
              length before' = pos → before' !! here = Some root' →
              ∀ i c q,
                concat (map (λ ct, getCollectionListFromTree ct p')
                          (relabel_all ids cs m)) !! i = Some c →
                parent_positions_all here cs pos !! i = Some q →
                ∃ j pc, q = Some j ∧
                  (before' ++ concat (map (λ ct, getCollectionListFromTree ct p')
                                        (relabel_all ids cs m))) !! j = Some pc ∧
                  (j < pos + i)%nat ∧ c_parentPath c = Some (children_path pc)) as Hall.
    { clear Hc Hq i c q. induction IH as [|c0 cs Hc0 _ IHcs];
        intros m pos before' Hlen' Hroot i c q; simpl; [done|].
      intros Hc Hq.
      assert (length (getCollectionListFromTree (relabel ids c0 m) p') = tree_size c0)
        as Hl1 by (by rewrite length_getCollectionListFromTree, tree_size_relabel).
      pose proof (length_parent_positions c0 pos (Some here)) as Hl2.
      destruct (decide (i < tree_size c0)%nat) as [Hi|Hi].
      - rewrite lookup_app_l in Hc by lia. rewrite lookup_app_l in Hq by lia.
        specialize (Hc0 m p' pos (Some here) before' Hlen'
                      (ex_intro _ root' (conj Hroot Hp')) i c q Hc Hq).
        destruct q as [j|]; [|by destruct Hc0].
        destruct Hc0 as (pc & Hpc & Hj & Hpath).
        exists j, pc. split_and!; [done| |done|done].
        rewrite app_assoc. by apply lookup_app_l_Some.
      - rewrite lookup_app_r in Hc by lia. rewrite lookup_app_r in Hq by lia.
        rewrite Hl1 in Hc. rewrite Hl2 in Hq.
        destruct (IHcs (m + tree_size c0)%nat (pos + tree_size c0)%nat
                    (before' ++ getCollectionListFromTree (relabel ids c0 m) p'))
          with (i := (i - tree_size c0)%nat) (c := c) (q := q)
          as (j & pc & -> & Hpc & Hj & Hpath); try done.
        + rewrite length_app. lia.
        + by apply lookup_app_l_Some.
        + exists j, pc. split_and!; [done| |lia|done].
          by rewrite <- app_assoc in Hpc. }
    destruct (Hall (S n) (S here) (before ++ [root'])) with (i := i) (c := c) (q := q)
      as (j & pc & -> & Hpc & Hj & Hpath); try done.
    + rewrite length_app. simpl. lia.
    + rewrite lookup_app_r by lia. by replace (here - length before)%nat with 0%nat by lia.
    + exists pc. split_and!; [|lia|done].
      by rewrite <- app_assoc in Hpc.
Qed.

(** [children_path]: each element of an import, the first apart, has the
    path its parent in the import gives to its children, and that path ends
    in the id the import gave to the parent. *)
Lemma import_linked ids tree n p :
  linked p (parent_positions 0 None tree)
    (getCollectionListFromTree (relabel ids tree n) p).
Proof.
  split.
  - by rewrite length_getCollectionListFromTree, tree_size_relabel, length_parent_positions.
  - intros i c q Hc Hq.
    pose proof (import_linked_subtree ids tree n p 0 None [] eq_refl I i c q Hc Hq) as H.
    destruct q as [j|]; [|by destruct H].
    destruct H as (pc & Hpc & Hj & Hpath). exists pc. split_and!; [done|lia|done].
Qed.

Lemma tally_inj i j : tally i = tally j → i = j.
Proof.
  revert j. induction i as [|i IH]; intros [|j]; simpl; try done.
  intros [= H]. f_equal. by apply IH.
Qed.

Lemma seq_ranges_disjoint (f : nat → option CollectionID) n k x :
  (∀ i j, f i = f j → i = j) →
  x ∈ map f (seq n k) → x ∉ map f (seq (n + k) k).
Proof.
  intros Hf [i [-> Hi]]%list_elem_of_fmap [j [Hj Hj']]%list_elem_of_fmap.
  apply Hf in Hj. subst j.
  apply list_elem_of_In, in_seq in Hi. apply list_elem_of_In, in_seq in Hj'. lia.
Qed.

(** C6. Importing a document twice, with a [uuid()] that never returns the
    same value twice:
    - each import resolves and draws one id per node; the ids of its list
      are exactly the ids drawn, in pre-order, all distinct;
    - no id of the first list is an id of the second;
    - apart from [id] and [parentPath] the two lists are equal element by
      element (titles, queries and the rest, those of the document);
    - in both lists the same positions are parent of the same positions,
      and the [parentPath] of each element is the path of its parent in the
      same list followed by ["/"] and the id the import gave to that parent;
    - the ids the document carried do not matter: the document with its ids
      removed gives the same import. *)
Theorem import_twice_same_structure_fresh_ids (tree : IQueryCollectionTree)
    (parentPath : string) (w : World)
    (Hfresh : ∀ i j, uuid_src w i = uuid_src w j → i = j) :
  let size := tree_size tree in
  let w1 := after_uuids size w in
  let w2 := after_uuids size w1 in
  ∃ l1 l2,
    remapCollectionIDsToCollectionList tree parentPath w = (Ok l1, w1) ∧
    remapCollectionIDsToCollectionList tree parentPath w1 = (Ok l2, w2) ∧
    map c_id l1 = map (λ j, Some (IdStr (uuid_src w j))) (seq (uuid_drawn w) size) ∧
    map c_id l2 = map (λ j, Some (IdStr (uuid_src w j))) (seq (uuid_drawn w + size) size) ∧
    NoDup (map c_id l1) ∧ NoDup (map c_id l2) ∧
    (∀ i, i ∈ map c_id l1 → i ∉ map c_id l2) ∧
    map without_identity l1 = map without_identity l2 ∧
    linked parentPath (parent_positions 0 None tree) l1 ∧
    linked parentPath (parent_positions 0 None tree) l2 ∧
    remapCollectionIDsToCollectionList (forget_ids tree) parentPath w = (Ok l1, w1).
Proof.
  intros size w1 w2.
  assert (∀ i j : nat, Some (IdStr (uuid_src w i)) = Some (IdStr (uuid_src w j)) → i = j)
    as Hinj by (intros i j [= H]; by apply Hfresh).
  eexists _, _. split; [apply remapCollectionIDsToCollectionList_run|].
  split; [apply remapCollectionIDsToCollectionList_run|].
  change (uuid_src w1) with (uuid_src w).
  change (uuid_drawn w1) with (uuid_drawn w + size)%nat.
  rewrite !import_ids. fold size.
  split_and!; try done.
  - apply (@NoDup_fmap_2 _ _ _ Hinj), NoDup_ListNoDup, seq_NoDup.
  - apply (@NoDup_fmap_2 _ _ _ Hinj), NoDup_ListNoDup, seq_NoDup.
  - intros i. by apply seq_ranges_disjoint.
  - by rewrite !import_fields.
  - apply import_linked.
  - apply import_linked.
  - rewrite remapCollectionIDsToCollectionList_run, relabel_forget_ids.
    f_equal. subst w1 size. f_equal.
    clear. induction tree as [r cs IH] using tree_ind. simpl. f_equal.
    induction IH as [|c cs Hc _ IHcs]; simpl; [done|]. by rewrite Hc, IHcs.
Qed.

Lemma import_twice_same_structure_fresh_ids_witness :
  let w := sample_world ∅ in
  ∃ l1 l2,
    remapCollectionIDsToCollectionList sample_document "" w
      = (Ok l1, after_uuids 4 w) ∧
    remapCollectionIDsToCollectionList sample_document "" (after_uuids 4 w)
      = (Ok l2, after_uuids 4 (after_uuids 4 w)) ∧
    map c_parentPath l1 = [Some ""; Some "/-"; Some "/-/i-"; Some "/-"] ∧
    map c_parentPath l2 = [Some ""; Some "/iiii-"; Some "/iiii-/iiiii-"; Some "/iiii-"] ∧
    (∀ i, i ∈ map c_id l1 → i ∉ map c_id l2).
Proof.
  intros w.
  destruct (import_twice_same_structure_fresh_ids sample_document "" w)
    as (l1 & l2 & H1 & H2 & _ & _ & _ & _ & Hdisj & _).
  { intros i j. apply tally_inj. }
  exists l1, l2. split; [exact H1|]. split; [exact H2|]. split_and!; [| |exact Hdisj].
  - rewrite remapCollectionIDsToCollectionList_run in H1. by injection H1 as <-.
  - rewrite remapCollectionIDsToCollectionList_run in H2. by injection H2 as <-.
Defined.

(** ** The round trip through trees *)

(** *** Path segments *)

Lemma split_nonempty sep s : split sep s ≠ [].
Proof.
  destruct s as [|a s]; simpl; [done|].
  destruct (Ascii.eqb a sep); [done|]. by destruct (split sep s).
Qed.

Lemma split_app_separator a b :
  split "/" (a +:+ "/" +:+ b) = split "/" a ++ split "/" b.
Proof.
  induction a as [|x a IH]; [done|].
  change (String x a +:+ "/" +:+ b) with (String x (a +:+ "/" +:+ b)).
  cbn [split]. destruct (Ascii.eqb x "/"); [by rewrite IH|].
  rewrite IH. pose proof (split_nonempty "/" a). by destruct (split "/" a).
Qed.

Lemma split_segment k : has_separator k = false → split "/" k = [k].
Proof.
  induction k as [|x k IH]; simpl; [done|].
  intros [Hx Hk]%orb_false_iff. rewrite Hx. by rewrite (IH Hk).
Qed.

Lemma children_path_truthy p : truthy_str (Some (children_path p)) = true.
Proof.
  unfold children_path, truthy_str. destruct (default "" (c_parentPath p)); done.
Qed.

(** The parent id read off the path of the children of [p] is the key of
    [p]. *)
Lemma getParentCollectionId_children_path (p c : IQueryCollection) :
  is_segment (key_of p) →
  c_parentPath c = Some (children_path p) →
  getParentCollectionId c = Some (key_of p).
Proof.
  intros [Hne Hsep] Hc. unfold getParentCollectionId. rewrite Hc.
  unfold children_path, COLLECTION_PATH_SEPARATOR, key_of in *.
  rewrite split_app_separator, (split_segment _ Hsep), last_snoc.
  destruct (String.eqb_spec (template (c_id p)) ""); done.
Qed.

(** *** The two passes of [getCollectionTrees] *)

Lemma set_nodes_spec (l : list IQueryCollection) :
  ∀ m0,
    Forall (λ c, truthy_id (c_id c) = true) l →
    NoDup (map key_of l) →
    ∃ m, set_nodes l m0 = Ok m ∧
         (∀ c, c ∈ l →
               m !! key_of c = Some (mkNode (set_id (Some (IdStr (key_of c))) c) [])) ∧
         (∀ k, k ∉ map key_of l → m !! k = m0 !! k).
Proof.
  induction l as [|c l IH]; intros m0 Hids Hkeys.
  - exists m0. split_and!; [done| |done]. intros c Hc. by apply elem_of_nil in Hc.
  - apply Forall_cons in Hids as [Hc Hids]. simpl in Hkeys.
    apply NoDup_cons in Hkeys as [Hfresh Hkeys].
    destruct (IH (<[key_of c := mkNode (set_id (Some (IdStr (key_of c))) c) []]> m0)
                Hids Hkeys) as (m & Hrun & Hin & Hout).
    exists m. split_and!.
    + simpl. by rewrite Hc.
    + intros c' [->|Hc']%elem_of_cons; [|by apply Hin].
      rewrite (Hout _ Hfresh). apply lookup_insert_eq.
    + intros k Hk. simpl in Hk. apply not_elem_of_cons in Hk as [Hne Hk].
      rewrite (Hout _ Hk). by apply lookup_insert_ne.
Qed.

Lemma place_nodes_spec (l : list IQueryCollection) :
  ∀ forest,
    (∀ c, c ∈ l → is_Some (collectionMap forest !! key_of c)) →
    roots (fold_left place_node l forest)
      = roots forest ++ map key_of (List.filter is_root l) ∧
    ∀ k, collectionMap (fold_left place_node l forest) !! k
           = with_children l k <$> collectionMap forest !! k.
Proof.
  induction l as [|c l IH]; intros forest Hdom.
  - simpl. split; [by rewrite app_nil_r|].
    intros k. unfold with_children. simpl.
    destruct (collectionMap forest !! k) as [[f cs]|]; simpl; [|done].
    by rewrite app_nil_r.
  - cbn [fold_left].
    assert (∀ c', c' ∈ l → is_Some (collectionMap (place_node forest c) !! key_of c'))
      as Hdom'.
    { intros c' Hc'. specialize (Hdom c' (list_elem_of_further _ _ _ Hc')).
      unfold place_node. fold (key_of c).
      destruct (collectionMap forest !! key_of c); [|done].
      destruct (negb (truthy_str (c_parentPath c))); [done|].
      destruct (getParentCollectionId c) as [pid|]; [|done]. simpl.
      rewrite lookup_alter. case_decide; [subst|done].
      by apply fmap_is_Some. }
    destruct (IH _ Hdom') as [Hroots Hmap]. rewrite Hroots.
    specialize (Hdom c (list_elem_of_here _ _)) as [n Hn].
    unfold place_node in *. fold (key_of c) in *. rewrite Hn in *.
    unfold is_root, is_child_of. cbn [List.filter].
    destruct (truthy_str (c_parentPath c)) eqn:Hpath; simpl.
    + destruct (getParentCollectionId c) as [pid|] eqn:Hpid; simpl.
      * split; [done|]. intros k. rewrite Hmap. simpl. rewrite lookup_alter.
        unfold with_children, is_child_of. cbn [List.filter]. rewrite Hpath, Hpid. simpl.
        case_decide as Hk.
        -- subst k. rewrite bool_decide_eq_true_2 by done.
           destruct (collectionMap forest !! pid) as [[f cs]|]; simpl; [|done].
           by rewrite <- app_assoc.
        -- rewrite bool_decide_eq_false_2 by congruence. done.
      * rewrite <- app_assoc. split; [done|]. intros k. rewrite Hmap. simpl.
        unfold with_children, is_child_of. cbn [List.filter]. rewrite Hpath, Hpid. done.
    + rewrite <- app_assoc. split; [done|]. intros k. rewrite Hmap. simpl.
      unfold with_children, is_child_of. cbn [List.filter]. rewrite Hpath. done.
Qed.

Lemma elem_of_bool_filter {X} (f : X → bool) (l : list X) (x : X) :
  x ∈ List.filter f l ↔ x ∈ l ∧ f x = true.
Proof. by rewrite !list_elem_of_In, filter_In. Qed.

Lemma NoDup_bool_filter {X} (f : X → bool) (l : list X) :
  NoDup l → NoDup (List.filter f l).
Proof.
  induction 1 as [|x l Hx _ IH]; simpl; [constructor|].
  destruct (f x); [|done]. constructor; [|done].
  rewrite elem_of_bool_filter. by intros [? _].
Qed.

Lemma NoDup_fmap_elem_inj {X Y} (f : X → Y) (l : list X) (x y : X) :
  NoDup (map f l) → x ∈ l → y ∈ l → f x = f y → x = y.
Proof.
  induction l as [|a l IH]; simpl; [by intros _ ?%elem_of_nil|].
  intros [Ha Hl]%NoDup_cons [->|Hx]%elem_of_cons [Hy|Hy]%elem_of_cons Hxy; subst;
    try done.
  - destruct Ha. rewrite Hxy. apply list_elem_of_fmap. eauto.
  - destruct Ha. rewrite <- Hxy. apply list_elem_of_fmap. eauto.
  - by apply IH.
Qed.

Lemma length_le_size_map {V} (ks : list string) (m : gmap string V) :
  NoDup ks → (∀ k, k ∈ ks → is_Some (m !! k)) → (length ks ≤ size m)%nat.
Proof.
  revert m. induction ks as [|k ks IH]; intros m Hks Hin; simpl; [lia|].
  apply NoDup_cons in Hks as [Hk Hks].
  destruct (Hin k (list_elem_of_here _ _)) as [v Hv].
  rewrite <- (insert_delete_id m k v Hv), map_size_insert_None by apply lookup_delete_eq.
  apply le_n_S, IH; [done|]. intros k' Hk'.
  rewrite lookup_delete_ne by (intros ->; done).
  apply Hin. by apply list_elem_of_further.
Qed.

Lemma set_nodes_dom (l : list IQueryCollection) :
  ∀ m0,
    Forall (λ c, truthy_id (c_id c) = true) l →
    ∃ m, set_nodes l m0 = Ok m ∧
         (∀ c, c ∈ l → is_Some (m !! key_of c)) ∧
         (∀ k, is_Some (m0 !! k) → is_Some (m !! k)).
Proof.
  induction l as [|c l IH]; intros m0 Hids.
  - exists m0. split_and!; [done| |done]. by intros c ?%elem_of_nil.
  - apply Forall_cons in Hids as [Hc Hids].
    destruct (IH (<[key_of c := mkNode (set_id (Some (IdStr (key_of c))) c) []]> m0) Hids)
      as (m & Hrun & Hin & Hkeep).
    exists m. split_and!.
    + simpl. by rewrite Hc.
    + intros c' [->|Hc']%elem_of_cons; [|by apply Hin].
      apply Hkeep. rewrite lookup_insert_eq. by eexists.
    + intros k Hk. apply Hkeep. rewrite lookup_insert. by case_decide.
Qed.

(** The roots [getCollectionTrees] returns, for any list of collections
    with ids: the collections without [parentPath] (or with an empty last
    segment), in the order of the list, and no other: a collection whose
    parent is missing from the list is not among them. *)
Lemma getCollectionTrees_roots (l : list IQueryCollection) :
  Forall (λ c, truthy_id (c_id c) = true) l →
  ∃ forest, getCollectionTrees l = Ok forest ∧
            roots forest = map key_of (List.filter is_root l).
Proof.
  intros Hids. destruct (set_nodes_dom l ∅ Hids) as (m & Hm & Hin & _).
  unfold getCollectionTrees. rewrite Hm. eexists. split; [done|].
  by destruct (place_nodes_spec l (mkForest [] m) Hin) as [-> _].
Qed.

(** *** A list whose paths fit together *)

Section round_trip.
Variable L : list IQueryCollection.
Hypothesis Hids : Forall (λ c, truthy_id (c_id c) = true) L.
Hypothesis Hkeys : NoDup (map key_of L).
Hypothesis Hsegments : Forall (λ c, is_segment (key_of c)) L.
Hypothesis Hpaths : paths_consistent L.

Lemma key_of_inj c d : c ∈ L → d ∈ L → key_of c = key_of d → c = d.
Proof. by apply NoDup_fmap_elem_inj. Qed.

Lemma NoDup_L : NoDup L.
Proof. by apply (NoDup_fmap_1 key_of). Qed.

Lemma child_in_path p d :
  child_in L p d → c_parentPath d = Some (children_path p).
Proof.
  intros (Hp & Hd & [Hpath Hpid%bool_decide_eq_true]%andb_true_iff).
  destruct (Hpaths d Hd) as [Hroot|(p' & Hp' & Hd')]; [congruence|].
  rewrite Hd'. do 2 f_equal.
  apply key_of_inj; [done..|].
  rewrite (getParentCollectionId_children_path p' d) in Hpid; [congruence| |done].
  by eapply Forall_forall in Hsegments.
Qed.

Lemma child_in_longer p d : child_in L p d → (path_length p < path_length d)%nat.
Proof.
  intros H%child_in_path. unfold path_length. rewrite H. simpl.
  unfold children_path. rewrite !string_length_app. simpl. lia.
Qed.

Lemma child_in_parent_unique p p' d : child_in L p d → child_in L p' d → p = p'.
Proof.
  intros (Hp & _ & [_ H%bool_decide_eq_true]%andb_true_iff)
         (Hp' & _ & [_ H'%bool_decide_eq_true]%andb_true_iff).
  apply key_of_inj; [done..|]. congruence.
Qed.

(** A collection of the list is at the top, with the empty path, or has its
    parent in the list. *)
Lemma root_or_child d :
  d ∈ L →
  (is_root d = true ∧ default "" (c_parentPath d) = "") ∨ ∃ p, child_in L p d.
Proof.
  intros Hd. destruct (Hpaths d Hd) as [Hroot|(p & Hp & Hpath)].
  - left. unfold is_root. rewrite Hroot. split; [done|].
    unfold truthy_str in Hroot. destruct (c_parentPath d) as [s|]; [|done].
    simpl. by destruct (String.eqb_spec s "").
  - right. exists p. split_and!; [done..|].
    unfold is_child_of. rewrite Hpath, children_path_truthy. simpl.
    apply bool_decide_eq_true.
    apply getParentCollectionId_children_path; [|done].
    by eapply Forall_forall in Hsegments.
Qed.

Lemma is_root_top d : d ∈ L → is_root d = true → default "" (c_parentPath d) = "".
Proof.
  intros Hd Hroot. destruct (root_or_child d Hd) as [[_ H]|(p & _ & _ & Hc)]; [done|].
  unfold is_root, is_child_of in *.
  apply andb_true_iff in Hc as [Hc1 Hc2%bool_decide_eq_true].
  rewrite Hc1, Hc2 in Hroot. done.
Qed.

Lemma is_root_not_child p d : is_root d = true → ¬ child_in L p d.
Proof.
  intros Hroot (_ & _ & Hc). unfold is_root, is_child_of in *.
  apply andb_true_iff in Hc as [Hc1 Hc2%bool_decide_eq_true].
  rewrite Hc1, Hc2 in Hroot. done.
Qed.

(** The forest: the roots are the top collections in the order of the list,
    and the node of a collection holds the keys of its children in the order
    of the list. *)
Lemma getCollectionTrees_consistent :
  ∃ forest,
    getCollectionTrees L = Ok forest ∧
    roots forest = map key_of (List.filter is_root L) ∧
    ∀ c, c ∈ L →
      collectionMap forest !! key_of c
        = Some (mkNode (set_id (Some (IdStr (key_of c))) c)
                       (map key_of (List.filter (is_child_of (key_of c)) L))).
Proof.
  destruct (set_nodes_spec L ∅ Hids Hkeys) as (m & Hm & Hin & _).
  unfold getCollectionTrees. rewrite Hm. eexists. split; [done|].
  destruct (place_nodes_spec L (mkForest [] m)) as [Hroots Hmap].
  { intros c Hc. simpl. rewrite (Hin c Hc). by eexists. }
  split; [done|]. intros c Hc. by rewrite Hmap; simpl; rewrite (Hin c Hc).
Qed.

Lemma rank_lt_length c : c ∈ L → (rank L c < length L)%nat.
Proof. intros Hc. unfold rank. eapply length_filter_lt; [done|lia]. Qed.

Lemma child_in_rank p d : child_in L p d → (rank L p < rank L d)%nat.
Proof.
  intros Hc. pose proof (child_in_longer p d Hc) as Hlt. destruct Hc as (Hp & _ & _).
  unfold rank.
  assert (filter (λ x, path_length x < path_length p)%nat L
          = filter (λ x, path_length x < path_length p)%nat
              (filter (λ x, path_length x < path_length d)%nat L)) as ->.
  { rewrite list_filter_filter. apply list_filter_iff. intros x. lia. }
  apply (length_filter_lt _ _ p); [|lia].
  apply list_elem_of_filter. split; [lia|done].
Qed.

(** *** The trees of the forest *)

Section trees.
Variable nodes : gmap string TreeNode.
Hypothesis Hnodes :
  ∀ c, c ∈ L →
    nodes !! key_of c
      = Some (mkNode (set_id (Some (IdStr (key_of c))) c)
                     (map key_of (List.filter (is_child_of (key_of c)) L))).

Lemma children_are_children c j :
  c ∈ L → j ∈ List.filter (is_child_of (key_of c)) L ↔ child_in L c j.
Proof.
  intros Hc. rewrite elem_of_bool_filter. unfold child_in.
  split; [by intros [? ?]|by intros (_ & ? & ?)].
Qed.

Lemma tree_at_node fuel c t :
  c ∈ L → tree_at (S fuel) nodes (key_of c) = Some t →
  ∃ ts, t = Tree (set_id (Some (IdStr (key_of c))) c) ts ∧
        Forall2 (λ j t', tree_at fuel nodes (key_of j) = Some t')
                (List.filter (is_child_of (key_of c)) L) ts.
Proof.
  intros Hc. cbn [tree_at]. rewrite (Hnodes c Hc). simpl.
  destruct (mapM _ _) as [ts|] eqn:Hts; simpl; [|done]. intros [= <-].
  exists ts. split; [done|].
  apply mapM_Some in Hts. by apply Forall2_fmap_l in Hts.
Qed.

Lemma flatten_node c ts :
  getCollectionListFromTree (Tree (set_id (Some (IdStr (key_of c))) c) ts)
      (default "" (c_parentPath c))
    = exported c
      :: concat (map (λ t', getCollectionListFromTree t' (children_path c)) ts).
Proof. done. Qed.

Lemma elem_of_children_lists fuel js ts path e :
  Forall2 (λ j t', tree_at fuel nodes (key_of j) = Some t') js ts →
  e ∈ concat (map (λ t', getCollectionListFromTree t' path) ts) ↔
  ∃ j t', j ∈ js ∧ tree_at fuel nodes (key_of j) = Some t' ∧
          e ∈ getCollectionListFromTree t' path.
Proof.
  induction 1 as [|j t' js ts Hj _ IH]; simpl.
  - split; [by intros ?%elem_of_nil|]. by intros (? & ? & ?%elem_of_nil & _).
  - rewrite elem_of_app, IH. split.
    + intros [He|(j0 & t0 & Hj0 & Ht0 & He)].
      * exists j, t'. split_and!; [apply list_elem_of_here|done..].
      * exists j0, t0. split_and!; [by apply list_elem_of_further|done..].
    + intros (j0 & t0 & [->|Hj0]%elem_of_cons & Ht0 & He).
      * left. congruence.
      * right. eauto.
Qed.

(** Every element of the flattened tree of [c] is the export of a
    collection of the list that descends from [c]. *)
Lemma tree_elements fuel :
  ∀ c t e,
    c ∈ L → tree_at fuel nodes (key_of c) = Some t →
    e ∈ getCollectionListFromTree t (default "" (c_parentPath c)) →
    ∃ d, d ∈ L ∧ e = exported d ∧ rtc (child_in L) c d.
Proof.
  induction fuel as [|fuel IH]; intros c t e Hc Ht He; [done|].
  destruct (tree_at_node fuel c t Hc Ht) as (ts & -> & Hts).
  rewrite flatten_node in He. apply elem_of_cons in He as [->|He].
  - exists c. by split_and!.
  - apply (elem_of_children_lists fuel _ _ _ _ Hts) in He as (j & t' & Hj & Ht' & He).
    apply children_are_children in Hj; [|done].
    pose proof (child_in_path c j Hj) as Hpath.
    destruct (IH j t' e) as (d & Hd & -> & Hrtc); [by destruct Hj as (_ & ? & _)|done| |].
    + by rewrite Hpath.
    + exists d. split_and!; [done..|]. by eapply rtc_l.
Qed.

(** Every collection that descends from [c] is in the flattened tree of
    [c]. *)
Lemma tree_contains c d :
  rtc (child_in L) c d → c ∈ L →
  ∀ fuel t, tree_at fuel nodes (key_of c) = Some t →
            exported d ∈ getCollectionListFromTree t (default "" (c_parentPath c)).
Proof.
  induction 1 as [c|c j d Hj _ IH]; intros Hc fuel t Ht;
    (destruct fuel as [|fuel]; [done|]);
    destruct (tree_at_node fuel c t Hc Ht) as (ts & -> & Hts);
    rewrite flatten_node.
  - apply list_elem_of_here.
  - apply list_elem_of_further.
    pose proof (proj2 (children_are_children c j Hc) Hj) as Hin.
    apply list_elem_of_lookup in Hin as [i Hi].
    destruct (Forall2_lookup_l _ _ _ _ _ Hts Hi) as (t' & Hi' & Ht').
    apply (elem_of_children_lists fuel _ _ _ _ Hts).
    exists j, t'. split_and!; [by eapply list_elem_of_lookup_2|done|].
    pose proof (child_in_path c j Hj) as Hpath.
    assert (j ∈ L) as HjL by (by destruct Hj as (_ & ? & _)).
    specialize (IH HjL fuel t' Ht'). by rewrite Hpath in IH.
Qed.

(** With fuel for the collections that rank above [c], the tree of [c]
    exists. *)
Lemma tree_at_is_Some fuel :
  ∀ c, c ∈ L → (length L ≤ fuel + rank L c)%nat →
       is_Some (tree_at fuel nodes (key_of c)).
Proof.
  induction fuel as [|fuel IH]; intros c Hc Hfuel.
  - pose proof (rank_lt_length c Hc). lia.
  - cbn [tree_at]. rewrite (Hnodes c Hc). simpl.
    assert (is_Some (mapM (tree_at fuel nodes)
                       (map key_of (List.filter (is_child_of (key_of c)) L)))) as [ts ->].
    { apply mapM_is_Some, Forall_fmap, Forall_forall. intros j Hj.
      apply children_are_children in Hj; [|done]. simpl.
      apply IH; [by destruct Hj as (_ & ? & _)|].
      pose proof (child_in_rank c j Hj). lia. }
    by eexists.
Qed.

Lemma descends_longer c d :
  rtc (child_in L) c d →
  (path_length c ≤ path_length d)%nat ∧ (path_length c = path_length d → c = d).
Proof.
  induction 1 as [c|c j d Hj _ [IH _]]; [done|].
  pose proof (child_in_longer c j Hj). split; lia.
Qed.

(** Two collections with paths of the same length that have a common
    descendant are one collection: the ancestors of a collection form a
    chain. *)
Lemma same_level_ancestor a b d :
  rtc (child_in L) a d → rtc (child_in L) b d →
  path_length a = path_length b → a = b.
Proof.
  intros Ha. revert b. revert d Ha.
  apply (rtc_ind_r (λ d, ∀ b, rtc (child_in L) b d → path_length a = path_length b → a = b)).
  - intros b Hb Hlen. symmetry. by apply (descends_longer b a).
  - intros p d Hap Hpd IH b Hb Hlen. apply rtc_inv_r in Hb as [->|(p' & Hb & Hp'd)].
    + pose proof (descends_longer a p Hap) as [? _].
      pose proof (child_in_longer p d Hpd). lia.
    + rewrite (child_in_parent_unique p' p d Hp'd Hpd) in Hb. by apply IH.
Qed.

Lemma exported_inj c d : c ∈ L → d ∈ L → exported c = exported d → c = d.
Proof.
  intros Hc Hd H. apply key_of_inj; [done..|].
  apply (f_equal c_id) in H. simpl in H. congruence.
Qed.

(** The flattened trees of siblings share no element and together have no
    duplicate. *)
Lemma siblings_NoDup fuel js ts path :
  Forall2 (λ j t', tree_at fuel nodes (key_of j) = Some t') js ts →
  NoDup js →
  (∀ j, j ∈ js → j ∈ L ∧ default "" (c_parentPath j) = path) →
  (∀ j t', j ∈ js → tree_at fuel nodes (key_of j) = Some t' →
           NoDup (getCollectionListFromTree t' path)) →
  NoDup (concat (map (λ t', getCollectionListFromTree t' path) ts)).
Proof.
  induction 1 as [|j t' js ts Hj Hts IH]; intros Hnodup Hin Htrees; simpl; [constructor|].
  apply NoDup_cons in Hnodup as [Hfresh Hnodup].
  destruct (Hin j (list_elem_of_here _ _)) as [HjL Hjpath].
  apply NoDup_app. split_and!.
  - apply (Htrees j); [apply list_elem_of_here|done].
  - intros e He Hrest.
    apply (elem_of_children_lists fuel _ _ _ _ Hts) in Hrest as (j0 & t0 & Hj0 & Ht0 & He0).
    destruct (Hin j0 (list_elem_of_further _ _ _ Hj0)) as [Hj0L Hj0path].
    rewrite <- Hjpath in He. rewrite <- Hj0path in He0.
    destruct (tree_elements fuel j t' e HjL Hj He) as (d & Hd & -> & Hrtc).
    destruct (tree_elements fuel j0 t0 _ Hj0L Ht0 He0) as (d0 & Hd0 & Heq & Hrtc0).
    apply exported_inj in Heq; [subst d0|done..].
    assert (j = j0) as ->; [|done].
    apply (same_level_ancestor j j0 d); [done..|].
    unfold path_length. by rewrite Hjpath, Hj0path.
  - apply IH; [done| |].
    + intros j0 Hj0. apply Hin. by apply list_elem_of_further.
    + intros j0 t0 Hj0. apply Htrees. by apply list_elem_of_further.
Qed.

Lemma tree_NoDup fuel :
  ∀ c t, c ∈ L → tree_at fuel nodes (key_of c) = Some t →
         NoDup (getCollectionListFromTree t (default "" (c_parentPath c))).
Proof.
  induction fuel as [|fuel IH]; intros c t Hc Ht; [done|].
  destruct (tree_at_node fuel c t Hc Ht) as (ts & -> & Hts).
  rewrite flatten_node.
  assert (∀ j, j ∈ List.filter (is_child_of (key_of c)) L →
               j ∈ L ∧ default "" (c_parentPath j) = children_path c) as Hchildren.
  { intros j Hj%children_are_children; [|done].
    split; [by destruct Hj as (_ & ? & _)|]. by rewrite (child_in_path c j Hj). }
  apply NoDup_cons. split.
  - intros Hin.
    apply (elem_of_children_lists fuel _ _ _ _ Hts) in Hin as (j & t' & Hj & Ht' & He).
    destruct (Hchildren j Hj) as [HjL Hjpath]. rewrite <- Hjpath in He.
    destruct (tree_elements fuel j t' _ HjL Ht' He) as (d & Hd & Heq & Hrtc).
    apply exported_inj in Heq; [subst d|done..].
    apply children_are_children in Hj; [|done].
    pose proof (child_in_longer c j Hj). pose proof (descends_longer j c Hrtc) as [? _]. lia.
  - apply (siblings_NoDup fuel _ _ _ Hts).
    + apply NoDup_bool_filter, NoDup_L.
    + done.
    + intros j t' Hj Ht'. destruct (Hchildren j Hj) as [HjL Hjpath].
      rewrite <- Hjpath. by apply IH.
Qed.

End trees.

(** Every collection of the list descends from a top collection. *)
Lemma descends_from_root d :
  d ∈ L → ∃ r, r ∈ L ∧ is_root r = true ∧ rtc (child_in L) r d.
Proof.
  remember (path_length d) as n eqn:Hn. revert d Hn.
  induction n as [n IH] using lt_wf_ind. intros d -> Hd.
  destruct (root_or_child d Hd) as [[Hroot _]|(p & Hp)].
  - exists d. by split_and!.
  - pose proof (child_in_longer p d Hp) as Hlt.
    destruct (IH _ Hlt p eq_refl) as (r & Hr & Hroot & Hrtc); [by destruct Hp|].
    exists r. split_and!; [done..|]. by eapply rtc_r.
Qed.

(** The round trip on a list whose paths fit together: the trees exist and
    flatten to the exports of the collections of the list, each once. *)
Lemma round_trip_consistent :
  ∃ out, round_trip L = Ok (Some out) ∧ out ≡ₚ map exported L.
Proof.
  destruct getCollectionTrees_consistent as (forest & Hrun & Hroots & Hnodes).
  unfold round_trip, forest_collections, forest_trees. rewrite Hrun, Hroots.
  set (nodes := collectionMap forest) in *.
  set (fuel := S (size nodes)).
  assert (is_Some (mapM (tree_at fuel nodes) (map key_of (List.filter is_root L))))
    as [trees Htrees].
  { apply mapM_is_Some, Forall_fmap, Forall_forall. intros r [Hr _]%elem_of_bool_filter.
    unfold compose. apply tree_at_is_Some; [done..|].
    pose proof (length_le_size_map (map key_of L) nodes Hkeys) as Hsize.
    rewrite length_map in Hsize. subst fuel.
    assert (length L ≤ size nodes)%nat; [|lia].
    apply Hsize. intros k (c & -> & Hc)%list_elem_of_fmap. rewrite (Hnodes c Hc). by eexists. }
  rewrite Htrees. simpl. eexists. split; [done|].
  apply mapM_Some, Forall2_fmap_l in Htrees.
  assert (∀ r, r ∈ List.filter is_root L → r ∈ L ∧ default "" (c_parentPath r) = "")
    as Htop.
  { intros r [Hr Hroot]%elem_of_bool_filter. split; [done|]. by apply is_root_top. }
  apply NoDup_Permutation.
  - apply (siblings_NoDup nodes Hnodes fuel _ _ _ Htrees).
    + apply NoDup_bool_filter, NoDup_L.
    + done.
    + intros r t Hr Ht. destruct (Htop r Hr) as [HrL Hrpath].
      rewrite <- Hrpath. by apply (tree_NoDup nodes Hnodes fuel).
  - apply NoDup_fmap_2_strong; [|apply NoDup_L].
    intros c d Hc Hd. by apply exported_inj.
  - intros e. rewrite (elem_of_children_lists nodes fuel _ _ _ _ Htrees). split.
    + intros (r & t & Hr & Ht & He). destruct (Htop r Hr) as [HrL Hrpath].
      rewrite <- Hrpath in He.
      destruct (tree_elements nodes Hnodes fuel r t e HrL Ht He) as (d & Hd & -> & _).
      apply list_elem_of_fmap. eauto.
    + intros (d & -> & Hd)%list_elem_of_fmap.
      destruct (descends_from_root d Hd) as (r & HrL & Hroot & Hrtc).
      assert (r ∈ List.filter is_root L) as Hr by (by apply elem_of_bool_filter).
      apply list_elem_of_lookup in Hr as Hi. destruct Hi as [i Hi].
      destruct (Forall2_lookup_l _ _ _ _ _ Htrees Hi) as (t & _ & Ht).
      exists r, t. split_and!; [done..|].
      destruct (Htop r Hr) as [_ Hrpath]. rewrite <- Hrpath.
      by apply (tree_contains nodes Hnodes r d Hrtc HrL fuel).
Qed.

End round_trip.

Lemma exported_same (c : IQueryCollection) :
  (∃ s, c_id c = Some (IdStr s)) → c_parentPath c ≠ None → exported c = c.
Proof.
  destruct c as [i t qs p sid ca ua]. simpl. intros [s ->] Hp.
  destruct p as [p|]; done.
Qed.

(** C5, as the code has it.  For a list of collections that all have ids,
    whose ids in string form are distinct path segments (not empty, without
    ["/"]) and whose paths fit together (each collection is at the top or
    has the path of the children of a collection of the list), building the
    trees and flattening them resolves to the collections of the list, each
    exactly once, with the id in string form and a missing [parentPath] as
    [""], every other field as it was; when the ids are strings and no
    [parentPath] is missing these are the collections of the list
    themselves. *)
Theorem round_trip_restores_consistent_list (L : list IQueryCollection)
    (Hids : Forall (λ c, truthy_id (c_id c) = true) L)
    (Hkeys : NoDup (map key_of L))
    (Hsegments : Forall (λ c, is_segment (key_of c)) L)
    (Hpaths : paths_consistent L) :
  ∃ out,
    round_trip L = Ok (Some out) ∧
    out ≡ₚ map exported L ∧
    ((∀ c, c ∈ L → (∃ s, c_id c = Some (IdStr s)) ∧ c_parentPath c ≠ None) → out ≡ₚ L).
Proof.
  destruct (round_trip_consistent L Hids Hkeys Hsegments Hpaths) as (out & Hrun & Hperm).
  exists out. split_and!; [done..|].
  intros Hsame. rewrite Hperm.
  assert (map exported L = L) as ->; [|done].
  clear -Hsame. induction L as [|c L IH]; simpl; [done|].
  destruct (Hsame c (list_elem_of_here _ _)) as [Hid Hp].
  rewrite (exported_same c Hid Hp), IH; [done|].
  intros c' Hc'. apply Hsame. by apply list_elem_of_further.
Qed.

Lemma round_trip_restores_consistent_list_witness :
  ∃ out, round_trip sample_list = Ok (Some out) ∧ out ≡ₚ sample_list.
Proof.
  destruct (round_trip_restores_consistent_list sample_list)
    as (out & Hrun & _ & Hsame).
  - repeat constructor.
  - apply NoDup_ListNoDup. repeat constructor; simpl; intuition discriminate.
  - repeat constructor; discriminate.
  - intros c Hc. unfold sample_list in Hc.
    repeat (apply elem_of_cons in Hc as [->|Hc]); [..|by apply elem_of_nil in Hc].
    + right. exists (child_collection (IdStr "b") "B" "/a").
      split; [|reflexivity]. repeat constructor.
    + by left.
    + by left.
    + right. exists (root_collection (IdStr "a") "A").
      split; [|reflexivity]. repeat constructor.
  - exists out. split; [exact Hrun|]. apply Hsame.
    intros c Hc. unfold sample_list in Hc.
    repeat (apply elem_of_cons in Hc as [->|Hc]); [..|by apply elem_of_nil in Hc];
      (split; [by eexists|discriminate]).
Defined.

Example round_trip_sample_list :
  round_trip sample_list
    = Ok (Some [ root_collection (IdStr "a") "A";
                 child_collection (IdStr "b") "B" "/a";
                 child_collection (IdStr "c") "C" "/a/b";
                 root_collection (IdStr "d") "D" ]).
Proof. vm_compute. reflexivity. Qed.

(** C5, as stated, fails on a legacy row: the list holding one collection
    with the numeric id 42 and no [parentPath] comes back as one collection
    with the string id ["42"] and the [parentPath] [""], which is not a
    collection of the list. *)
Lemma round_trip_changes_legacy_row :
  let c := legacy_collection 42 "A" in
  truthy_id (c_id c) = true ∧
  round_trip [c]
    = Ok (Some [mkCollection (Some (IdStr "42")) "A" [] (Some "") None None None]) ∧
  ¬ ∃ out, round_trip [c] = Ok (Some out) ∧ ∀ x, x ∈ out ↔ x ∈ [c].
Proof.
  intros c. split; [done|].
  assert (round_trip [c]
          = Ok (Some [mkCollection (Some (IdStr "42")) "A" [] (Some "") None None None]))
    as Hrun by (vm_compute; reflexivity).
  split; [exact Hrun|].
  intros (out & Hout & Hsame). rewrite Hrun in Hout. injection Hout as <-.
  specialize (Hsame (mkCollection (Some (IdStr "42")) "A" [] (Some "") None None None)).
  destruct Hsame as [Hsame _].
  specialize (Hsame (list_elem_of_here _ _)).
  apply elem_of_cons in Hsame as [Hsame|Hsame]; [discriminate|by apply elem_of_nil in Hsame].
Qed.

(** The paths that come back are those of the trees, not those of the list:
    a child whose [parentPath] is not the path of its parent's children
    comes back with that path; and a collection whose parent is not in the
    list does not come back. *)
Example round_trip_regenerates_paths :
  round_trip [ root_collection (IdStr "a") "A"; child_collection (IdStr "b") "B" "x/a" ]
    = Ok (Some [ root_collection (IdStr "a") "A"; child_collection (IdStr "b") "B" "/a" ]) ∧
  round_trip [ child_collection (IdStr "b") "B" "/a"; child_collection (IdStr "c") "C" "/a/b" ]
    = Ok (Some []).
Proof. vm_compute. done. Qed.

(** * Further properties *)

(** ** The two forms of a numeric id *)

Lemma string_app_cons (a : ascii) (s t : string) :
  String a s +:+ t = String a (s +:+ t).
Proof. done. Qed.

Lemma string_app_empty_r (s : string) : s +:+ "" = s.
Proof. induction s as [|a s IH]; [done|]. by rewrite string_app_cons, IH. Qed.

Lemma string_app_assoc (a b c : string) : (a +:+ b) +:+ c = a +:+ b +:+ c.
Proof. induction a as [|x a IH]; [done|]. by rewrite !string_app_cons, IH. Qed.

Lemma rev_app_rev_app (a b c : string) :
  String.rev_app (String.rev_app a b) c = String.rev_app b (a +:+ c).
Proof.
  revert b c. induction a as [|x a IH]; intros b c; [done|].
  rewrite string_app_cons. simpl. by rewrite IH.
Qed.

Lemma string_rev_involutive (s : string) : String.rev (String.rev s) = s.
Proof. unfold String.rev. rewrite rev_app_rev_app. simpl. apply string_app_empty_r. Qed.

Lemma string_forall_rev_app P a b :
  string_forall P a = true → string_forall P b = true →
  string_forall P (String.rev_app a b) = true.
Proof.
  revert b. induction a as [|x a IH]; intros b; simpl; [done|].
  intros [Hx Ha]%andb_true_iff Hb. apply IH; [done|]. simpl. by rewrite Hx, Hb.
Qed.

Lemma drop_spaces_none (s : string) :
  string_forall (λ a, negb (Ascii.is_space a)) s = true → drop_spaces s = s.
Proof.
  destruct s as [|a s]; simpl; [done|].
  intros [Ha _]%andb_true_iff. by destruct (Ascii.is_space a).
Qed.

(** A string without white space is its own trimmed form. *)
Lemma trim_none (s : string) :
  string_forall (λ a, negb (Ascii.is_space a)) s = true → trim s = s.
Proof.
  intros Hs. unfold trim. rewrite (drop_spaces_none s Hs).
  rewrite drop_spaces_none; [apply string_rev_involutive|].
  by apply string_forall_rev_app.
Qed.

Lemma string_forall_app P a b :
  string_forall P (a +:+ b) = string_forall P a && string_forall P b.
Proof.
  induction a as [|x a IH]; [done|].
  rewrite string_app_cons. simpl. by rewrite IH, andb_assoc.
Qed.

Lemma string_forall_impl (P Q : ascii → bool) s :
  (∀ a, P a = true → Q a = true) → string_forall P s = true → string_forall Q s = true.
Proof.
  intros HPQ. induction s as [|a s IH]; simpl; [done|].
  intros [Ha Hs]%andb_true_iff. by rewrite (HPQ a Ha), IH.
Qed.

Lemma digit_of_pretty_N_char (d : N) :
  (d < 10)%N → digit_of (pretty_N_char d) = Some (Z.of_N d).
Proof.
  intros Hd.
  assert (d = 0 ∨ d = 1 ∨ d = 2 ∨ d = 3 ∨ d = 4 ∨ d = 5 ∨ d = 6 ∨ d = 7 ∨ d = 8 ∨ d = 9)%N
    as Hcases by lia.
  repeat (destruct Hcases as [->|Hcases]; [done|]). by subst.
Qed.

Lemma pretty_N_go_app (x : N) : ∀ s, pretty_N_go x s = pretty_N_go x "" +:+ s.
Proof.
  induction (N.lt_wf_0 x) as [x _ IH]. intros s.
  destruct (decide (x = 0)%N) as [->|Hx]; [by rewrite !pretty_N_go_0|].
  rewrite !(pretty_N_go_step x) by lia.
  assert (x `div` 10 < x)%N as Hlt by (apply N.div_lt; lia).
  rewrite (IH _ Hlt (String _ s)), (IH _ Hlt (String _ "")).
  by rewrite string_app_assoc.
Qed.

Lemma digits_value_app (a b : string) :
  ∀ acc, digits_value acc (a +:+ b) = digits_value acc a ≫= λ v, digits_value v b.
Proof.
  induction a as [|x a IH]; intros acc; [done|].
  rewrite string_app_cons. simpl. destruct (digit_of x); [apply IH|done].
Qed.

Lemma pretty_N_go_digits (x : N) :
  digits_value 0 (pretty_N_go x "") = Some (Z.of_N x) ∧
  string_forall is_digit (pretty_N_go x "") = true.
Proof.
  induction (N.lt_wf_0 x) as [x _ IH].
  destruct (decide (x = 0)%N) as [->|Hx]; [done|].
  rewrite (pretty_N_go_step x), pretty_N_go_app by lia.
  destruct (IH (x `div` 10)%N) as [IH1 IH2]; [apply N.div_lt; lia|].
  pose proof (digit_of_pretty_N_char (x `mod` 10)%N) as Hd.
  rewrite digits_value_app, IH1, string_forall_app, IH2. simpl.
  unfold is_digit. rewrite Hd by (apply N.mod_lt; lia). split; [|done].
  f_equal. pose proof (N.div_mod x 10). lia.
Qed.

Lemma pretty_N_go_nonempty (x : N) : (0 < x)%N → pretty_N_go x "" ≠ "".
Proof.
  intros Hx. rewrite pretty_N_go_step, pretty_N_go_app by done.
  by destruct (pretty_N_go _ "").
Qed.

Lemma is_digit_plain (a : ascii) :
  is_digit a = true →
  Ascii.is_space a = false ∧ a ≠ "+"%char ∧ a ≠ "-"%char ∧ a ≠ "/"%char.
Proof.
  destruct a as [[] [] [] [] [] [] [] []]; try discriminate; intros _; by split_and!.
Qed.

Lemma Number_digits (s : string) (v : Z) :
  s ≠ "" → string_forall is_digit s = true → digits_value 0 s = Some v →
  Number s = Some v ∧ Number (String "-" s) = Some (- v).
Proof.
  intros Hne Hdigits Hv.
  assert (string_forall (λ a, negb (Ascii.is_space a)) s = true) as Hplain.
  { eapply string_forall_impl; [|done]. intros a [-> _]%is_digit_plain. done. }
  unfold Number. rewrite !trim_none by (simpl; by rewrite ?Hplain). split.
  - destruct s as [|a s]; [done|]. apply andb_true_iff in Hdigits as [Ha _].
    apply is_digit_plain in Ha as (_ & Hplus & Hminus & _).
    destruct a as [[] [] [] [] [] [] [] []]; try done.
  - unfold unsigned_decimal. destruct s; [done|]. by rewrite Hv.
Qed.

(** [Number(`${n}`)] is [n]: the string form of a number reads back as that
    number. *)
Lemma Number_pretty (n : Z) : Number (pretty n) = Some n.
Proof.
  destruct n as [|p|p]; [done|..].
  - destruct (pretty_N_go_digits (N.pos p)) as [Hv Hd].
    unfold pretty, pretty_Z, pretty, pretty_positive, pretty, pretty_N.
    rewrite decide_False by done.
    by apply Number_digits; [apply pretty_N_go_nonempty|..].
  - destruct (pretty_N_go_digits (N.pos p)) as [Hv Hd].
    unfold pretty, pretty_Z, pretty, pretty_positive, pretty, pretty_N.
    rewrite decide_False by done.
    by apply (Number_digits _ (Z.pos p)); [apply pretty_N_go_nonempty|..].
Qed.

(** The alternate of the alternate of a numeric id is that id. *)
Theorem getAlternateCollectionID_number_round_trip (n : Z) :
  getAlternateCollectionID (getAlternateCollectionID (IdNum n)) = IdNum n.
Proof. simpl. by rewrite Number_pretty. Qed.

(** A record stored under a number is found under the string form of that
    number, whatever the number, when that string holds no record of its
    own. *)
Theorem getCollectionByID_string_form (n : Z) (r : IQueryCollection) (w : World)
    (Hnum : queryCollections w !! IdNum n = Some r)
    (Hstr : queryCollections w !! IdStr (str_id (IdNum n)) = None) :
  getCollectionByID (IdStr (str_id (IdNum n))) w = (Ok (Some r), w).
Proof.
  rewrite getCollectionByID_run, Hstr. simpl. by rewrite Number_pretty, Hnum.
Qed.

Lemma getCollectionByID_string_form_witness :
  let r := root_collection (IdNum 1234567) "A" in
  let w := sample_world {[ IdNum 1234567 := r ]} in
  getCollectionByID (IdStr "1234567") w = (Ok (Some r), w).
Proof.
  intros r w. apply (getCollectionByID_string_form 1234567 r w); vm_compute; reflexivity.
Defined.

(** ** Creating a collection *)

Lemma getCollectionByID_found i w : getCollectionByID i w = (Ok (found w i), w).
Proof. apply getCollectionByID_run. Qed.

Lemma created_queries_run (now : Z) (queries : list IQuery) :
  ∀ w,
    mapM (λ query : IQuery,
            i ← uuid;
            mret (set_q_updated_at (Some now) (set_q_created_at (Some now)
                    (set_q_id (Some i) query)))) queries w
    = (Ok (created_queries (uuid_src w) (uuid_drawn w) now queries),
       after_uuids (length queries) w).
Proof.
  induction queries as [|q qs IH]; intros w.
  - simpl. by rewrite after_uuids_0.
  - cbn [mapM created_queries length].
    erewrite bind_Ok by (erewrite bind_Ok by apply uuid_run; reflexivity).
    erewrite bind_Ok by apply IH.
    unfold mret, M_ret, ret. rewrite after_uuids_add. simpl.
    by rewrite Nat.add_1_r.
Qed.

(** What [create] returns and stores when the id it draws is free. *)
Lemma create_run (collection : IQueryCollection)
    (parentCollectionId : option CollectionID) (w : World)
    (Hfree : queryCollections w
               !! IdStr (uuid_src w (uuid_drawn w + length (c_queries collection))) = None) :
  let newId := IdStr (uuid_src w (uuid_drawn w + length (c_queries collection))) in
  let row := created_row w collection (created_path w parentCollectionId) in
  (create collection parentCollectionId w).1 = Ok newId ∧
  queryCollections (create collection parentCollectionId w).2
    = <[newId := row]> (queryCollections w) ∧
  getCollectionByID newId (create collection parentCollectionId w).2
    = (Ok (Some row), (create collection parentCollectionId w).2).
Proof.
  intros newId row.
  assert (∃ w', create collection parentCollectionId w = (Ok newId, w') ∧
                queryCollections w' = <[newId := row]> (queryCollections w))
    as (w' & -> & Htable).
  { unfold create, createLocalCollection.
    erewrite bind_Ok by reflexivity.
    set (w1 := (storage_now w).2).
    assert ((match parentCollectionId with
             | Some pid =>
                 if truthy_id parentCollectionId
                 then getSubcollectionParentPath pid else mret ""
             | None => mret ""
             end) w1 = (Ok (created_path w parentCollectionId), w1)) as Hpath.
    { unfold created_path. destruct parentCollectionId as [pid|]; [|done].
      destruct (truthy_id (Some pid)); [|done].
      unfold getSubcollectionParentPath.
      erewrite bind_Ok by apply getCollectionByID_found. done. }
    erewrite bind_Ok by exact Hpath.
    erewrite bind_Ok by apply created_queries_run.
    erewrite bind_Ok by apply uuid_run.
    unfold table_add. simpl. rewrite Hfree. eexists. split; [reflexivity|]. done. }
  simpl. split_and!; [done..|].
  rewrite getCollectionByID_found. unfold found. by rewrite Htable, lookup_insert_eq.
Qed.


(** [create] with an id that is free: it resolves to the id drawn after those
    of the queries, and the table gains under that id the collection with
    that id, the path of the children of the parent id (the empty path
    without one), the time of creation in [created_at] and [updated_at], its
    queries each with an id of its own and the same time; every other row is
    as it was.  The parent is not required to exist. *)
Theorem create_adds_one_row (collection : IQueryCollection)
    (parentCollectionId : option CollectionID) (w : World)
    (Hfree : queryCollections w
               !! IdStr (uuid_src w (uuid_drawn w + length (c_queries collection))) = None) :
  let newId := IdStr (uuid_src w (uuid_drawn w + length (c_queries collection))) in
  let row := created_row w collection (created_path w parentCollectionId) in
  (create collection parentCollectionId w).1 = Ok newId ∧
  queryCollections (create collection parentCollectionId w).2
    = <[newId := row]> (queryCollections w) ∧
  getCollectionByID newId (create collection parentCollectionId w).2
    = (Ok (Some row), (create collection parentCollectionId w).2).
Proof. apply create_run; assumption. Qed.

Lemma create_adds_one_row_witness :
  let w := sample_world {[ IdNum 7 := root_collection (IdNum 7) "Seven" ]} in
  (create new_collection (Some (IdNum 7)) w).1 = Ok (IdStr "ii-") ∧
  c_parentPath <$> queryCollections (create new_collection (Some (IdNum 7)) w).2 !! IdStr "ii-"
    = Some (Some "/7").
Proof.
  intros w.
  destruct (create_adds_one_row new_collection (Some (IdNum 7)) w) as (Hid & Htable & _).
  - vm_compute. reflexivity.
  - split; [exact Hid|]. rewrite Htable, lookup_insert_eq. vm_compute. reflexivity.
Defined.

Lemma getParentCollectionId_path (c : IQueryCollection) (a k : string) :
  c_parentPath c = Some (a +:+ "/" +:+ k) → is_segment k →
  getParentCollectionId c = Some k.
Proof.
  intros Hc [Hne Hsep]. unfold getParentCollectionId. rewrite Hc.
  rewrite split_app_separator, (split_segment _ Hsep), last_snoc.
  by destruct (String.eqb_spec k "").
Qed.

(** A collection created under a stored parent names that parent: its path
    is the parent's path, ["/"] and the parent id, the last segment of that
    path is the parent id in string form, and [getParentCollection] of the
    new row resolves to the parent, also when the parent is stored under a
    number. *)
Theorem create_child_resolves_parent (collection p : IQueryCollection)
    (pid : CollectionID) (w : World)
    (Hp : queryCollections w !! pid = Some p)
    (Htruthy : truthy_id (Some pid) = true)
    (Hsegment : is_segment (str_id pid))
    (Hform : ∀ n, pid = IdNum n → queryCollections w !! IdStr (str_id pid) = None)
    (Hfree : queryCollections w
               !! IdStr (uuid_src w (uuid_drawn w + length (c_queries collection))) = None)
    (Hother : uuid_src w (uuid_drawn w + length (c_queries collection)) ≠ str_id pid) :
  let w' := (create collection (Some pid) w).2 in
  ∃ row,
    queryCollections w'
      !! IdStr (uuid_src w (uuid_drawn w + length (c_queries collection))) = Some row ∧
    c_parentPath row = Some (default "" (c_parentPath p) +:+ "/" +:+ str_id pid) ∧
    getParentCollectionId row = Some (str_id pid) ∧
    getParentCollection row w' = (Ok (Some p), w').
Proof.
  intros w'.
  destruct (create_run collection (Some pid) w Hfree) as (_ & Htable & _).
  fold w' in Htable.
  set (newId := IdStr (uuid_src w (uuid_drawn w + length (c_queries collection)))) in *.
  exists (created_row w collection (created_path w (Some pid))).
  assert (created_path w (Some pid) = default "" (c_parentPath p) +:+ "/" +:+ str_id pid)
    as Hpath.
  { unfold created_path, found. by rewrite Htruthy, Hp. }
  assert (getParentCollectionId (created_row w collection (created_path w (Some pid)))
          = Some (str_id pid)) as Hpid.
  { rewrite Hpath. by eapply getParentCollectionId_path. }
  split_and!.
  - by rewrite Htable, lookup_insert_eq.
  - by rewrite Hpath.
  - done.
  - unfold getParentCollection. rewrite Hpid, getCollectionByID_found. f_equal.
    unfold found. rewrite Htable.
    rewrite lookup_insert_ne by (subst newId; congruence).
    destruct pid as [n|s].
    + rewrite (Hform n eq_refl).
      change (getAlternateCollectionID (IdStr (str_id (IdNum n))))
        with (match Number (pretty n) with Some m => IdNum m | None => IdStr "" end).
      rewrite Number_pretty. subst newId. by rewrite lookup_insert_ne, Hp.
    + simpl. simpl in Hp. by rewrite Hp.
Qed.

Lemma create_child_resolves_parent_witness :
  let p := root_collection (IdNum 7) "Seven" in
  let w := sample_world {[ IdNum 7 := p ]} in
  ∃ row,
    queryCollections (create new_collection (Some (IdNum 7)) w).2 !! IdStr "ii-" = Some row ∧
    getParentCollection row (create new_collection (Some (IdNum 7)) w).2
      = (Ok (Some p), (create new_collection (Some (IdNum 7)) w).2).
Proof.
  intros p w.
  destruct (create_child_resolves_parent new_collection p (IdNum 7) w)
    as (row & Hrow & _ & _ & Hparent).
  - vm_compute. reflexivity.
  - reflexivity.
  - split; [discriminate|reflexivity].
  - intros n _. vm_compute. reflexivity.
  - vm_compute. reflexivity.
  - vm_compute. discriminate.
  - exists row. split; [exact Hrow|exact Hparent].
Defined.

(** ** Moving a collection: rejections, the subtree, the rest *)

Lemma moveCollection_found (collectionId newParentCollectionId : CollectionID)
    (w : World) (c np : IQueryCollection) :
  found w collectionId = Some c → found w newParentCollectionId = Some np →
  (getCollectionByID collectionId w).1 = Ok (Some c) ∧
  (getCollectionByID newParentCollectionId w).1 = Ok (Some np).
Proof. intros Hc Hnp. rewrite !getCollectionByID_found. simpl. by rewrite Hc, Hnp. Qed.

(** When the collection or the new parent is not found, [moveCollection]
    rejects and the world is as before. *)
Theorem moveCollection_not_found (collectionId newParentCollectionId : CollectionID)
    (w : World)
    (Hmissing : found w collectionId = None ∨ found w newParentCollectionId = None) :
  ∃ msg, (moveCollection collectionId newParentCollectionId w).1 = Throw msg ∧
         (moveCollection collectionId newParentCollectionId w).2 = w ∧
         (msg = "Could not retrieve collection" ↔ found w collectionId = None).
Proof.
  unfold moveCollection, moveLocalCollection, transaction.
  destruct (found w collectionId) as [c|] eqn:Hc.
  - destruct Hmissing as [?|Hnp]; [done|].
    erewrite bind_Ok by apply getCollectionByID_found. rewrite Hc. cbv beta iota.
    erewrite bind_Ok by apply getCollectionByID_found. rewrite Hnp.
    eexists. split_and!; [done|apply set_table_same|]. split; done.
  - erewrite bind_Ok by apply getCollectionByID_found. rewrite Hc.
    eexists. split_and!; [done|apply set_table_same|]. split; done.
Qed.

Lemma moveCollection_not_found_witness :
  let w := sample_world legacy_table in
  ∃ msg, (moveCollection (IdNum 1) (IdNum 99) w).1 = Throw msg ∧
         (moveCollection (IdNum 1) (IdNum 99) w).2 = w.
Proof.
  intros w.
  destruct (moveCollection_not_found (IdNum 1) (IdNum 99) w) as (msg & H1 & H2 & _).
  - right. vm_compute. reflexivity.
  - exists msg. split; [exact H1|exact H2].
Defined.

(** The paths a move that finds both collections gives to the moved
    collection and to the rows below it. *)
Lemma moveCollection_subtree_run (collectionId newParentCollectionId : CollectionID)
    (w : World) (c np : IQueryCollection)
    (Hc : found w collectionId = Some c)
    (Hnp : found w newParentCollectionId = Some np)
    (Hplain : has_dollar (default "" (c_parentPath np) +:+ "/"
                            +:+ str_id newParentCollectionId) = false) :
  let old := default "" (c_parentPath c) in
  let new := default "" (c_parentPath np) +:+ "/" +:+ str_id newParentCollectionId in
  let w' := (moveCollection collectionId newParentCollectionId w).2 in
  (moveCollection collectionId newParentCollectionId w).1 = Ok tt ∧
  (queryCollections w !! collectionId = Some c → c_parentPath c ≠ None →
     queryCollections w' !! collectionId = Some (set_parentPath (Some new) c)) ∧
  (∀ k d rest,
     queryCollections w !! k = Some d →
     c_parentPath d = Some (old +:+ "/" +:+ str_id collectionId +:+ rest) →
     queryCollections w' !! k
       = Some (set_parentPath (Some (new +:+ "/" +:+ str_id collectionId +:+ rest)) d)).
Proof.
  intros old new w'.
  destruct (moveCollection_found _ _ w c np Hc Hnp) as [Hc' Hnp'].
  pose proof (λ k, moveCollection_table collectionId newParentCollectionId w c np k Hc' Hnp')
    as Hmove. cbv zeta in Hmove. fold old new in Hmove. subst w'.
  split_and!.
  - apply (Hmove collectionId).
  - intros Hrow Hpath. destruct (Hmove collectionId) as [_ ->]. rewrite Hrow. simpl.
    unfold move_selects, where_id. rewrite bool_decide_eq_true_2 by done. simpl.
    destruct (c_parentPath c) as [p|] eqn:Hp; [|done]. simpl. subst old. simpl.
    pose proof (replace_prefix_substitution p new "" Hplain) as Hwhole.
    rewrite !string_app_empty_r in Hwhole. by rewrite Hwhole.
  - intros k d rest Hrow Hpath. destruct (Hmove k) as [_ ->]. rewrite Hrow. simpl.
    assert (move_selects collectionId (old +:+ "/" +:+ str_id collectionId) k d = true)
      as ->.
    { unfold move_selects, startsWith. rewrite Hpath.
      rewrite <- !string_app_assoc, prefix_app. apply orb_true_r. }
    rewrite Hpath. simpl. by rewrite replace_prefix_substitution.
Qed.


(** A move that finds both collections, towards a path without [$]: it
    resolves; the moved collection, under the key it is found under (the id,
    or its alternate when no row is stored under the id), takes the path of
    the children of the new parent if it has a [parentPath], and is left
    without one, as it is, if it has none (a row from before paths existed);
    a row whose path continues the path of the moved collection's children
    keeps that continuation under the new path: a subtree of any depth is
    relocated in one pass. *)
Theorem moveCollection_relocates_subtree (collectionId newParentCollectionId : CollectionID)
    (w : World) (c np : IQueryCollection)
    (Hc : found w collectionId = Some c)
    (Hnp : found w newParentCollectionId = Some np)
    (Hplain : has_dollar (default "" (c_parentPath np) +:+ "/"
                            +:+ str_id newParentCollectionId) = false) :
  let old := default "" (c_parentPath c) in
  let new := default "" (c_parentPath np) +:+ "/" +:+ str_id newParentCollectionId in
  let w' := (moveCollection collectionId newParentCollectionId w).2 in
  (moveCollection collectionId newParentCollectionId w).1 = Ok tt ∧
  queryCollections w !! found_key w collectionId = Some c ∧
  queryCollections w' !! found_key w collectionId
    = Some (match c_parentPath c with
            | Some _ => set_parentPath (Some new) c
            | None => c
            end) ∧
  (∀ k d rest,
     queryCollections w !! k = Some d →
     c_parentPath d = Some (old +:+ "/" +:+ str_id collectionId +:+ rest) →
     queryCollections w' !! k
       = Some (set_parentPath (Some (new +:+ "/" +:+ str_id collectionId +:+ rest)) d)).
Proof.
  intros old new w'.
  destruct (moveCollection_subtree_run collectionId newParentCollectionId w c np Hc Hnp Hplain)
    as (Hok & _ & Hsub).
  assert (queryCollections w !! found_key w collectionId = Some c) as Hkey.
  { unfold found in Hc. unfold found_key.
    destruct (queryCollections w !! collectionId) eqn:E; congruence. }
  split_and!; [done|done| |done].
  destruct (moveCollection_found _ _ w c np Hc Hnp) as [Hc' Hnp'].
  destruct (moveCollection_table collectionId newParentCollectionId w c np
              (found_key w collectionId) Hc' Hnp') as [_ Hmove].
  subst w'. rewrite Hmove, Hkey. simpl.
  assert (move_selects collectionId (default "" (c_parentPath c) +:+ "/"
                                       +:+ str_id collectionId)
            (found_key w collectionId) c = true) as ->.
  { unfold move_selects, where_id, found_key.
    destruct (queryCollections w !! collectionId);
      [rewrite bool_decide_eq_true_2 by done; done|].
    rewrite (bool_decide_eq_true_2 (_ = getAlternateCollectionID _)) by done.
    by rewrite orb_true_r. }
  destruct (c_parentPath c) as [p|] eqn:Hp; simpl.
  - pose proof (replace_prefix_substitution p new "" Hplain) as Hwhole.
    rewrite !string_app_empty_r in Hwhole. fold new. by rewrite Hwhole.
  - f_equal. destruct c. simpl in *. by subst.
Qed.

Lemma moveCollection_relocates_subtree_witness :
  let w := sample_world nested_table in
  let w' := (moveCollection (IdStr "b") (IdStr "z") w).2 in
  queryCollections w' !! IdStr "b" = Some (child_collection (IdStr "b") "B" "/z") ∧
  queryCollections w' !! IdStr "c" = Some (child_collection (IdStr "c") "C" "/z/b").
Proof.
  intros w w'.
  destruct (moveCollection_relocates_subtree (IdStr "b") (IdStr "z") w
              (child_collection (IdStr "b") "B" "/a") (root_collection (IdStr "z") "Z"))
    as (_ & _ & Hself & Hsub).
  - vm_compute. reflexivity.
  - vm_compute. reflexivity.
  - reflexivity.
  - split.
    + exact Hself.
    + apply (Hsub (IdStr "c") (child_collection (IdStr "c") "C" "/a/b") "");
        vm_compute; reflexivity.
Defined.

(** A move changes nothing but [parentPath]s: no row is added or removed,
    every row keeps every other field, and a row that is neither stored under
    the id or its alternate nor has a path starting with the path of the
    moved collection's children is as it was. *)
Theorem moveCollection_changes_only_paths (collectionId newParentCollectionId : CollectionID)
    (w : World) (c np : IQueryCollection)
    (Hc : found w collectionId = Some c)
    (Hnp : found w newParentCollectionId = Some np) :
  let w' := (moveCollection collectionId newParentCollectionId w).2 in
  (∀ k, without_parentPath <$> queryCollections w' !! k
        = without_parentPath <$> queryCollections w !! k) ∧
  (∀ k d, queryCollections w !! k = Some d →
          k ≠ collectionId → k ≠ getAlternateCollectionID collectionId →
          startsWith (default "" (c_parentPath c) +:+ "/" +:+ str_id collectionId)
                     (c_parentPath d) = false →
          queryCollections w' !! k = Some d).
Proof.
  intros w'. subst w'.
  destruct (moveCollection_found _ _ w c np Hc Hnp) as [Hc' Hnp'].
  pose proof (λ k, moveCollection_table collectionId newParentCollectionId w c np k Hc' Hnp')
    as Hmove. cbv zeta in Hmove.
  split.
  - intros k. destruct (Hmove k) as [_ ->].
    destruct (queryCollections w !! k) as [d|]; [|done]. simpl.
    by destruct (move_selects _ _ _ _).
  - intros k d Hrow Hk Halt Hprefix. destruct (Hmove k) as [_ ->]. rewrite Hrow. simpl.
    unfold move_selects, where_id. rewrite Hprefix.
    by rewrite !bool_decide_eq_false_2.
Qed.

Lemma moveCollection_changes_only_paths_witness :
  let w := sample_world nested_table in
  queryCollections (moveCollection (IdStr "b") (IdStr "z") w).2 !! IdStr "a"
    = Some (root_collection (IdStr "a") "A").
Proof.
  intros w.
  destruct (moveCollection_changes_only_paths (IdStr "b") (IdStr "z") w
              (child_collection (IdStr "b") "B" "/a") (root_collection (IdStr "z") "Z"))
    as [_ Hframe].
  - vm_compute. reflexivity.
  - vm_compute. reflexivity.
  - apply Hframe; [vm_compute; reflexivity|discriminate|discriminate|reflexivity].
Defined.

(** ** Climbing to the parents *)

Lemma getAllParentCollections_loop_self (c : IQueryCollection) (w : World) :
  getParentCollection c w = (Ok (Some c), w) →
  ∀ fuel collections,
    getAllParentCollections_loop fuel collections c w = (Ok None, w).
Proof.
  intros Hself fuel. induction fuel as [|fuel IH]; intros collections; [done|].
  cbn [getAllParentCollections_loop]. erewrite bind_Ok by exact Hself. apply IH.
Qed.

(** Nothing stops a collection from being moved under itself: the move
    resolves, the collection becomes its own parent, and from then on the
    climb of [getAllParentCollections] from it is still under way after any
    number of turns. *)
Theorem moveCollection_under_itself (s : string) (c : IQueryCollection) (w : World)
    (old : string)
    (Hc : queryCollections w !! IdStr s = Some c)
    (Hpath : c_parentPath c = Some old)
    (Hsegment : is_segment s)
    (Hplain : has_dollar (old +:+ "/" +:+ s) = false) :
  let w' := (moveCollection (IdStr s) (IdStr s) w).2 in
  let c' := set_parentPath (Some (old +:+ "/" +:+ s)) c in
  (moveCollection (IdStr s) (IdStr s) w).1 = Ok tt ∧
  queryCollections w' !! IdStr s = Some c' ∧
  getParentCollection c' w' = (Ok (Some c'), w') ∧
  ∀ fuel, getAllParentCollections fuel c' w' = (Ok None, w').
Proof.
  intros w' c'.
  assert (found w (IdStr s) = Some c) as Hfound by (unfold found; by rewrite Hc).
  destruct (moveCollection_subtree_run (IdStr s) (IdStr s) w c c Hfound Hfound)
    as (Hok & Hself & _); [by rewrite Hpath|].
  rewrite Hpath in Hself. simpl in Hself.
  specialize (Hself Hc ltac:(done)). fold w' c' in Hself.
  assert (getParentCollection c' w' = (Ok (Some c'), w')) as Hparent.
  { unfold getParentCollection.
    rewrite (getParentCollectionId_path c' old s); [|done..].
    rewrite getCollectionByID_found. unfold found. by rewrite Hself. }
  split_and!; [done..|].
  intros fuel. by apply getAllParentCollections_loop_self.
Qed.

Lemma moveCollection_under_itself_witness :
  let w := sample_world nested_table in
  let b' := child_collection (IdStr "b") "B" "/a/b" in
  queryCollections (moveCollection (IdStr "b") (IdStr "b") w).2 !! IdStr "b" = Some b' ∧
  getAllParentCollections 1000 b' (moveCollection (IdStr "b") (IdStr "b") w).2
    = (Ok None, (moveCollection (IdStr "b") (IdStr "b") w).2).
Proof.
  intros w b'.
  destruct (moveCollection_under_itself "b" (child_collection (IdStr "b") "B" "/a") w "/a")
    as (_ & Hrow & _ & Hclimb).
  - vm_compute. reflexivity.
  - reflexivity.
  - split; [discriminate|reflexivity].
  - reflexivity.
  - split; [exact Hrow|apply Hclimb].
Defined.

Lemma getParentCollection_state (c : IQueryCollection) (w : World) :
  (getParentCollection c w).2 = w.
Proof.
  unfold getParentCollection. destruct (getParentCollectionId c); [|done].
  by rewrite getCollectionByID_found.
Qed.

(** When the parents of a collection form a chain that ends, the climb
    returns that chain, nearest parent first, as soon as it is given one turn
    more than the chain is long; it changes nothing. *)
Theorem getAllParentCollections_chain (c : IQueryCollection) (w : World)
    (l : list IQueryCollection) (fuel : nat)
    (Hchain : is_parent_chain w c l)
    (Hfuel : (length l < fuel)%nat) :
  getAllParentCollections fuel c w = (Ok (Some l), w).
Proof.
  unfold getAllParentCollections.
  assert (∀ acc, getAllParentCollections_loop fuel acc c w = (Ok (Some (acc ++ l)), w))
    as H; [|apply (H [])].
  revert c l Hchain Hfuel. induction fuel as [|fuel IH]; intros c l Hchain Hfuel acc; [lia|].
  cbn [getAllParentCollections_loop].
  pose proof (getParentCollection_state c w) as Hstate.
  destruct l as [|p l]; simpl in Hchain.
  - erewrite bind_Ok
      by (destruct (getParentCollection c w) as [r w0]; simpl in *; by subst).
    by rewrite app_nil_r.
  - destruct Hchain as [Hp Hchain].
    erewrite bind_Ok
      by (destruct (getParentCollection c w) as [r w0]; simpl in *; by subst).
    cbv beta iota.
    rewrite (IH p l Hchain) by (simpl in Hfuel; lia).
    by rewrite <- app_assoc.
Qed.

Lemma getAllParentCollections_chain_witness :
  let w := sample_world nested_table in
  getAllParentCollections 3 (child_collection (IdStr "c") "C" "/a/b") w
    = (Ok (Some [child_collection (IdStr "b") "B" "/a"; root_collection (IdStr "a") "A"]), w).
Proof.
  intros w. apply getAllParentCollections_chain.
  - repeat split.
  - simpl. lia.
Defined.

(** ** Building trees: ids *)

Lemma set_nodes_throws (l : list IQueryCollection) :
  ∀ m, (∃ m', set_nodes l m = Ok m' ∧ Forall (λ c, truthy_id (c_id c) = true) l) ∨
       (set_nodes l m = Throw "All collections must have an ID to get a tree!" ∧
        Exists (λ c, truthy_id (c_id c) = false) l).
Proof.
  induction l as [|c l IH]; intros m; simpl.
  - left. eauto.
  - destruct (truthy_id (c_id c)) eqn:Hc; simpl.
    + destruct (IH (<[template (c_id c) :=
                        mkNode (set_id (Some (IdStr (template (c_id c)))) c) []]> m))
        as [(m' & Hm' & Hall)|[Hthrow Hex]].
      * left. eauto.
      * right. split; [done|]. by apply Exists_cons_tl.
    + right. split; [done|]. by apply Exists_cons_hd.
Qed.

(** [getCollectionTrees] rejects exactly the lists that hold a collection
    without id (or with the id [0] or ['']), with its own message; any other
    list gives a forest. *)
Theorem getCollectionTrees_rejects_missing_id (l : list IQueryCollection) :
  (getCollectionTrees l = Throw "All collections must have an ID to get a tree!"
     ↔ Exists (λ c, truthy_id (c_id c) = false) l) ∧
  ((∃ forest, getCollectionTrees l = Ok forest)
     ↔ Forall (λ c, truthy_id (c_id c) = true) l).
Proof.
  unfold getCollectionTrees.
  destruct (set_nodes_throws l ∅) as [(m' & -> & Hall)|[-> Hex]].
  - split.
    + split; [done|]. intros Hex. apply Exists_exists in Hex as (c & Hc & Hfalse).
      rewrite Forall_forall in Hall. specialize (Hall c Hc). congruence.
    + split; [done|]. eauto.
  - split; [done|]. split; [by intros [? ?]|].
    intros Hall. apply Exists_exists in Hex as (c & Hc & Hfalse).
    rewrite Forall_forall in Hall. specialize (Hall c Hc). congruence.
Qed.

Lemma getCollectionTrees_roots_witness :
  ∃ forest, getCollectionTrees sample_list = Ok forest ∧ roots forest = ["a"; "d"].
Proof.
  destruct (getCollectionTrees_roots sample_list) as (forest & Hrun & Hroots).
  - repeat constructor.
  - exists forest. split; [exact Hrun|exact Hroots].
Defined.

(** ** Importing a document: what is stored *)

Lemma create_keeps_fresh (collection : IQueryCollection) (w : World) :
  uuids_fresh w →
  let row := created_row w collection "" in
  ∃ w' k,
    create collection None w = (Ok k, w') ∧ c_id row = Some k ∧
    queryCollections w !! k = None ∧
    queryCollections w' = <[k := row]> (queryCollections w) ∧
    uuids_fresh w'.
Proof.
  intros [Hinj Hfree] row.
  set (j := (uuid_drawn w + length (c_queries collection))%nat).
  assert (queryCollections w !! IdStr (uuid_src w j) = None) as Hj by (apply Hfree; lia).
  destruct (create_run collection None w Hj) as (Hid & Htable & _).
  destruct (create collection None w) as [r w'] eqn:Hrun. simpl in *. subst r.
  exists w', (IdStr (uuid_src w j)). split_and!; [done..|].
  assert (uuid_src w' = uuid_src w ∧ uuid_drawn w' = S j) as [Hsrc Hdrawn].
  { unfold create, createLocalCollection in Hrun.
    erewrite bind_Ok in Hrun by reflexivity.
    erewrite bind_Ok in Hrun by reflexivity.
    erewrite bind_Ok in Hrun by apply created_queries_run.
    erewrite bind_Ok in Hrun by apply uuid_run.
    unfold table_add in Hrun. simpl in Hrun. fold j in Hrun. rewrite Hj in Hrun.
    injection Hrun as <-. simpl. split; [done|]. subst j. lia. }
  split; rewrite Hsrc; [done|].
  intros i Hi. rewrite Htable, lookup_insert_ne; [apply Hfree; lia|].
  intros [= Heq%Hinj]. lia.
Qed.

Lemma import_loop_stores_roots (l : list IQueryCollection) :
  ∀ w, uuids_fresh w →
    ∃ w' rows,
      import_loop l w = (Ok tt, w') ∧ uuids_fresh w' ∧
      map c_title rows = map c_title l ∧
      Forall (λ r, c_parentPath r = Some "") rows ∧
      (∀ k r, queryCollections w' !! k = Some r ↔
              queryCollections w !! k = Some r ∨ (r ∈ rows ∧ c_id r = Some k)) ∧
      size (queryCollections w') = (size (queryCollections w) + length l)%nat.
Proof.
  induction l as [|c l IH]; intros w Hfresh.
  - exists w, []. split_and!; [done..| |simpl; lia].
    intros k r. split; [eauto|]. intros [?|[?%elem_of_nil _]]; done.
  - destruct (create_keeps_fresh c w Hfresh) as (w1 & k1 & Hrun & Hk1 & Hnew & Htable & Hfresh1).
    destruct (IH w1 Hfresh1) as (w' & rows & Hloop & Hfresh' & Htitles & Hroots & Hrows & Hsize).
    exists w', (created_row w c "" :: rows). split_and!.
    + cbn [import_loop]. erewrite bind_Ok by exact Hrun. exact Hloop.
    + done.
    + simpl. by rewrite Htitles.
    + by constructor.
    + intros k r. rewrite Hrows, Htable, elem_of_cons. split.
      * intros [Hk|[Hr Hid]]; [|by eauto].
        apply lookup_insert_Some in Hk as [[<- <-]|[_ Hk]]; eauto.
      * intros [Hk|[[->|Hr] Hid]]; [| |by eauto].
        -- left. rewrite lookup_insert_ne; [done|]. intros <-. congruence.
        -- left. rewrite Hk1 in Hid. injection Hid as <-. apply lookup_insert_eq.
    + rewrite Hsize, Htable, map_size_insert_None by done. simpl. lia.
Qed.

(** [importCollectionData] of a valid document, with fresh ids to draw:
    it resolves and stores one row per node of the document, with the titles
    of the nodes in pre-order; every one of these rows has the empty
    [parentPath], whatever its place in the document; the rows that were
    there are kept. *)
Theorem importCollectionData_stores_roots (data : ExportCollectionState) (w : World)
    (Hvalid : valid_document data = true)
    (Hfresh : uuids_fresh w) :
  let w' := (importCollectionData (Some data) w).2 in
  ∃ rows,
    (importCollectionData (Some data) w).1 = Ok tt ∧
    map c_title rows = map c_title (preorder (ex_tree data)) ∧
    Forall (λ r, c_parentPath r = Some "") rows ∧
    (∀ k r, queryCollections w' !! k = Some r ↔
            queryCollections w !! k = Some r ∨ (r ∈ rows ∧ c_id r = Some k)) ∧
    size (queryCollections w') = (size (queryCollections w) + tree_size (ex_tree data))%nat.
Proof.
  intros w'. subst w'. unfold valid_document in Hvalid.
  apply andb_true_iff in Hvalid as [Hversion Htype%bool_decide_eq_true].
  unfold importCollectionData.
  assert ((match ex_version data with Some v => v =? 0 | None => true end) = false) as ->.
  { destruct (ex_version data); [|done]. by apply negb_true_iff. }
  rewrite Htype. simpl.
  erewrite bind_Ok by apply remapCollectionIDsToCollectionList_run.
  set (l := getCollectionListFromTree _ "").
  assert (uuids_fresh (after_uuids (tree_size (ex_tree data)) w)) as Hfresh1.
  { destruct Hfresh as [Hinj Hfree]. split; [done|]. intros j Hj. simpl in *.
    apply Hfree. lia. }
  destruct (import_loop_stores_roots l _ Hfresh1)
    as (w' & rows & Hloop & _ & Htitles & Hroots & Hrows & Hsize).
  rewrite Hloop. simpl. exists rows. split_and!; [done| |done|done|].
  - rewrite Htitles. subst l.
    pose proof (import_fields (uuid_src w) (ex_tree data) (uuid_drawn w) "") as Hfields.
    apply (f_equal (map c_title)) in Hfields. by rewrite !map_map in Hfields.
  - rewrite Hsize. subst l.
    by rewrite length_getCollectionListFromTree, tree_size_relabel.
Qed.

Lemma tally_fresh : uuids_fresh (sample_world ∅).
Proof. split; [intros i j; apply tally_inj|]. intros j _. apply lookup_empty. Qed.

Lemma importCollectionData_stores_roots_witness :
  ∃ rows,
    (importCollectionData (Some sample_export) (sample_world ∅)).1 = Ok tt ∧
    map c_title rows = ["Root"; "X"; "Y"; "Z"] ∧
    Forall (λ r, c_parentPath r = Some "") rows.
Proof.
  destruct (importCollectionData_stores_roots sample_export (sample_world ∅))
    as (rows & Hrun & Htitles & Hroots & _).
  - reflexivity.
  - apply tally_fresh.
  - exists rows. split; [exact Hrun|]. split; [exact Htitles|exact Hroots].
Defined.

(** A missing document, a document without [version] and a document whose
    [type] is not ['collection'] are rejected before anything is drawn or
    stored. *)
Theorem importCollectionData_rejects_invalid (data : option ExportCollectionState)
    (w : World)
    (Hinvalid : match data with Some d => valid_document d = false | None => True end) :
  ∃ msg, importCollectionData data w = (Throw msg, w) ∧
         (data = None ↔ msg = "Object is empty.").
Proof.
  destruct data as [d|]; simpl.
  - unfold valid_document in Hinvalid.
    assert ((match ex_version d with Some v => v =? 0 | None => true end)
            || negb (truthy_str (ex_type d))
            || negb (bool_decide (ex_type d = Some "collection")) = true) as ->.
    { destruct (ex_version d) as [v|]; [|done]. simpl in *.
      destruct (v =? 0); [done|]. simpl in *. rewrite Hinvalid. apply orb_true_r. }
    eexists. split; [done|]. split; done.
  - eexists. split; [done|]. split; done.
Qed.

Lemma importCollectionData_rejects_invalid_witness :
  ∃ msg, importCollectionData (Some (mkExport None (Some "collection") sample_document))
           (sample_world ∅) = (Throw msg, sample_world ∅).
Proof.
  destruct (importCollectionData_rejects_invalid
              (Some (mkExport None (Some "collection") sample_document)) (sample_world ∅))
    as (msg & Hrun & _).
  - reflexivity.
  - exists msg. exact Hrun.
Defined.

(** ** Pulling: new collections, and what is never lost *)

Lemma sync_adopts_title_with_server_queries_witness :
  let w := logged_in_world {[ IdStr "a" := local_at_10 ]} [remote_at 780000] in
  c_title <$> queryCollections (sync_server_collection [local_at_10] (remote_at 780000) w).2
                !! IdStr "a"
    = Some "Remote title".
Proof.
  intros w.
  apply (sync_adopts_title_with_server_queries [local_at_10] (remote_at 780000) w
           0 local_at_10 (IdStr "a")); try reflexivity.
  - exists local_at_10. reflexivity.
  - discriminate.
Defined.

Lemma created_queries_serverIds ids n now (qs : list IQuery) :
  map q_serverId (created_queries ids n now qs) = map q_serverId qs.
Proof. revert n. induction qs as [|q qs IH]; intros n; simpl; [done|]. by rewrite IH. Qed.

Lemma created_queries_ids ids n now (qs : list IQuery) :
  map q_id (created_queries ids n now qs) = map (λ j, Some (ids j)) (seq n (length qs)).
Proof. revert n. induction qs as [|q qs IH]; intros n; simpl; [done|]. by rewrite IH. Qed.

(** A remote collection that matches no local collection is created
    locally, under a fresh id: the new row has the remote name as title, the
    remote id as [serverId], the empty [parentPath], and the server queries
    in their order, each with its server id and an id of its own; the local
    array of the loop is not told of it. *)
Theorem sync_creates_unmatched (localCollections : list IQueryCollection)
    (serverCollection : ServerCollection) (w : World)
    (Hnone : find_matched (rc_id serverCollection) localCollections = None)
    (Hfree : queryCollections w
               !! IdStr (uuid_src w (uuid_drawn w + length (rc_queries serverCollection)))
             = None) :
  let run := sync_server_collection localCollections serverCollection w in
  let newId := IdStr (uuid_src w (uuid_drawn w + length (rc_queries serverCollection))) in
  ∃ row,
    run.1 = Ok localCollections ∧
    queryCollections run.2 = <[newId := row]> (queryCollections w) ∧
    c_id row = Some newId ∧
    c_title row = rc_collectionName serverCollection ∧
    c_serverId row = Some (rc_id serverCollection) ∧
    c_parentPath row = Some "" ∧
    map q_serverId (c_queries row) = map (λ sq, Some (rq_id sq)) (rc_queries serverCollection) ∧
    map q_id (c_queries row)
      = map (λ j, Some (uuid_src w j))
            (seq (uuid_drawn w) (length (rc_queries serverCollection))).
Proof.
  intros run newId. subst run. unfold sync_server_collection. rewrite Hnone.
  change (createLocalCollection ?c None) with (create c None).
  fold (pulled_collection serverCollection).
  assert (length (c_queries (pulled_collection serverCollection))
          = length (rc_queries serverCollection)) as Hlen by apply length_map.
  destruct (create_run (pulled_collection serverCollection) None w)
    as (Hid & Htable & _); [by rewrite Hlen|].
  rewrite Hlen in Hid, Htable. fold newId in Hid, Htable.
  destruct (create (pulled_collection serverCollection) None w) as [r w'] eqn:Hrun.
  simpl in Hid, Htable. subst r.
  erewrite bind_Ok by exact Hrun. simpl.
  eexists. split_and!; [done|exact Htable|..]; simpl.
  - by rewrite length_map.
  - done.
  - done.
  - done.
  - by rewrite created_queries_serverIds, map_map.
  - by rewrite created_queries_ids, length_map.
Qed.

Lemma sync_creates_unmatched_witness :
  let w := logged_in_world ∅ [remote_at 780000] in
  ∃ row,
    queryCollections (sync_server_collection [] (remote_at 780000) w).2 !! IdStr "i-"
      = Some row ∧
    c_serverId row = Some "rc1" ∧ c_title row = "Remote title".
Proof.
  intros w.
  destruct (sync_creates_unmatched [] (remote_at 780000) w)
    as (row & _ & Htable & _ & Htitle & Hsid & _).
  - reflexivity.
  - reflexivity.
  - exists row. split; [|split; [exact Hsid|exact Htitle]].
    rewrite Htable. apply lookup_insert_eq.
Defined.

(** ** Operations on a collection that is not stored *)

Lemma found_None (w : World) (i : CollectionID) :
  found w i = None →
  queryCollections w !! i = None ∧ queryCollections w !! getAlternateCollectionID i = None.
Proof. unfold found. by destruct (queryCollections w !! i). Qed.

Lemma modify_row_missing key changeCb (w : World) :
  queryCollections w !! key = None → modify_row key changeCb w = (Ok tt, w).
Proof. intros H. unfold modify_row, mbind, M_bind, bind, table_get. by rewrite H. Qed.

Lemma updateCollectionByID_missing i changeCb (w : World) :
  found w i = None → updateCollectionByID i changeCb w = (Ok tt, w).
Proof.
  intros [Hi Ha]%found_None. unfold updateCollectionByID.
  erewrite bind_Ok by (by apply modify_row_missing).
  case_decide; [done|]. by apply modify_row_missing.
Qed.

Lemma mustGetLocalCollection_missing i (w : World) :
  found w i = None →
  mustGetLocalCollection i w = (Throw "Could not retrieve local collection data", w).
Proof.
  intros H. unfold mustGetLocalCollection.
  erewrite bind_Ok by apply getCollectionByID_found. by rewrite H.
Qed.

(** When no row is stored under an id nor under its alternate, [addQuery],
    [deleteQuery] and [deleteCollection] reject with "Could not retrieve
    local collection data", and so does [updateQuery] for a logged-in user;
    for a user who is not logged in [updateQuery] resolves.  None of them
    changes the table. *)
Theorem operations_on_missing_collection (collectionId : CollectionID)
    (queryId : string) (query : IQuery) (w : World)
    (Hmissing : found w collectionId = None) :
  let missing := Throw "Could not retrieve local collection data" in
  ((addQuery collectionId query w).1 = missing ∧
   queryCollections (addQuery collectionId query w).2 = queryCollections w) ∧
  ((deleteQuery collectionId query w).1 = missing ∧
   queryCollections (deleteQuery collectionId query w).2 = queryCollections w) ∧
  ((deleteCollection collectionId w).1 = missing ∧
   queryCollections (deleteCollection collectionId w).2 = queryCollections w) ∧
  ((updateQuery collectionId queryId query w).1
     = (if api_getUser (api w) then missing else Ok tt) ∧
   queryCollections (updateQuery collectionId queryId query w).2 = queryCollections w).
Proof.
  intros missing. split_and!.
  - unfold addQuery, addLocalQuery.
    erewrite (bind_Ok (storage_now ≫= _)).
    2:{ erewrite bind_Ok by reflexivity. by apply updateCollectionByID_missing. }
    erewrite bind_Throw by (by apply mustGetLocalCollection_missing). done.
  - unfold addQuery, addLocalQuery.
    erewrite (bind_Ok (storage_now ≫= _)).
    2:{ erewrite bind_Ok by reflexivity. by apply updateCollectionByID_missing. }
    erewrite bind_Throw by (by apply mustGetLocalCollection_missing). done.
  - unfold deleteQuery.
    erewrite bind_Throw by (by apply mustGetLocalCollection_missing). done.
  - unfold deleteQuery.
    erewrite bind_Throw by (by apply mustGetLocalCollection_missing). done.
  - unfold deleteCollection.
    erewrite bind_Throw by (by apply mustGetLocalCollection_missing). done.
  - unfold deleteCollection.
    erewrite bind_Throw by (by apply mustGetLocalCollection_missing). done.
  - unfold updateQuery, updateLocalQuery.
    erewrite (bind_Ok (storage_now ≫= _)).
    2:{ erewrite bind_Ok by reflexivity. by apply updateCollectionByID_missing. }
    erewrite bind_Ok by reflexivity. simpl.
    destruct (api_getUser (api w)); simpl; [|done].
    erewrite bind_Throw by (by apply mustGetLocalCollection_missing). done.
  - unfold updateQuery, updateLocalQuery.
    erewrite (bind_Ok (storage_now ≫= _)).
    2:{ erewrite bind_Ok by reflexivity. by apply updateCollectionByID_missing. }
    erewrite bind_Ok by reflexivity. simpl.
    destruct (api_getUser (api w)); simpl; [|done].
    erewrite bind_Throw by (by apply mustGetLocalCollection_missing). done.
Qed.

Lemma operations_on_missing_collection_witness :
  found (sample_world legacy_table) (IdStr "absent") = None ∧
  (updateQuery (IdStr "absent") "q" (legacy_query "w") (sample_world legacy_table)).1
    = Ok tt ∧
  (addQuery (IdStr "absent") (legacy_query "w") (sample_world legacy_table)).1
    = Throw "Could not retrieve local collection data".
Proof.
  assert (found (sample_world legacy_table) (IdStr "absent") = None) as H
    by (vm_compute; reflexivity).
  pose proof (operations_on_missing_collection (IdStr "absent") "q" (legacy_query "w")
                (sample_world legacy_table) H) as (Hadd & _ & _ & Hupd).
  split_and!; [exact H|apply Hupd|apply Hadd].
Defined.

(** ** Adding a query *)

Lemma alternate_ne (w : World) (i : CollectionID) (c : IQueryCollection) :
  queryCollections w !! i = Some c →
  queryCollections w !! getAlternateCollectionID i = None →
  getAlternateCollectionID i ≠ i.
Proof. intros Hrow Halt E. rewrite E in Halt. congruence. Qed.

Lemma addLocalQuery_run i query (w : World) c :
  queryCollections w !! i = Some c →
  queryCollections w !! getAlternateCollectionID i = None →
  addLocalQuery i query w
    = (Ok tt,
       mkWorld (<[i := set_queries (c_queries c ++ [added_query w query]) c]>
                  (queryCollections w))
               (uuid_src w) (S (uuid_drawn w)) (now_src w) (S (now_drawn w)) (api w)).
Proof.
  intros Hrow Halt. pose proof (alternate_ne _ _ _ Hrow Halt) as Hne.
  unfold addLocalQuery, updateCollectionByID, modify_row, storage_now, uuid, table_get,
    table_put, mbind, M_bind, bind, mret, M_ret, ret. simpl.
  rewrite Hrow. simpl. case_decide; [done|]. simpl.
  by rewrite lookup_insert_ne, Halt.
Qed.

Lemma mustGetLocalCollection_found i (w : World) c :
  found w i = Some c → mustGetLocalCollection i w = (Ok c, w).
Proof.
  intros H. unfold mustGetLocalCollection.
  erewrite bind_Ok by apply getCollectionByID_found. by rewrite H.
Qed.

(** [addQuery] for a user who is not logged in, or on a collection that is
    not synced: it resolves, and the collection holds one more query, last:
    the given one with a new id and [created_at] and [updated_at] set to the
    timestamp of the call.  Nothing else changes in the table. *)
Theorem addQuery_appends_stamped_query (collectionId : CollectionID) (query : IQuery)
    (w : World) (c : IQueryCollection)
    (Hrow : queryCollections w !! collectionId = Some c)
    (Halt : queryCollections w !! getAlternateCollectionID collectionId = None)
    (Hlocal : api_getUser (api w) = false ∨ truthy_str (c_serverId c) = false) :
  (addQuery collectionId query w).1 = Ok tt ∧
  queryCollections (addQuery collectionId query w).2
    = <[collectionId := set_queries (c_queries c ++ [added_query w query]) c]>
        (queryCollections w).
Proof.
  unfold addQuery.
  erewrite bind_Ok by (by apply addLocalQuery_run).
  erewrite bind_Ok.
  2:{ apply mustGetLocalCollection_found. unfold found. simpl.
      by rewrite lookup_insert_eq. }
  erewrite bind_Ok by reflexivity. simpl.
  destruct Hlocal as [->| ->]; simpl; [done|].
  by destruct (api_getUser (api w)).
Qed.

Lemma addQuery_appends_stamped_query_witness :
  (addQuery (IdNum 5) (legacy_query "w") (sample_world legacy_table)).1 = Ok tt ∧
  queryCollections (addQuery (IdNum 5) (legacy_query "w") (sample_world legacy_table)).2
    !! IdNum 5
    = Some (set_queries
              [mkQuery (Some "-") None (Some "w") (Some "{ hello }") (Some 1000) (Some 1000)]
              (root_collection (IdNum 5) "Five")).
Proof.
  pose proof (addQuery_appends_stamped_query (IdNum 5) (legacy_query "w")
                (sample_world legacy_table) (root_collection (IdNum 5) "Five")) as H.
  destruct H as [H1 H2].
  - vm_compute; reflexivity.
  - vm_compute; reflexivity.
  - left. reflexivity.
  - split; [exact H1|]. rewrite H2. by rewrite lookup_insert_eq.
Defined.

(** [updateLocalQuery] on a collection stored under the id, with no row under
    the alternate id: the queries with the given id take the fields of the
    update. *)
Lemma updateLocalQuery_run i queryId query (w : World) c :
  queryCollections w !! i = Some c →
  queryCollections w !! getAlternateCollectionID i = None →
  updateLocalQuery i queryId query w
    = (Ok tt,
       mkWorld
         (<[i := set_queries
                   (map (λ collectionQuery,
                           if decide (q_id collectionQuery = Some queryId)
                           then spread_query collectionQuery
                                  (set_q_updated_at (Some (now_src w (now_drawn w)))
                                     (set_q_id (Some queryId) query))
                           else collectionQuery)
                        (c_queries c)) c]> (queryCollections w))
         (uuid_src w) (uuid_drawn w) (now_src w) (S (now_drawn w)) (api w)).
Proof.
  intros Hrow Halt. pose proof (alternate_ne _ _ _ Hrow Halt) as Hne.
  unfold updateLocalQuery. erewrite bind_Ok by reflexivity.
  rewrite updateCollectionByID_pure. simpl. case_decide; [done|].
  unfold set_table. simpl. do 2 f_equal.
  apply map_eq. intros k.
  destruct (decide (k = getAlternateCollectionID i)) as [->|Hk].
  { by rewrite lookup_alter_eq, lookup_alter_ne, lookup_insert_ne, Halt. }
  rewrite lookup_alter_ne by done.
  destruct (decide (k = i)) as [->|Hk'].
  - by rewrite lookup_alter_eq, lookup_insert_eq, Hrow.
  - by rewrite lookup_alter_ne, lookup_insert_ne.
Qed.

(** [addQuery] for a logged-in user on a synced collection (no row under the
    alternate id), when the remote side answers [createQueries] with one
    server id: the call resolves; the query is appended with a new id and
    the time of the call, and then every query of the collection whose [id]
    is the returned server id, the appended one included, is overwritten
    with the fields of the given query, that id, the server id as
    [serverId] and a new [updated_at].  So when no query has the server id
    as its [id], the appended query is stored with the [serverId] the caller
    gave, not the one the remote side returned. *)
Theorem addQuery_server_id_by_query_id (collectionId : CollectionID) (query : IQuery)
    (w : World) (c : IQueryCollection) (queryServerId : string)
    (Hrow : queryCollections w !! collectionId = Some c)
    (Halt : queryCollections w !! getAlternateCollectionID collectionId = None)
    (Hin : api_getUser (api w) = true)
    (Hsynced : truthy_str (c_serverId c) = true)
    (Hremote : api_createQueries (api w) (default "" (c_serverId c)) [query]
                 = Ok [queryServerId]) :
  let appended := c_queries c ++ [added_query w query] in
  (addQuery collectionId query w).1 = Ok tt ∧
  queryCollections (addQuery collectionId query w).2
    = <[collectionId :=
          set_queries
            (map (λ collectionQuery,
                    if decide (q_id collectionQuery = Some queryServerId)
                    then spread_query collectionQuery
                           (server_id_update w query queryServerId)
                    else collectionQuery)
                 appended) c]> (queryCollections w) ∧
  ((∀ collectionQuery, collectionQuery ∈ appended →
                       q_id collectionQuery ≠ Some queryServerId) →
   queryCollections (addQuery collectionId query w).2
     = <[collectionId := set_queries appended c]> (queryCollections w)).
Proof.
  intros appended.
  pose proof (alternate_ne _ _ _ Hrow Halt) as Hne.
  set (c1 := set_queries appended c).
  assert ((addQuery collectionId query w).1 = Ok tt ∧
          queryCollections (addQuery collectionId query w).2
            = <[collectionId :=
                  set_queries
                    (map (λ collectionQuery,
                            if decide (q_id collectionQuery = Some queryServerId)
                            then spread_query collectionQuery
                                   (server_id_update w query queryServerId)
                            else collectionQuery)
                         appended) c]> (queryCollections w)) as [Hok Htable].
  { unfold addQuery.
    erewrite bind_Ok by (by apply addLocalQuery_run). fold appended c1.
    set (w1 := mkWorld _ _ _ _ _ _).
    assert (queryCollections w1 !! collectionId = Some c1) as Hrow1
      by apply lookup_insert_eq.
    assert (queryCollections w1 !! getAlternateCollectionID collectionId = None) as Halt1
      by (subst w1; simpl; by rewrite lookup_insert_ne).
    assert (found w1 collectionId = Some c1) as Hfound1 by (unfold found; by rewrite Hrow1).
    erewrite bind_Ok by (by apply mustGetLocalCollection_found).
    erewrite bind_Ok by reflexivity. simpl. rewrite Hin, Hsynced. simpl.
    unfold addRemoteQuery.
    erewrite bind_Ok by (by apply mustGetLocalCollection_found).
    simpl. rewrite Hsynced. simpl.
    erewrite bind_Ok by reflexivity.
    erewrite bind_Ok by (unfold lift_res; simpl; by rewrite Hremote).
    cbn [addRemoteQuery_loop].
    erewrite bind_Ok by (by apply (updateLocalQuery_run _ _ _ _ c1)).
    simpl. split; [done|]. by rewrite insert_insert_eq. }
  split_and!; [done|done|].
  intros Hids. rewrite Htable. do 2 f_equal.
  transitivity (map (λ q : IQuery, q) appended); [|apply map_id].
  apply map_ext_in. intros q Hq%list_elem_of_In. rewrite decide_False; [done|].
  by apply Hids.
Qed.

Lemma addQuery_server_id_by_query_id_witness :
  let w := creating_world {[ IdStr "s" := collection_with_remote_id ]} ["remote-q"] in
  (addQuery (IdStr "s") (legacy_query "w") w).1 = Ok tt ∧
  c_queries <$> queryCollections (addQuery (IdStr "s") (legacy_query "w") w).2 !! IdStr "s"
    = Some [mkQuery (Some "remote-q") (Some "remote-q") (Some "w") (Some "{ hello }")
              (Some 1) (Some 1001);
            mkQuery (Some "-") None (Some "w") (Some "{ hello }") (Some 1000) (Some 1000)].
Proof.
  intros w.
  pose proof (addQuery_server_id_by_query_id (IdStr "s") (legacy_query "w") w
                collection_with_remote_id "remote-q") as H.
  destruct H as (H1 & H2 & _).
  - vm_compute; reflexivity.
  - vm_compute; reflexivity.
  - reflexivity.
  - reflexivity.
  - reflexivity.
  - split; [exact H1|]. rewrite H2. by rewrite lookup_insert_eq.
Defined.

(** ** The tree of one collection *)






(** ** Replacing a collection *)

Lemma getParentCollection_run (c : IQueryCollection) (w : World) :
  ∃ parent, getParentCollection c w = (Ok parent, w).
Proof.
  unfold getParentCollection. destruct (getParentCollectionId c).
  - rewrite getCollectionByID_found. by eexists.
  - by eexists.
Qed.

Lemma updateRemoteCollection_state
    (remote_updateCollection : string → IQueryCollection → option IQueryCollection → Res unit)
    (collectionId : CollectionID) (w : World) :
  (updateRemoteCollection remote_updateCollection collectionId w).2 = w.
Proof.
  unfold updateRemoteCollection. erewrite bind_Ok by reflexivity.
  destruct (negb _); [done|].
  destruct (found w collectionId) as [c|] eqn:Hfound.
  - erewrite bind_Ok by (by apply mustGetLocalCollection_found).
    destruct (getParentCollection_run c w) as [parent Hparent].
    by erewrite bind_Ok by exact Hparent.
  - by erewrite bind_Throw by (by apply mustGetLocalCollection_missing).
Qed.

(** What follows the local write in [updateCollection] writes nothing. *)
Lemma updateCollection_state
    (remote_updateCollection : string → IQueryCollection → option IQueryCollection → Res unit)
    (collectionId : CollectionID) (modifiedCollection : IQueryCollection) (w : World) :
  (updateCollection remote_updateCollection collectionId modifiedCollection w).2
    = (updateLocalCollection collectionId modifiedCollection w).2.
Proof.
  unfold updateCollection. unfold mbind at 1, M_bind at 1, bind at 1.
  destruct (updateLocalCollection collectionId modifiedCollection w) as [[stamped|e] w1];
    [|done]. simpl.
  destruct (found w1 collectionId) as [c|] eqn:Hfound.
  - erewrite bind_Ok by (by apply mustGetLocalCollection_found).
    destruct (negb _); [done|]. apply updateRemoteCollection_state.
  - by erewrite bind_Throw by (by apply mustGetLocalCollection_missing).
Qed.

(** What [updateCollection] resolves to once the local write has stored
    [stamped] where [getCollectionByID] finds it. *)
Lemma updateCollection_outcome
    (remote_updateCollection : string → IQueryCollection → option IQueryCollection → Res unit)
    (collectionId : CollectionID) (modifiedCollection stamped : IQueryCollection)
    (w w1 : World) :
  updateLocalCollection collectionId modifiedCollection w = (Ok stamped, w1) →
  found w1 collectionId = Some stamped →
  if api_getUser (api w1) && truthy_str (c_serverId stamped)
  then ∃ parentCollection,
         (updateCollection remote_updateCollection collectionId modifiedCollection w).1
           = remote_updateCollection (default "undefined" (c_serverId stamped))
               stamped parentCollection
  else (updateCollection remote_updateCollection collectionId modifiedCollection w).1 = Ok tt.
Proof.
  intros Hrun Hfound. unfold updateCollection.
  erewrite bind_Ok by exact Hrun.
  erewrite bind_Ok by (by apply mustGetLocalCollection_found).
  destruct (truthy_str (c_serverId stamped)); simpl.
  2:{ by rewrite andb_false_r. }
  rewrite andb_true_r. unfold updateRemoteCollection.
  erewrite bind_Ok by reflexivity. simpl.
  destruct (api_getUser (api w1)); simpl; [|done].
  erewrite bind_Ok by (by apply mustGetLocalCollection_found).
  destruct (getParentCollection_run stamped w1) as [parent Hparent].
  erewrite bind_Ok by exact Hparent. by exists parent.
Qed.

(** [updateCollection] with a collection that has the id it is stored under
    writes locally first: the row under the id becomes the given collection
    with [updated_at] set to the timestamp of the call and rows under other
    ids are left alone, whether the call resolves or rejects.  With no row
    under the alternate id, the remote side is called only for a logged-in
    user and when the given collection has a [serverId]; the outcome of the
    call is then that of the remote call, and it resolves otherwise. *)
Theorem updateCollection_local_first
    (remote_updateCollection : string → IQueryCollection → option IQueryCollection → Res unit)
    (collectionId : CollectionID) (modifiedCollection : IQueryCollection) (w : World)
    (Hrow : is_Some (queryCollections w !! collectionId))
    (Hid : c_id modifiedCollection = Some collectionId) :
  let stamped := set_updated_at (Some (now_src w (now_drawn w))) modifiedCollection in
  let run := updateCollection remote_updateCollection collectionId modifiedCollection w in
  queryCollections run.2 !! collectionId = Some stamped ∧
  (∀ j, j ≠ collectionId → j ≠ getAlternateCollectionID collectionId →
        queryCollections run.2 !! j = queryCollections w !! j) ∧
  (queryCollections w !! getAlternateCollectionID collectionId = None →
     if api_getUser (api w) && truthy_str (c_serverId modifiedCollection)
     then ∃ parentCollection,
            run.1 = remote_updateCollection
                      (default "undefined" (c_serverId modifiedCollection))
                      stamped parentCollection
     else run.1 = Ok tt).
Proof.
  intros stamped run. subst run. rewrite updateCollection_state.
  destruct (updateLocalCollection_at_key collectionId modifiedCollection w Hrow Hid)
    as [Hat Hother].
  split_and!; [done|done|]. intros Halt. destruct Hrow as [old Hrow].
  pose proof (updateLocalCollection_single collectionId modifiedCollection old w
                Hrow Halt (or_introl Hid)) as Hrun. fold stamped in Hrun.
  apply (updateCollection_outcome remote_updateCollection) in Hrun; [done|].
  unfold found. simpl. by rewrite lookup_insert_eq.
Qed.

Lemma updateCollection_local_first_witness :
  let run := updateCollection (λ _ _ _, Throw "offline") (IdNum 5) renamed_five
               (logged_in_world legacy_table []) in
  run.1 = Throw "offline" ∧
  queryCollections run.2 !! IdNum 5 = Some (set_updated_at (Some 1000000) renamed_five).
Proof.
  intros run.
  destruct (updateCollection_local_first (λ _ _ _, Throw "offline") (IdNum 5)
              renamed_five (logged_in_world legacy_table [])) as (Hrow & _ & Hres).
  - vm_compute. by eexists.
  - reflexivity.
  - subst run. split.
    + destruct Hres as [parent Hres]; [vm_compute; reflexivity|]. exact Hres.
    + exact Hrow.
Defined.

(** [updateCollection] with a collection that has another id than the one it
    is stored under, when that other id is free: the row leaves its key and
    is stored, stamped, under the id of the given collection; nothing else
    changes.  The re-read under the old id then finds nothing and the call
    rejects, unless the new id is the alternate form of the old one: then
    the call goes on as for a collection stored under its id. *)
Theorem updateCollection_other_id_moves_row
    (remote_updateCollection : string → IQueryCollection → option IQueryCollection → Res unit)
    (collectionId newId : CollectionID) (modifiedCollection old : IQueryCollection)
    (w : World)
    (Hrow : queryCollections w !! collectionId = Some old)
    (Hstored : c_id old = Some collectionId)
    (Halt : queryCollections w !! getAlternateCollectionID collectionId = None)
    (Hid : c_id modifiedCollection = Some newId)
    (Hother : newId ≠ collectionId)
    (Hfree : queryCollections w !! newId = None) :
  let stamped := set_updated_at (Some (now_src w (now_drawn w))) modifiedCollection in
  let run := updateCollection remote_updateCollection collectionId modifiedCollection w in
  queryCollections run.2
    = delete collectionId (<[newId := stamped]> (queryCollections w)) ∧
  (newId ≠ getAlternateCollectionID collectionId →
     run.1 = Throw "Could not retrieve local collection data") ∧
  (newId = getAlternateCollectionID collectionId →
     if api_getUser (api w) && truthy_str (c_serverId modifiedCollection)
     then ∃ parentCollection,
            run.1 = remote_updateCollection
                      (default "undefined" (c_serverId modifiedCollection))
                      stamped parentCollection
     else run.1 = Ok tt).
Proof.
  intros stamped run. subst run.
  assert (∃ w1, updateLocalCollection collectionId modifiedCollection w = (Ok stamped, w1) ∧
                queryCollections w1
                  = delete collectionId (<[newId := stamped]> (queryCollections w)) ∧
                api w1 = api w) as (w1 & Hrun & Htable & Hapi).
  { rewrite updateLocalCollection_unfold, Hrow, Halt.
    erewrite bind_Ok by (apply (replace_row_moves _ _ _ _ newId); [done|done|congruence|done]).
    eexists. split; [by case_decide|done]. }
  rewrite updateCollection_state, Hrun. simpl. split_and!; [done| |].
  - intros Hne. unfold updateCollection. erewrite bind_Ok by exact Hrun.
    erewrite bind_Throw; [done|]. apply mustGetLocalCollection_missing.
    unfold found. rewrite Htable, lookup_delete_eq.
    destruct (decide (getAlternateCollectionID collectionId = collectionId)) as [->|Ha].
    + apply lookup_delete_eq.
    + by rewrite lookup_delete_ne, lookup_insert_ne.
  - intros ->. rewrite <- Hapi.
    apply (updateCollection_outcome remote_updateCollection _ _ _ _ _ Hrun).
    unfold found. rewrite Htable, lookup_delete_eq.
    by rewrite lookup_delete_ne, lookup_insert_eq.
Qed.

Lemma updateCollection_other_id_moves_row_witness :
  let run := updateCollection (λ _ _ _, Throw "offline") (IdNum 5)
               (synced_collection "5" "remote-5" "Renamed" 7)
               (logged_in_world legacy_table []) in
  run.1 = Throw "offline" ∧
  queryCollections run.2 !! IdNum 5 = None ∧
  queryCollections run.2 !! IdStr "5"
    = Some (set_updated_at (Some 1000000) (synced_collection "5" "remote-5" "Renamed" 7)).
Proof.
  intros run.
  destruct (updateCollection_other_id_moves_row (λ _ _ _, Throw "offline") (IdNum 5)
              (IdStr "5") (synced_collection "5" "remote-5" "Renamed" 7)
              (root_collection (IdNum 5) "Five") (logged_in_world legacy_table []))
    as (Htable & _ & Hres); try reflexivity.
  - discriminate.
  - subst run. split_and!.
    + destruct Hres as [parent Hres]; [reflexivity|]. exact Hres.
    + rewrite Htable. apply lookup_delete_eq.
    + rewrite Htable. rewrite lookup_delete_ne by discriminate. apply lookup_insert_eq.
Defined.

(** ** Creating a collection on the remote side *)

Lemma stamp_server_ids_imap (queryIds : list string) (queries : list IQuery) :
  ∀ idx, stamp_server_ids idx queryIds queries
         = imap (λ n query, set_q_serverId (queryIds !! (idx + n)%nat) query) queries.
Proof.
  induction queries as [|query rest IH]; intros idx; [done|].
  cbn [stamp_server_ids imap]. rewrite Nat.add_0_r. f_equal.
  rewrite IH. apply imap_ext. intros n q _. simpl. f_equal. f_equal. lia.
Qed.

(** [createRemoteCollection] for a logged-in user, when the remote side
    answers with the server ids of the collection and of its queries: the row
    stored under the local id gets the collection's server id and a new
    [updated_at]; its queries get the server ids by position, the [n]-th
    query the [n]-th id, and a query beyond the ids returned gets none (its
    [serverId] becomes [undefined]).  The rest of the row is the stored one,
    not the collection passed in.  With no row under the alternate id the
    call resolves and no other row changes. *)
Theorem createRemoteCollection_stamps_by_position
    (remote_createQueryCollection :
       IQueryCollection → option string → Res (option (string * list string)))
    (localCollectionId : CollectionID) (collection stored : IQueryCollection) (w : World)
    (collectionServerId : string) (queryIds : list string)
    (Hin : api_getUser (api w) = true)
    (Hrow : queryCollections w !! localCollectionId = Some stored)
    (Hremote : remote_createQueryCollection collection (parent_server_id w collection)
                 = Ok (Some (collectionServerId, queryIds))) :
  let run := createRemoteCollection remote_createQueryCollection localCollectionId
               collection w in
  let written :=
    set_updated_at (Some (now_src w (now_drawn w)))
      (set_queries
         (imap (λ n query, set_q_serverId (queryIds !! n) query) (c_queries stored))
         (set_serverId (Some collectionServerId) stored)) in
  queryCollections run.2 !! localCollectionId = Some written ∧
  (queryCollections w !! getAlternateCollectionID localCollectionId = None →
     run.1 = Ok tt ∧
     queryCollections run.2 = <[localCollectionId := written]> (queryCollections w)).
Proof.
  intros run written. subst run. unfold createRemoteCollection.
  erewrite bind_Ok by reflexivity. simpl. rewrite Hin. simpl.
  assert (∃ parent, getParentCollection collection w = (Ok parent, w) ∧
            match parent ≫= c_serverId with
            | Some sid => if String.eqb sid "" then None else Some sid
            | None => None
            end = parent_server_id w collection) as (parent & Hparent & Hsid).
  { unfold getParentCollection, parent_server_id.
    destruct (getParentCollectionId collection) as [p|].
    - rewrite getCollectionByID_found. by eexists.
    - by eexists. }
  erewrite bind_Ok by exact Hparent. cbv beta iota. rewrite Hsid.
  erewrite bind_Ok by (unfold lift_res; by rewrite Hremote). cbv beta iota.
  assert (found w localCollectionId = Some stored) as Hfound
    by (unfold found; by rewrite Hrow).
  erewrite bind_Ok by (by apply mustGetLocalCollection_found). cbv beta iota zeta.
  rewrite stamp_server_ids_imap. simpl.
  split.
  - rewrite bind_ret_state. by apply (updateLocalCollection_row _ _ stored); [|right].
  - intros Halt.
    erewrite bind_Ok by (apply (updateLocalCollection_single _ _ stored); [done|done|by right]).
    done.
Qed.

Lemma createRemoteCollection_stamps_by_position_witness :
  let stored := collection_with_queries (IdStr "s")
                  [synced_query "old-1" "one" 0; synced_query "old-2" "two" 0] in
  let run := createRemoteCollection (λ _ _, Ok (Some ("remote-s", ["remote-1"])))
               (IdStr "s") stored (logged_in_world {[ IdStr "s" := stored ]} []) in
  run.1 = Ok tt ∧
  (c_serverId <$> queryCollections run.2 !! IdStr "s") = Some (Some "remote-s") ∧
  (map q_serverId ∘ c_queries <$> queryCollections run.2 !! IdStr "s")
    = Some [Some "remote-1"; None].
Proof.
  intros stored run.
  destruct (createRemoteCollection_stamps_by_position
              (λ _ _, Ok (Some ("remote-s", ["remote-1"])))
              (IdStr "s") stored stored (logged_in_world {[ IdStr "s" := stored ]} [])
              "remote-s" ["remote-1"]) as (Hrow & Hres).
  - reflexivity.
  - vm_compute; reflexivity.
  - reflexivity.
  - destruct Hres as [Hres _]; [reflexivity|].
    subst run. split_and!; [exact Hres|by rewrite Hrow..].
Defined.

(** ** Updating a query *)

Lemma keeps_ids_read {A} (m : M A) :
  (∀ w, queryCollections (m w).2 = queryCollections w) → keeps_query_ids m.
Proof. intros H w k c Hk. exists c. by rewrite H. Qed.

Lemma keeps_ids_bind {A B} (m : M A) (f : A → M B) :
  keeps_query_ids m → (∀ a, keeps_query_ids (f a)) → keeps_query_ids (m ≫= f).
Proof.
  intros Hm Hf w k c Hk. unfold mbind, M_bind, bind.
  destruct (Hm w k c Hk) as (c1 & Hk1 & Hids1).
  destruct (m w) as [[a|e] w1]; simpl in *; [|by exists c1].
  destruct (Hf a w1 k c1 Hk1) as (c2 & Hk2 & Hids2).
  exists c2. split; [done|congruence].
Qed.

Lemma keeps_ids_modify_row key (f : IQueryCollection → IQueryCollection) :
  (∀ c, query_ids (f c) = query_ids c) → keeps_query_ids (modify_row key (λ c, mret (f c))).
Proof.
  intros Hf w k c Hk. rewrite modify_row_pure. simpl.
  destruct (decide (k = key)) as [->|Hne].
  - rewrite lookup_alter_eq, Hk. simpl. by eexists.
  - rewrite lookup_alter_ne by done. by exists c.
Qed.

Lemma keeps_ids_updateLocalQuery i queryId query :
  keeps_query_ids (updateLocalQuery i queryId query).
Proof.
  unfold updateLocalQuery. apply keeps_ids_bind; [by apply keeps_ids_read|]. intros now.
  assert (∀ c, query_ids
                 (set_queries
                    (map (λ collectionQuery,
                            if decide (q_id collectionQuery = Some queryId)
                            then spread_query collectionQuery
                                   (set_q_updated_at (Some now)
                                      (set_q_id (Some queryId) query))
                            else collectionQuery)
                         (c_queries c)) c) = query_ids c) as Hf.
  { intros c. unfold query_ids. simpl. rewrite map_map. apply map_ext.
    intros q. by case_decide. }
  unfold updateCollectionByID.
  apply keeps_ids_bind; [by apply keeps_ids_modify_row|]. intros _.
  case_decide; [by apply keeps_ids_read|]. by apply keeps_ids_modify_row.
Qed.

Lemma keeps_ids_mustGetLocalCollection i : keeps_query_ids (mustGetLocalCollection i).
Proof.
  unfold mustGetLocalCollection. apply keeps_ids_bind.
  - apply keeps_ids_read. intros w. by rewrite getCollectionByID_found.
  - intros [c|]; by apply keeps_ids_read.
Qed.

Lemma keeps_ids_addRemoteQuery_loop i queries (queryServerIds : list string) :
  ∀ idx, keeps_query_ids (addRemoteQuery_loop i queries idx queryServerIds).
Proof.
  induction queryServerIds as [|sid sids IH]; intros idx; [by apply keeps_ids_read|].
  cbn [addRemoteQuery_loop].
  apply keeps_ids_bind; [apply keeps_ids_updateLocalQuery|]. intros _. apply IH.
Qed.

Lemma keeps_ids_addRemoteQuery i queries : keeps_query_ids (addRemoteQuery i queries).
Proof.
  unfold addRemoteQuery.
  apply keeps_ids_bind; [apply keeps_ids_mustGetLocalCollection|]. intros c.
  destruct (negb _); [by apply keeps_ids_read|].
  apply keeps_ids_bind; [by apply keeps_ids_read|]. intros w'.
  apply keeps_ids_bind; [by apply keeps_ids_read|]. intros [|sid sids].
  - by apply keeps_ids_read.
  - apply keeps_ids_addRemoteQuery_loop.
Qed.

(** [updateQuery] keeps the ids of the queries of every row as they are, in
    order: it adds no query, removes none and gives none another id,
    whether the user is logged in or not, whatever the remote side answers
    and whether the call resolves or rejects. *)
Theorem updateQuery_keeps_query_ids (collectionId : CollectionID) (queryId : string)
    (query : IQuery) :
  keeps_query_ids (updateQuery collectionId queryId query).
Proof.
  unfold updateQuery.
  apply keeps_ids_bind; [apply keeps_ids_updateLocalQuery|]. intros res.
  apply keeps_ids_bind; [by apply keeps_ids_read|]. intros loggedIn.
  destruct (negb loggedIn); [by apply keeps_ids_read|].
  apply keeps_ids_bind; [apply keeps_ids_mustGetLocalCollection|]. intros c.
  destruct (negb _); [by apply keeps_ids_read|].
  apply keeps_ids_bind.
  { apply keeps_ids_read. intros w. unfold getLocalQuery.
    erewrite bind_Ok by apply getCollectionByID_found. by destruct (found w collectionId). }
  intros localQuery.
  destruct (localQuery ≫= q_serverId) as [sid|]; [|apply keeps_ids_addRemoteQuery].
  destruct (String.eqb sid ""); [apply keeps_ids_addRemoteQuery|].
  apply keeps_ids_bind; [by apply keeps_ids_read|]. intros w'.
  apply keeps_ids_bind; [by apply keeps_ids_read|]. intros _. by apply keeps_ids_read.
Qed.

(** ** No row is removed by pulling, importing, creating or moving *)

Lemma rows_kept_refl (w : World) : stored_under_ids w → rows_kept w w.
Proof. by split. Qed.

Lemma rows_kept_trans (w1 w2 w3 : World) :
  rows_kept w1 w2 → rows_kept w2 w3 → rows_kept w1 w3.
Proof. intros [_ H12] [Hw3 H23]. split; [done|]. intros k Hk. by apply H23, H12. Qed.

Lemma rows_kept_same_table (w w' : World) :
  stored_under_ids w → queryCollections w' = queryCollections w → rows_kept w w'.
Proof.
  intros Hw Heq. split.
  - intros k r. rewrite Heq. apply Hw.
  - intros k. by rewrite Heq.
Qed.

Lemma rows_kept_insert (w w' : World) (k : CollectionID) (c : IQueryCollection) :
  stored_under_ids w → c_id c = Some k →
  queryCollections w' = <[k := c]> (queryCollections w) → rows_kept w w'.
Proof.
  intros Hw Hid Heq. split.
  - intros j r. rewrite Heq, lookup_insert. case_decide; [naive_solver|apply Hw].
  - intros j Hj. rewrite Heq, lookup_insert. case_decide; [by eexists|done].
Qed.

Lemma keeps_rows_read {A} (m : M A) :
  (∀ w, queryCollections (m w).2 = queryCollections w) → keeps_rows m.
Proof. intros H w Hw. by apply rows_kept_same_table. Qed.

Lemma keeps_rows_bind {A B} (m : M A) (f : A → M B) :
  keeps_rows m → (∀ a, keeps_rows (f a)) → keeps_rows (m ≫= f).
Proof.
  intros Hm Hf w Hw. unfold mbind, M_bind, bind.
  specialize (Hm w Hw). destruct (m w) as [[a|e] w1]; simpl in *; [|done].
  apply (rows_kept_trans _ w1); [done|]. apply Hf, Hm.
Qed.

Lemma keeps_rows_transaction {A} (m : M A) : keeps_rows m → keeps_rows (transaction m).
Proof.
  intros Hm w Hw. unfold transaction.
  specialize (Hm w Hw). destruct (m w) as [[a|e] w1]; simpl in *; [done|].
  by apply rows_kept_same_table.
Qed.

Lemma keeps_rows_mapM {A B} (f : A → M B) (l : list A) :
  (∀ a, keeps_rows (f a)) → keeps_rows (mapM f l).
Proof.
  intros Hf. induction l as [|a l IH]; [by apply keeps_rows_read|].
  cbn [mapM]. apply keeps_rows_bind; [done|]. intros b.
  apply keeps_rows_bind; [done|]. intros bs. by apply keeps_rows_read.
Qed.

Lemma keeps_rows_table_add c : keeps_rows (table_add c).
Proof.
  intros w Hw. unfold table_add. destruct (c_id c) as [k|] eqn:Hid; [|by apply rows_kept_refl].
  destruct (queryCollections w !! k) eqn:Hk; [by apply rows_kept_refl|].
  by apply (rows_kept_insert _ _ k c).
Qed.

Lemma keeps_rows_table_modify sel (f : IQueryCollection → IQueryCollection) :
  (∀ c, c_id (f c) = c_id c) → keeps_rows (table_modify sel f).
Proof.
  intros Hf w Hw. split; simpl.
  - intros k r. simpl. rewrite map_lookup_imap.
    destruct (queryCollections w !! k) as [c|] eqn:Hk; [|done]. simpl.
    intros [= <-]. destruct (sel k c); [rewrite Hf|]; by apply Hw.
  - intros k [c Hk]. rewrite map_lookup_imap, Hk. simpl. by eexists.
Qed.

Ltac keeps_rows_step :=
  first [ solve [apply keeps_rows_read; intros ?; reflexivity]
        | solve [apply keeps_rows_read; intros ?; by rewrite getCollectionByID_found]
        | apply keeps_rows_table_add
        | apply keeps_rows_transaction
        | apply keeps_rows_mapM; intros ?
        | apply keeps_rows_bind; [|intros ?]
        | match goal with
          | |- keeps_rows (if ?b then _ else _) => destruct b
          | |- keeps_rows (match ?x with _ => _ end) => destruct x
          end ].

Lemma keeps_rows_createLocalCollection c p : keeps_rows (createLocalCollection c p).
Proof.
  unfold createLocalCollection, getSubcollectionParentPath. repeat keeps_rows_step.
Qed.

Lemma keeps_rows_moveCollection i j : keeps_rows (moveCollection i j).
Proof.
  unfold moveCollection, moveLocalCollection.
  repeat first [ by apply keeps_rows_table_modify | keeps_rows_step ].
Qed.

Lemma keeps_rows_import_loop l : keeps_rows (import_loop l).
Proof.
  induction l as [|c l IH]; [by apply keeps_rows_read|].
  cbn [import_loop]. apply keeps_rows_bind; [apply keeps_rows_createLocalCollection|].
  by intros _.
Qed.

Lemma keeps_rows_importCollectionData data : keeps_rows (importCollectionData data).
Proof.
  unfold importCollectionData. destruct data as [data|]; [|by apply keeps_rows_read].
  destruct (_ || _); [by apply keeps_rows_read|].
  apply keeps_rows_bind; [|intros l; apply keeps_rows_import_loop].
  apply keeps_rows_read. intros w. by rewrite remapCollectionIDsToCollectionList_run.
Qed.

(** One row replaced by an object whose id is the key of a stored row: the
    object is written in place when that key is the key of the row replaced;
    otherwise the add is rejected and the table is as it was. *)
Lemma replace_row_keeps key (row : option IQueryCollection) (obj : IQueryCollection)
    (j : CollectionID) (w : World) :
  stored_under_ids w →
  (∀ r, row = Some r → c_id r = Some key) →
  c_id obj = Some j → is_Some (queryCollections w !! j) →
  rows_kept w (replace_row key row obj w).2 ∧
  ∀ stamped, (replace_row key row obj w).1 = Ok stamped → c_id stamped = Some j.
Proof.
  intros Hw Hrow Hid Hj. destruct row as [r|].
  2:{ simpl. split; [by apply rows_kept_refl|]. by intros ? [= <-]. }
  specialize (Hrow r eq_refl).
  destruct (decide (j = key)) as [->|Hne].
  - rewrite replace_row_in_place by (by left). simpl. split; [|by intros ? [= <-]].
    by apply (rows_kept_insert _ _ key (set_updated_at (Some (now_src w (now_drawn w))) obj)).
  - destruct (replace_row_taken key r obj w j) as [e ->]; [done|done|congruence|done|].
    simpl. split; [by apply rows_kept_same_table|done].
Qed.

Lemma updateLocalCollection_keeps k (obj : IQueryCollection) (j : CollectionID) (w : World) :
  stored_under_ids w → c_id obj = Some j → is_Some (queryCollections w !! j) →
  rows_kept w (updateLocalCollection k obj w).2 ∧
  ∀ stamped, (updateLocalCollection k obj w).1 = Ok stamped → c_id stamped = Some j.
Proof.
  intros Hw Hid Hj. rewrite updateLocalCollection_unfold.
  destruct (replace_row_keeps k (queryCollections w !! k) obj j w Hw) as [Hkept Hres];
    [by intros r ?%Hw|done|done|].
  unfold mbind, M_bind, bind.
  destruct (replace_row k (queryCollections w !! k) obj w) as [[stamped|e] w1];
    simpl in *; [|done].
  destruct (replace_row_keeps (getAlternateCollectionID k)
              (if decide (getAlternateCollectionID k = k) then None
               else queryCollections w !! getAlternateCollectionID k) stamped j w1)
    as [Hkept' Hres']; [apply Hkept| |by apply Hres|by apply Hkept|].
  { intros r. case_decide; [done|]. apply Hw. }
  split; [by eapply rows_kept_trans|done].
Qed.

Lemma find_matched_lookup sid (localCollections : list IQueryCollection) i m :
  find_matched sid localCollections = Some (i, m) → localCollections !! i = Some m.
Proof.
  revert i. induction localCollections as [|c l IH]; intros i; [done|]. simpl.
  case_decide; [by intros [= <- <-]|].
  destruct (find_matched sid l) as [[i' m']|]; [|done].
  intros [= <- <-]. by apply IH.
Qed.

Lemma all_stored_kept (l : list IQueryCollection) (w w' : World) :
  all_stored l w → rows_kept w w' → all_stored l w'.
Proof. intros Hl [_ Hkept] m k Hm Hk. by eapply Hkept, Hl. Qed.

Lemma all_stored_insert (l : list IQueryCollection) (w : World) (i : nat)
    (m m' : IQueryCollection) :
  all_stored l w → l !! i = Some m → c_id m' = c_id m → all_stored (<[i := m']> l) w.
Proof.
  intros Hl Hi Hid c k Hc Hk.
  apply list_elem_of_lookup in Hc as [n Hn].
  destruct (decide (n = i)) as [->|Hne].
  - rewrite list_lookup_insert_eq in Hn by (by eapply lookup_lt_Some).
    injection Hn as <-. apply (Hl m k); [by eapply list_elem_of_lookup_2|congruence].
  - rewrite list_lookup_insert_ne in Hn by done.
    apply (Hl c k); [by eapply list_elem_of_lookup_2|done].
Qed.

Lemma sync_server_collection_keeps (localCollections : list IQueryCollection)
    (serverCollection : ServerCollection) (w : World) :
  stored_under_ids w → all_stored localCollections w →
  rows_kept w (sync_server_collection localCollections serverCollection w).2 ∧
  ∀ l, (sync_server_collection localCollections serverCollection w).1 = Ok l →
       all_stored l (sync_server_collection localCollections serverCollection w).2.
Proof.
  intros Hw Hl. unfold sync_server_collection.
  destruct (find_matched _ _) as [[i m]|] eqn:Hfind.
  - apply find_matched_lookup in Hfind as Hi.
    destruct (server_is_newer _ _).
    2:{ split; [by apply rows_kept_refl|]. by intros ? [= <-]. }
    rewrite apply_server_queries_id. destruct (c_id m) as [k|] eqn:Hk.
    2:{ split; [by apply rows_kept_refl|]. intros ? [= <-].
        eapply all_stored_insert; [done|done|]. by rewrite apply_server_queries_id. }
    destruct (truthy_id (Some k)).
    2:{ split; [by apply rows_kept_refl|]. intros ? [= <-].
        eapply all_stored_insert; [done|done|]. by rewrite apply_server_queries_id. }
    assert (is_Some (queryCollections w !! k)) as Hrow.
    { apply (Hl m k); [by eapply list_elem_of_lookup_2|done]. }
    destruct (updateLocalCollection_keeps k (apply_server_queries serverCollection m) k w)
      as [Hkept Hres]; [done|by rewrite apply_server_queries_id|done|].
    unfold mbind, M_bind, bind.
    destruct (updateLocalCollection k _ w) as [[stamped|e] w1]; simpl in *; [|done].
    split; [done|]. intros ? [= <-].
    eapply all_stored_insert; [by eapply all_stored_kept|done|].
    by rewrite (Hres stamped eq_refl).
  - pose proof (keeps_rows_createLocalCollection (pulled_collection serverCollection) None
                  w Hw) as Hkept.
    unfold pulled_collection in Hkept. unfold mbind, M_bind, bind.
    destruct (createLocalCollection _ None w) as [[newId|e] w1]; simpl in *; [|done].
    split; [done|]. intros ? [= <-]. by eapply all_stored_kept.
Qed.

Lemma sync_loop_keeps (serverCollections : list ServerCollection) :
  ∀ localCollections w,
    stored_under_ids w → all_stored localCollections w →
    rows_kept w (sync_loop localCollections serverCollections w).2.
Proof.
  induction serverCollections as [|sc scs IH]; intros l w Hw Hl;
    [by apply rows_kept_refl|].
  cbn [sync_loop]. unfold mbind, M_bind, bind.
  destruct (sync_server_collection_keeps l sc w Hw Hl) as [Hkept Hres].
  destruct (sync_server_collection l sc w) as [[l'|e] w1]; simpl in *; [|done].
  eapply rows_kept_trans; [done|]. apply IH; [apply Hkept|by apply Hres].
Qed.

Lemma keeps_rows_syncRemoteToLocal : keeps_rows syncRemoteToLocal.
Proof.
  intros w Hw. unfold syncRemoteToLocal.
  erewrite bind_Ok by reflexivity.
  destruct (negb _); [by apply rows_kept_refl|].
  erewrite bind_Ok by reflexivity. unfold lift_res at 1.
  unfold mbind at 1, M_bind at 1, bind at 1.
  destruct (api_getCollections (api w)) as [[|sc scs]|e];
    [by apply rows_kept_refl| |by apply rows_kept_refl].
  erewrite bind_Ok by reflexivity.
  apply sync_loop_keeps; [done|].
  intros m k [[k' r] [-> Hin]]%list_elem_of_fmap Hk. simpl in Hk.
  rewrite merge_sort_Permutation in Hin. apply elem_of_map_to_list in Hin.
  rewrite (Hw _ _ Hin) in Hk. injection Hk as <-. by eexists.
Qed.

Lemma keeps_rows_createRemoteCollection remote_create i c :
  keeps_rows (createRemoteCollection remote_create i c).
Proof.
  intros w Hw. unfold createRemoteCollection.
  erewrite bind_Ok by reflexivity.
  destruct (negb _); [by apply rows_kept_refl|].
  destruct (getParentCollection_run c w) as [parent Hparent].
  erewrite bind_Ok by exact Hparent. cbv beta iota zeta.
  unfold lift_res at 1. unfold mbind at 1, M_bind at 1, bind at 1.
  destruct (remote_create c _) as [[[sid qids]|]|e];
    [|by apply rows_kept_refl..].
  destruct (found w i) as [r|] eqn:Hfound.
  2:{ erewrite bind_Throw by (by apply mustGetLocalCollection_missing).
      by apply rows_kept_refl. }
  erewrite bind_Ok by (by apply mustGetLocalCollection_found). cbv beta iota zeta.
  assert (∃ j, c_id r = Some j ∧ is_Some (queryCollections w !! j)) as (j & Hj & Hrow).
  { unfold found in Hfound. destruct (queryCollections w !! i) as [r'|] eqn:Hi.
    - injection Hfound as ->. exists i. split; [by apply Hw|by eexists].
    - eexists. split; [by eapply Hw|by eexists]. }
  rewrite bind_ret_state.
  by apply (updateLocalCollection_keeps i _ j).
Qed.

(** In a table whose rows are stored under their ids, [syncRemoteToLocal],
    [importCollectionData], [create], [moveCollection] and
    [createRemoteCollection] remove no row: every key that holds a record
    before the call still holds one after it, and the rows are still stored
    under their ids, whether the call resolves or rejects and whatever the
    remote side answers. *)
Theorem pull_import_create_move_remove_no_row
    (remote_create : IQueryCollection → option string → Res (option (string * list string)))
    (i j : CollectionID) (p : option CollectionID) (c : IQueryCollection)
    (data : option ExportCollectionState) (w : World)
    (Hw : stored_under_ids w) :
  rows_kept w (syncRemoteToLocal w).2 ∧
  rows_kept w (importCollectionData data w).2 ∧
  rows_kept w (create c p w).2 ∧
  rows_kept w (moveCollection i j w).2 ∧
  rows_kept w (createRemoteCollection remote_create i c w).2.
Proof.
  split_and!.
  - by apply keeps_rows_syncRemoteToLocal.
  - by apply keeps_rows_importCollectionData.
  - by apply keeps_rows_createLocalCollection.
  - by apply keeps_rows_moveCollection.
  - by apply keeps_rows_createRemoteCollection.
Qed.

Lemma pull_import_create_move_remove_no_row_witness :
  let w := logged_in_world nested_table [remote_at 780000] in
  stored_under_ids w ∧
  size (queryCollections (syncRemoteToLocal w).2) = 5%nat ∧
  ∀ k, is_Some (nested_table !! k) → is_Some (queryCollections (syncRemoteToLocal w).2 !! k).
Proof.
  intros w.
  assert (stored_under_ids w) as Hw.
  { intros k r Hk. simpl in Hk. unfold nested_table in Hk.
    repeat (apply lookup_insert_Some in Hk as [[<- <-]|[_ Hk]]; [reflexivity|]).
    by apply lookup_singleton_Some in Hk as [<- <-]. }
  destruct (pull_import_create_move_remove_no_row (λ _ _, Ok None) (IdStr "a") (IdStr "z")
              None new_collection None w Hw) as ([_ Hsync] & _).
  split_and!; [exact Hw|vm_compute; reflexivity|exact Hsync].
Defined.
